(** * The trie write-back cache (package trie, type Database)

    A shallow embedding of the in-memory trie node database: the Node Store
    (dirties), the hash-linked flush list, the reference tracker, the
    version-gated pruner, the flush-list cap and the committer, together
    with the properties of the specification that concern them.

    Conventions of the embedding.
    - A [common.Hash] (32 bytes) is the number its bytes spell in big-endian
      order; the zero value [common.Hash{}] is [0].
    - Unsigned machine integers are [Z] with the wrap-around written out
      ([u16], [u32], [u64]).  A [common.StorageSize] is a float64 that only
      ever holds sums and differences of integers; it is modelled as [Z].
    - A Go map is a [gmap]; a nil map is [None].  A pointer into the Node
      Store is the key it was obtained from: the entries are re-read from
      the map after each write, which is what sharing through
      [*cachedNode] amounts to.
    - A Go function with effects is a computation in the monad [M]: it takes
      the database and either returns a value with the new database or
      stops with a [fault] (a run-time panic or fatal error).
    - Metrics, logging and the wall-clock statistics are not modelled. *)

From Stdlib Require Import ZArith NArith List Lia.
From stdpp Require Import gmap list fin_maps.

Open Scope Z_scope.

(** ** Hashes, bytes and machine integers *)

Abbreviation Hash := N (only parsing).
Abbreviation bytes := (list Byte.byte) (only parsing).

Definition zeroHash : N := 0%N.
Definition HashLength : Z := 32.

Definition u16 (x : Z) : Z := x mod 2 ^ 16.
Definition u32 (x : Z) : Z := x mod 2 ^ 32.
Definition u64 (x : Z) : Z := x mod 2 ^ 64.

Definition blen (b : bytes) : Z := Z.of_nat (length b).

(** [common.BytesToHash]: the last 32 bytes, right aligned. *)
Definition BytesToHash (b : bytes) : N :=
  fold_left (fun acc x => (acc * 256 + Byte.to_N x)%N)
            (drop (length b - 32) b) 0%N.

(** ** Trie nodes *)

(** The [node] interface with its implementations; [nilNode] is the nil
    interface value.  The flags of [fullNode] and [shortNode] are caches
    that [simplifyNode] discards; they are left out. *)
#[warnings="-register-all"]
Inductive node : Type :=
| nilNode
| fullNode (Children : list node)
| shortNode (Key : bytes) (Val : node)
| hashNode (h : bytes)
| valueNode (v : bytes)
| rawNode (blob : bytes)
| rawFullNode (Children : list node)
| rawShortNode (Key : bytes) (Val : node).

Definition is_rawNode (n : node) : bool :=
  match n with rawNode _ => true | _ => false end.

(** [simplifyNode]; [None] is the panic on an unknown node type. *)
Fixpoint simplifyNode (n : node) : option node :=
  match n with
  | shortNode k v =>
      match simplifyNode v with
      | Some v' => Some (rawShortNode k v')
      | None => None
      end
  | fullNode cs =>
      let fix go (l : list node) : option (list node) :=
        match l with
        | [] => Some []
        | c :: r =>
            match (match c with nilNode => Some nilNode | _ => simplifyNode c end), go r with
            | Some c', Some r' => Some (c' :: r')
            | _, _ => None
            end
        end in
      match go cs with
      | Some cs' => Some (rawFullNode cs')
      | None => None
      end
  | valueNode _ | hashNode _ | rawNode _ => Some n
  | nilNode | rawFullNode _ | rawShortNode _ _ => None
  end.

(** [forGatherChildren]: the hashes the callback is invoked on, in order;
    [None] is the panic on an unknown node type.  Only the first sixteen
    slots of a full node are visited. *)
Fixpoint forGatherChildren (n : node) : option (list N) :=
  match n with
  | rawShortNode _ v => forGatherChildren v
  | rawFullNode cs =>
      (fix go (l : list node) (k : nat) {struct l} : option (list N) :=
         match l, k with
         | c :: r, S k' =>
             match forGatherChildren c, go r k' with
             | Some a, Some b => Some (a ++ b)
             | _, _ => None
             end
         | _, _ => Some []
         end) cs 16%nat
  | hashNode h => Some [BytesToHash h]
  | valueNode _ | nilNode | rawNode _ => Some []
  | fullNode _ | shortNode _ _ => None
  end.

(** ** Cached nodes *)

Record cachedNode : Type := mkCachedNode {
  cnode : node;                      (* node *)
  csize : Z;                         (* size uint16 *)
  parents : Z;                       (* uint32 *)
  children : option (gmap N Z);      (* map[common.Hash]uint16, possibly nil *)
  flushPrev : N;
  flushNext : N;
  version : Z                        (* uint64 *)
}.

Definition set_flushPrev (h : N) (c : cachedNode) : cachedNode :=
  mkCachedNode (cnode c) (csize c) (parents c) (children c) h (flushNext c) (version c).
Definition set_flushNext (h : N) (c : cachedNode) : cachedNode :=
  mkCachedNode (cnode c) (csize c) (parents c) (children c) (flushPrev c) h (version c).
Definition set_version (v : Z) (c : cachedNode) : cachedNode :=
  mkCachedNode (cnode c) (csize c) (parents c) (children c) (flushPrev c) (flushNext c) v.
Definition set_parents (p : Z) (c : cachedNode) : cachedNode :=
  mkCachedNode (cnode c) (csize c) p (children c) (flushPrev c) (flushNext c) (version c).
Definition set_children (m : option (gmap N Z)) (c : cachedNode) : cachedNode :=
  mkCachedNode (cnode c) (csize c) (parents c) m (flushPrev c) (flushNext c) (version c).

Definition cachedNodeChildrenSize : Z := 48.

(** [len(n.children)], zero for a nil map. *)
Definition children_len (c : cachedNode) : Z :=
  match children c with
  | Some m => Z.of_nat (size m)
  | None => 0
  end.

(** The keys of the explicit children map, in the order the embedding
    iterates them (Go leaves the order of a map range unspecified). *)
Definition children_keys (c : cachedNode) : list N :=
  match children c with
  | Some m => (map_to_list m).*1
  | None => []
  end.

(** [forChilds]: explicit children first, then the hash nodes inside the
    cached node unless it is a raw blob. *)
Definition forChilds (c : cachedNode) : option (list N) :=
  if is_rawNode (cnode c) then Some (children_keys c)
  else match forGatherChildren (cnode c) with
       | Some l => Some (children_keys c ++ l)
       | None => None
       end.

(** ** The disk store and its batches *)

(** Keys of the disk store: a trie node lives under its raw hash, a
    preimage under a prefixed key. *)
Inductive keyspace := TrieNodeKey | PreimageKey.

Global Instance keyspace_eq_dec : EqDecision keyspace.
Proof. solve_decision. Defined.

Global Instance keyspace_countable : Countable keyspace.
Proof.
  refine (inj_countable' (fun k => match k with TrieNodeKey => false | PreimageKey => true end)
                         (fun b => if b then PreimageKey else TrieNodeKey) _).
  by intros [].
Defined.

Abbreviation dbkey := (keyspace * N)%type (only parsing).

(** The persistent store.  [write_faults] is the environment's say on the
    coming batch writes: [true] makes the next [Write] fail. *)
Record Disk : Type := mkDisk {
  kv : gmap (keyspace * N) bytes;
  write_faults : list bool
}.

Inductive batchop :=
| BPut (k : keyspace * N) (v : bytes)
| BDelete (k : keyspace * N).

(** A write batch: the buffered operations in write order. *)
Abbreviation Batch := (list batchop) (only parsing).

(** Modelled from the spec: [ethdb.Batch.ValueSize], the amount of data
    queued up for writing (the value bytes of a put, one for a delete). *)
Definition ValueSize (b : list batchop) : Z :=
  fold_right (fun o acc => match o with BPut _ v => blen v + acc | BDelete _ => 1 + acc end) 0 b.

Definition apply_op (o : batchop) (m : gmap (keyspace * N) bytes) : gmap (keyspace * N) bytes :=
  match o with
  | BPut k v => <[k := v]> m
  | BDelete k => delete k m
  end.

Definition apply_batch (b : list batchop) (m : gmap (keyspace * N) bytes) : gmap (keyspace * N) bytes :=
  fold_left (fun m o => apply_op o m) b m.

Inductive error := ErrNotFound | ErrWrite.

(** [rawdb.WriteTrieNode] and [rawdb.WritePreimages] append puts. *)
Definition WriteTrieNode (b : list batchop) (h : N) (enc : bytes) : list batchop :=
  b ++ [BPut (TrieNodeKey, h) enc].

Definition WritePreimages (b : list batchop) (p : gmap N bytes) : list batchop :=
  b ++ map (fun kv => BPut (PreimageKey, kv.1) kv.2) (map_to_list p).

(** ** The database *)

(** [sync.RWMutex] as one thread sees it. *)
Record RWMutex : Type := mkRWMutex {
  writer : bool;
  readers : nat
}.

Definition unlocked : RWMutex := mkRWMutex false 0.

Record Database : Type := mkDatabase {
  diskdb : Disk;
  freshNodes : gset N;
  cleans : option (gmap N bytes);         (* *fastcache.Cache, possibly nil *)
  dirties : gmap N cachedNode;
  oldest : N;
  newest : N;
  nodeVersion : Z;                         (* uint64 *)
  useless : list (gset N);
  preimages : option (gmap N bytes);
  dirtiesSize : Z;
  childrenSize : Z;
  preimagesSize : Z;
  lock : RWMutex
}.

Definition set_diskdb (x : Disk) (d : Database) : Database :=
  mkDatabase x (freshNodes d) (cleans d) (dirties d) (oldest d) (newest d) (nodeVersion d)
    (useless d) (preimages d) (dirtiesSize d) (childrenSize d) (preimagesSize d) (lock d).
Definition set_freshNodes (x : gset N) (d : Database) : Database :=
  mkDatabase (diskdb d) x (cleans d) (dirties d) (oldest d) (newest d) (nodeVersion d)
    (useless d) (preimages d) (dirtiesSize d) (childrenSize d) (preimagesSize d) (lock d).
Definition set_cleans (x : option (gmap N bytes)) (d : Database) : Database :=
  mkDatabase (diskdb d) (freshNodes d) x (dirties d) (oldest d) (newest d) (nodeVersion d)
    (useless d) (preimages d) (dirtiesSize d) (childrenSize d) (preimagesSize d) (lock d).
Definition set_dirties (x : gmap N cachedNode) (d : Database) : Database :=
  mkDatabase (diskdb d) (freshNodes d) (cleans d) x (oldest d) (newest d) (nodeVersion d)
    (useless d) (preimages d) (dirtiesSize d) (childrenSize d) (preimagesSize d) (lock d).
Definition set_oldest (x : N) (d : Database) : Database :=
  mkDatabase (diskdb d) (freshNodes d) (cleans d) (dirties d) x (newest d) (nodeVersion d)
    (useless d) (preimages d) (dirtiesSize d) (childrenSize d) (preimagesSize d) (lock d).
Definition set_newest (x : N) (d : Database) : Database :=
  mkDatabase (diskdb d) (freshNodes d) (cleans d) (dirties d) (oldest d) x (nodeVersion d)
    (useless d) (preimages d) (dirtiesSize d) (childrenSize d) (preimagesSize d) (lock d).
Definition set_nodeVersion (x : Z) (d : Database) : Database :=
  mkDatabase (diskdb d) (freshNodes d) (cleans d) (dirties d) (oldest d) (newest d) x
    (useless d) (preimages d) (dirtiesSize d) (childrenSize d) (preimagesSize d) (lock d).
Definition set_useless (x : list (gset N)) (d : Database) : Database :=
  mkDatabase (diskdb d) (freshNodes d) (cleans d) (dirties d) (oldest d) (newest d) (nodeVersion d)
    x (preimages d) (dirtiesSize d) (childrenSize d) (preimagesSize d) (lock d).
Definition set_preimages (x : option (gmap N bytes)) (d : Database) : Database :=
  mkDatabase (diskdb d) (freshNodes d) (cleans d) (dirties d) (oldest d) (newest d) (nodeVersion d)
    (useless d) x (dirtiesSize d) (childrenSize d) (preimagesSize d) (lock d).
Definition set_dirtiesSize (x : Z) (d : Database) : Database :=
  mkDatabase (diskdb d) (freshNodes d) (cleans d) (dirties d) (oldest d) (newest d) (nodeVersion d)
    (useless d) (preimages d) x (childrenSize d) (preimagesSize d) (lock d).
Definition set_childrenSize (x : Z) (d : Database) : Database :=
  mkDatabase (diskdb d) (freshNodes d) (cleans d) (dirties d) (oldest d) (newest d) (nodeVersion d)
    (useless d) (preimages d) (dirtiesSize d) x (preimagesSize d) (lock d).
Definition set_preimagesSize (x : Z) (d : Database) : Database :=
  mkDatabase (diskdb d) (freshNodes d) (cleans d) (dirties d) (oldest d) (newest d) (nodeVersion d)
    (useless d) (preimages d) (dirtiesSize d) (childrenSize d) x (lock d).
Definition set_lock (x : RWMutex) (d : Database) : Database :=
  mkDatabase (diskdb d) (freshNodes d) (cleans d) (dirties d) (oldest d) (newest d) (nodeVersion d)
    (useless d) (preimages d) (dirtiesSize d) (childrenSize d) (preimagesSize d) x.
(** ** The monad of database operations *)

Inductive fault :=
| NilDereference      (* a field of a nil *cachedNode is read or written *)
| UnknownNodeType     (* panic of simplifyNode / forGatherChildren *)
| NotImplemented      (* panic of cleaner.Delete *)
| RUnlockOfUnlocked   (* fatal error: sync: RUnlock of unlocked RWMutex *)
| UnlockOfUnlocked    (* fatal error: sync: Unlock of unlocked RWMutex *)
| Deadlock            (* the only thread waits for a lock it cannot get *)
| OutOfFuel.          (* the recursion is deeper than the embedding follows *)

Inductive result (A : Type) : Type :=
| Ok (a : A) (db : Database)
| Abort (f : fault).
Arguments Ok {A} a db.
Arguments Abort {A} f.

Definition M (A : Type) : Type := Database -> result A.

Definition ret {A} (a : A) : M A := fun db => Ok a db.
Definition bind {A B} (m : M A) (k : A -> M B) : M B :=
  fun db => match m db with
            | Ok a db' => k a db'
            | Abort f => Abort f
            end.
Definition get : M Database := fun db => Ok db db.
Definition modify (f : Database -> Database) : M unit := fun db => Ok tt (f db).
Definition abort {A} (f : fault) : M A := fun _ => Abort f.

Notation "'let*' x ':=' m 'in' k" := (bind m (fun x => k))
  (at level 10, x name, m at level 100, k at level 200).
Notation "m '>>' k" := (bind m (fun _ => k))
  (at level 100, k at level 200, right associativity).

(** Sequential fold of an effectful callback over a list. *)
Fixpoint forEach {A} (f : A -> M unit) (l : list A) : M unit :=
  match l with
  | [] => ret tt
  | x :: r => f x >> forEach f r
  end.

(** [db.dirties[h]] used as a pointer that is dereferenced. *)
Definition deref (h : N) : M cachedNode :=
  fun db => match dirties db !! h with
            | Some c => Ok c db
            | None => Abort NilDereference
            end.

(** Write through the pointer [db.dirties[h]]. *)
Definition update_node (h : N) (f : cachedNode -> cachedNode) : M unit :=
  let* c := deref h in
  modify (fun db => set_dirties (<[h := f c]> (dirties db)) db).

(** The mutex. *)
Definition Lock : M unit :=
  fun db => if writer (lock db) then Abort Deadlock
            else match readers (lock db) with
                 | O => Ok tt (set_lock (mkRWMutex true 0) db)
                 | S _ => Abort Deadlock
                 end.
Definition Unlock : M unit :=
  fun db => if writer (lock db) then Ok tt (set_lock (mkRWMutex false (readers (lock db))) db)
            else Abort UnlockOfUnlocked.
Definition RLock : M unit :=
  fun db => if writer (lock db) then Abort Deadlock
            else Ok tt (set_lock (mkRWMutex false (S (readers (lock db)))) db).
Definition RUnlock : M unit :=
  fun db => match readers (lock db) with
            | S r => Ok tt (set_lock (mkRWMutex (writer (lock db)) r) db)
            | O => Abort RUnlockOfUnlocked
            end.

(** The clean cache ([fastcache]); every call is guarded by [db.cleans != nil]
    at its call site.  [Get] with a nil destination yields nil for a
    missing key and for an empty value alike. *)
Definition cleans_Get (db : Database) (h : N) : option bytes :=
  match cleans db with
  | Some c => match c !! h with
              | Some (x :: r) => Some (x :: r)
              | _ => None
              end
  | None => None
  end.
Definition cleans_Set (h : N) (enc : bytes) : M unit :=
  modify (fun db => match cleans db with
                    | Some c => set_cleans (Some (<[h := enc]> c)) db
                    | None => db
                    end).
Definition cleans_Del (h : N) : M unit :=
  modify (fun db => match cleans db with
                    | Some c => set_cleans (Some (delete h c)) db
                    | None => db
                    end).

(** [batch.Write]: the environment decides whether the write fails; a
    failed write leaves the store as it was. *)
Definition batch_Write (b : list batchop) : M (option error) :=
  fun db =>
    let d := diskdb db in
    match write_faults d with
    | true :: r => Ok (Some ErrWrite) (set_diskdb (mkDisk (kv d) r) db)
    | false :: r => Ok None (set_diskdb (mkDisk (apply_batch b (kv d)) r) db)
    | [] => Ok None (set_diskdb (mkDisk (apply_batch b (kv d)) []) db)
    end.

Section Collaborators.

(** The RLP encoder of a collapsed node, the size of the [cachedNode]
    struct on the platform, and [ethdb.IdealBatchSize]. *)
Variable nodeToBytes : node -> bytes.
Variable cachedNodeSize : Z.
Variable IdealBatchSize : Z.

(** [cachedNode.rlp] *)
Definition rlp (c : cachedNode) : bytes :=
  match cnode c with
  | rawNode blob => blob
  | n => nodeToBytes n
  end.

(** [NewDatabaseWithConfig]: [cache] tells whether a clean cache is
    configured ([config != nil && config.Cache > 0]), [pre] whether
    preimages are recorded ([config == nil || config.Preimages]). *)
Definition NewDatabaseWithConfig (disk : Disk) (cache pre : bool) : Database :=
  {| diskdb := disk;
     freshNodes := ∅;
     cleans := if cache then Some ∅ else None;
     dirties := {[ zeroHash := mkCachedNode nilNode 0 0 (Some ∅) zeroHash zeroHash 0 ]};
     oldest := zeroHash;
     newest := zeroHash;
     nodeVersion := 0;
     useless := [];
     preimages := if pre then Some ∅ else None;
     dirtiesSize := 0;
     childrenSize := 0;
     preimagesSize := 0;
     lock := unlocked |}.

(** [NewDatabase]: nil config. *)
Definition NewDatabase (disk : Disk) : Database :=
  NewDatabaseWithConfig disk false true.

Definition NodeVersion (db : Database) : Z := nodeVersion db.

Definition IncrVersion : M unit :=
  modify (fun db => set_nodeVersion (u64 (nodeVersion db + 1)) db).

Definition insertFreshNode (hash : N) : M unit :=
  modify (fun db => set_freshNodes ({[hash]} ∪ freshNodes db) db).

Definition resetFreshNode : M unit :=
  modify (set_freshNodes ∅).

(** [Database.insert] *)
Definition insert (hash : N) (size : Z) (n : node) : M unit :=
  let* db := get in
  match dirties db !! hash with
  | Some _ => ret tt
  | None =>
      match simplifyNode n with
      | None => abort UnknownNodeType
      | Some sn =>
          let entry := mkCachedNode sn (u16 size) 0 None (newest db) zeroHash (NodeVersion db) in
          modify (fun db => set_dirties (<[hash := entry]> (dirties db)) db) >>
          (if decide (oldest db = zeroHash)
           then modify (fun db => set_newest hash (set_oldest hash db))
           else update_node (newest db) (set_flushNext hash) >>
                modify (set_newest hash)) >>
          modify (fun db => set_dirtiesSize (dirtiesSize db + u16 (HashLength + csize entry)) db)
      end
  end.

(** [Database.reference] *)
Definition reference (child parent : N) : M unit :=
  let* db := get in
  match dirties db !! child with
  | None => ret tt
  | Some _ =>
      let* p := deref parent in
      let* proceed :=
        match children p with
        | None =>
            update_node parent (set_children (Some ∅)) >>
            modify (fun db => set_childrenSize (childrenSize db + cachedNodeChildrenSize) db) >>
            ret true
        | Some m =>
            if bool_decide (is_Some (m !! child)) && negb (bool_decide (parent = zeroHash))
            then ret false else ret true
        end in
      if proceed : bool then
        update_node child (fun c => set_parents (u32 (parents c + 1)) c) >>
        update_node parent (fun c =>
          set_children (Some (<[child := u16 (default 0 (default ∅ (children c) !! child) + 1)]>
                                (default ∅ (children c)))) c) >>
        let* p' := deref parent in
        if decide (default 0 (default ∅ (children p') !! child) = 1)
        then modify (fun db => set_childrenSize (childrenSize db + (HashLength + 2)) db)
        else ret tt
      else ret tt
  end.

(** [Database.Reference] *)
Definition Reference (child parent : N) : M unit :=
  Lock >> reference child parent >> Unlock.


(** [Database.insertPreimage] *)
Definition insertPreimage (hash : N) (preimage : bytes) : M unit :=
  let* db := get in
  match preimages db with
  | None => ret tt
  | Some p =>
      match p !! hash with
      | Some _ => ret tt
      | None =>
          modify (fun db =>
            set_preimagesSize (preimagesSize db + (HashLength + blen preimage))
              (set_preimages (Some (<[hash := preimage]> p)) db))
      end
  end.

(** [rawdb.ReadTrieNode]: the stored blob, nil when the read fails. *)
Definition ReadTrieNode (d : Disk) (hash : N) : bytes :=
  default [] (kv d !! (TrieNodeKey, hash)).

(** [Database.Node]: the encoded node and the error. *)
Definition Node (hash : N) : M (bytes * option error) :=
  if decide (hash = zeroHash) then ret ([], Some ErrNotFound)
  else
    let* db := get in
    match cleans_Get db hash with
    | Some enc => ret (enc, None)
    | None =>
        RLock >>
        let* db := get in
        let dirty := dirties db !! hash in
        RUnlock >>
        match dirty with
        | Some d => ret (rlp d, None)
        | None =>
            let enc := ReadTrieNode (diskdb db) hash in
            if decide (blen enc ≠ 0)
            then cleans_Set hash enc >> ret (enc, None)
            else ret ([], Some ErrNotFound)
        end
    end.

(** Sequential fold of a callback that threads a value. *)
Fixpoint foldM {A S} (f : A -> S -> M S) (l : list A) (s : S) : M S :=
  match l with
  | [] => ret s
  | x :: r => let* s' := f x s in foldM f r s'
  end.

(** [Database.referenceVersion]; the fuel bounds the depth of the descent. *)
Fixpoint referenceVersion (fuel : nat) (hash : N) : M unit :=
  match fuel with
  | O => abort OutOfFuel
  | S fuel' =>
      let* db := get in
      match dirties db !! hash with
      | None => ret tt
      | Some node =>
          match forChilds node with
          | None => abort UnknownNodeType
          | Some cs =>
              forEach (referenceVersion fuel') cs >>
              let* db := get in
              update_node hash (set_version (NodeVersion db))
          end
      end
  end.

(** [Database.ReferenceVersion] (it takes the read lock). *)
Definition ReferenceVersion (root : N) : M unit :=
  let* db := get in
  RLock >> referenceVersion (S (size (dirties db))) root >> RUnlock.

(** The switch that takes a node out of the flush-list, as it stands in
    [dereference] and in [cleaner.Put]. *)
Definition unlink (hash : N) (node : cachedNode) : M unit :=
  let* db := get in
  if decide (hash = oldest db) then
    modify (set_oldest (flushNext node)) >>
    update_node (flushNext node) (set_flushPrev zeroHash)
  else if decide (hash = newest db) then
    modify (set_newest (flushPrev node)) >>
    update_node (flushPrev node) (set_flushNext zeroHash)
  else
    update_node (flushPrev node) (set_flushNext (flushNext node)) >>
    update_node (flushNext node) (set_flushPrev (flushPrev node)).

(** The two closures handed to [dereference]: [cleanFn] of [Dereference]
    and [clearFn] of [DereferenceDB]; the latter also records the hash in
    its local [useless] map, which is threaded as the accumulator. *)
Inductive clearFn := cleanFn | uselessFn.

Definition run_clearFn (f : clearFn) (hash : N) (acc : gset N) : M (gset N) :=
  match f with
  | cleanFn => cleans_Del hash >> ret acc
  | uselessFn => cleans_Del hash >> ret ({[hash]} ∪ acc)
  end.

(** [Database.dereference].  The callback state [s] carries the local
    [useless] map of the closure and the time budget: the deadline test
    [start.Add(DereferenceTimeLimit).Before(time.Now())] finds the budget
    spent when the second component is zero, and otherwise passes and uses
    up one unit of it (the clock only moves forward: once a test finds the
    deadline passed, so does every later one).  No descent is deeper than
    the budget it starts with, which bounds the fuel. *)
Fixpoint dereference (fuel : nat) (hash : N) (clear : option clearFn) (s : gset N * nat)
  : M (gset N * nat) :=
  match fuel with
  | O => abort OutOfFuel
  | S fuel' =>
      let* db := get in
      if decide (hash ∈ freshNodes db) then ret s
      else
        match dirties db !! hash with
        | None => ret s
        | Some node =>
            match s.2 with
            | O => ret s
            | S t =>
                if decide (version node < NodeVersion db) then
                  unlink hash node >>
                  match forChilds node with
                  | None => abort UnknownNodeType
                  | Some cs =>
                      let* s' := foldM (fun h a => dereference fuel' h clear a) cs (s.1, t) in
                      modify (fun db => set_dirties (delete hash (dirties db)) db) >>
                      let* acc :=
                        match clear with
                        | Some f =>
                            if is_rawNode (cnode node) then ret s'.1
                            else run_clearFn f hash s'.1
                        | None => ret s'.1
                        end in
                      modify (fun db =>
                        set_dirtiesSize (dirtiesSize db - (HashLength + csize node)) db) >>
                      (match children node with
                       | Some _ =>
                           modify (fun db =>
                             set_childrenSize (childrenSize db - cachedNodeChildrenSize) db)
                       | None => ret tt
                       end) >>
                      ret (acc, s'.2)
                  end
                else ret (s.1, t)
            end
        end
  end.

(** [Database.Dereference]; [budget] is the environment's choice of how
    many deadline tests pass before the 300ms are over. *)
Definition Dereference (root : N) (budget : nat) : M unit :=
  if decide (root = zeroHash) then ret tt
  else
    Lock >>
    dereference (S budget) root (Some cleanFn) (∅, budget) >>
    Unlock.

(** [Database.DereferenceDB] *)
Definition DereferenceDB (root : N) (budget : nat) : M unit :=
  if decide (root = zeroHash) then ret tt
  else
    Lock >>
    let* s := dereference (S budget) root (Some uselessFn) (∅, budget) in
    Unlock >>
    modify (fun db => set_useless (useless db ++ [s.1]) db).

(** [cleaner.Put]; the key is turned back into a hash with
    [common.BytesToHash], which keeps its last 32 bytes. *)
Definition cleaner_Put (uncache : bool) (key : keyspace * N) (enc : bytes) : M (option error) :=
  let hash := key.2 in
  let* db := get in
  let* continue :=
    if uncache then
      match dirties db !! hash with
      | None => ret false
      | Some node =>
          unlink hash node >>
          modify (fun db => set_dirties (delete hash (dirties db)) db) >>
          modify (fun db => set_dirtiesSize (dirtiesSize db - (HashLength + csize node)) db) >>
          (match children node with
           | Some _ =>
               modify (fun db =>
                 set_dirtiesSize
                   (dirtiesSize db
                    - (cachedNodeChildrenSize + children_len node * (HashLength + 2))) db)
           | None => ret tt
           end) >>
          ret true
      end
    else ret true in
  if continue : bool then cleans_Set hash enc >> ret None
  else ret None.

(** [batch.Replay(uncacher)]: one [Put] per buffered put, in write order. *)
Fixpoint Replay (uncache : bool) (b : list batchop) : M unit :=
  match b with
  | [] => ret tt
  | BPut k v :: r => cleaner_Put uncache k v >> Replay uncache r
  | BDelete _ :: _ => abort NotImplemented
  end.

(** [Database.commit]; the batch is the shared write buffer, returned with
    the error. *)
Fixpoint commit (fuel : nat) (uncache : bool) (hash : N) (batch : list batchop)
  : M (option error * list batchop) :=
  match fuel with
  | O => abort OutOfFuel
  | S fuel' =>
      let* db := get in
      if decide (hash ∈ freshNodes db) then
        match dirties db !! hash with
        | None => ret (None, batch)
        | Some node =>
            match forChilds node with
            | None => abort UnknownNodeType
            | Some cs =>
                let* r := foldM (fun child (s : option error * list batchop) =>
                                   match s.1 with
                                   | None => commit fuel' uncache child s.2
                                   | Some _ => ret s
                                   end) cs (None, batch) in
                match r.1 with
                | Some e => ret (Some e, r.2)
                | None =>
                    let b := WriteTrieNode r.2 hash (rlp node) in
                    if decide (ValueSize b >= IdealBatchSize) then
                      let* w := batch_Write b in
                      match w with
                      | Some e => ret (Some e, b)
                      | None => Lock >> Replay uncache b >> Unlock >> ret (None, [])
                      end
                    else ret (None, b)
                end
            end
        end
      else ret (None, batch)
  end.

(** [Database.Commit] *)
Definition Commit (root : N) (report uncache : bool) : M (option error) :=
  let* db := get in
  let* pre :=
    match preimages db with
    | Some p =>
        let b := WritePreimages [] p in
        let* r :=
          if decide (ValueSize b > IdealBatchSize) then
            let* w := batch_Write b in
            match w with
            | Some e => ret (Some e, b)
            | None => ret (None, [])
            end
          else ret (None, b) in
        match r.1 with
        | Some e => ret (Some e)
        | None => batch_Write r.2
        end
    | None => ret None
    end in
  match pre with
  | Some e => ret (Some e)
  | None =>
      let* db := get in
      let* r := commit (S (size (dirties db))) uncache root [] in
      match r.1 with
      | Some e => ret (Some e)
      | None =>
          let* w := batch_Write r.2 in
          match w with
          | Some e => ret (Some e)
          | None =>
              Lock >>
              Replay uncache r.2 >>
              modify (fun db =>
                match preimages db with
                | Some _ => set_preimagesSize 0 (set_preimages (Some ∅) db)
                | None => db
                end) >>
              resetFreshNode >>
              Unlock >>
              ret None
          end
      end
  end.

(** The first loop of [Cap]: push the oldest nodes into the batch until the
    size is below the limit.  It yields the error of a failed write, or the
    hash it stopped at with the batch still to be written. *)
Fixpoint Cap_scan (fuel : nat) (limit total : Z) (oldest : N) (batch : list batchop)
  : M (error + N * list batchop) :=
  match fuel with
  | O => abort OutOfFuel
  | S fuel' =>
      if decide (total > limit ∧ oldest ≠ zeroHash) then
        let* node := deref oldest in
        let batch := WriteTrieNode batch oldest (rlp node) in
        let* r :=
          if decide (ValueSize batch >= IdealBatchSize) then
            let* w := batch_Write batch in
            match w with
            | Some e => RUnlock >> ret (inl e)
            | None => ret (inr [])
            end
          else ret (inr batch) in
        match r with
        | inl e => ret (inl e)
        | inr batch =>
            let total := total - (HashLength + csize node + cachedNodeSize) in
            let total :=
              match children node with
              | Some _ => total - (cachedNodeChildrenSize + children_len node * (HashLength + 2))
              | None => total
              end in
            Cap_scan fuel' limit total (flushNext node) batch
        end
      else ret (inr (oldest, batch))
  end.

(** The second loop of [Cap]: drop the flushed nodes. *)
Fixpoint Cap_evict (fuel : nat) (stop : N) : M unit :=
  match fuel with
  | O => abort OutOfFuel
  | S fuel' =>
      let* db := get in
      if decide (oldest db ≠ stop) then
        let* node := deref (oldest db) in
        modify (fun db => set_oldest (flushNext node)
                            (set_dirties (delete (oldest db) (dirties db)) db)) >>
        modify (fun db => set_dirtiesSize (dirtiesSize db - (HashLength + csize node)) db) >>
        (match children node with
         | Some _ =>
             modify (fun db =>
               set_childrenSize
                 (childrenSize db
                  - (cachedNodeChildrenSize + children_len node * (HashLength + 2))) db)
         | None => ret tt
         end) >>
        Cap_evict fuel' stop
      else ret tt
  end.

(** [Database.Cap] *)
Definition Cap (limit : Z) : M (option error) :=
  let* db := get in
  let* meta := deref zeroHash in
  let total := dirtiesSize db + (Z.of_nat (size (dirties db)) - 1) * cachedNodeSize in
  let total := total + (childrenSize db - children_len meta * (HashLength + 2)) in
  let flushPreimages := bool_decide (preimagesSize db > 4 * 1024 * 1024) in
  let* pre :=
    match flushPreimages, preimages db with
    | true, Some p =>
        let b := WritePreimages [] p in
        if decide (ValueSize b > IdealBatchSize) then
          let* w := batch_Write b in
          match w with
          | Some e => ret (inl e)
          | None => ret (inr [])
          end
        else ret (inr b)
    | _, _ => ret (inr [])
    end in
  match pre with
  | inl e => ret (Some e)
  | inr batch =>
      let* r := Cap_scan (S (size (dirties db))) limit total (oldest db) batch in
      match r with
      | inl e => ret (Some e)
      | inr (stop, batch) =>
          let* w := batch_Write batch in
          match w with
          | Some e => ret (Some e)
          | None =>
              Lock >>
              (if flushPreimages then
                 modify (fun db =>
                   match preimages db with
                   | Some _ => set_preimagesSize 0 (set_preimages (Some ∅) db)
                   | None => db
                   end)
               else ret tt) >>
              let* db := get in
              Cap_evict (S (size (dirties db))) stop >>
              let* db := get in
              (if decide (oldest db ≠ zeroHash)
               then update_node (oldest db) (set_flushPrev zeroHash)
               else ret tt) >>
              Unlock >>
              ret None
          end
      end
  end.


(** ** Notions the properties are stated with *)

(** [n.children[child]] as Go reads it: zero for a missing key or a nil map. *)
Definition edge_count (c : cachedNode) (child : N) : Z :=
  default 0 (default ∅ (children c) !! child).

(** The sum of [HashLength + size] over the Node Store, the meta-root left out. *)
Definition dirties_sum (db : Database) : Z :=
  map_fold (fun k c acc => if decide (k = zeroHash) then acc else acc + (HashLength + csize c))
           0 (dirties db).

(** The blob the clean cache holds for a hash, if there is a cache. *)
Definition cleans_lookup (db : Database) (h : N) : option bytes :=
  match cleans db with
  | Some c => c !! h
  | None => None
  end.

(** ** Reasoning about computations *)

(** [outcome F m db Q]: run on [db], the computation [m] either returns a
    value and a database that satisfy [Q], or stops with a fault that
    satisfies [F]. *)
Definition outcome {A} (F : fault -> Prop) (m : M A) (db : Database)
    (Q : A -> Database -> Prop) : Prop :=
  match m db with
  | Ok a db' => Q a db'
  | Abort f => F f
  end.

(** [post m db Q]: the computation returns, and [Q] holds of the result. *)
Abbreviation post := (outcome (fun _ => False)).

Lemma outcome_ret {A} F (a : A) db (Q : A -> Database -> Prop) :
  Q a db -> outcome F (ret a) db Q.
Proof. done. Qed.

Lemma outcome_bind {A B} F (m : M A) (k : A -> M B) db (Q : B -> Database -> Prop) :
  outcome F m db (fun a db' => outcome F (k a) db' Q) -> outcome F (bind m k) db Q.
Proof. unfold outcome, bind. by destruct (m db). Qed.

Lemma outcome_mono {A} (F F' : fault -> Prop) (m : M A) db (Q Q' : A -> Database -> Prop) :
  outcome F m db Q ->
  (forall a db', Q a db' -> Q' a db') -> (forall f, F f -> F' f) ->
  outcome F' m db Q'.
Proof. unfold outcome. destruct (m db); eauto. Qed.

Lemma outcome_post {A} F (m : M A) db (Q : A -> Database -> Prop) :
  post m db Q -> outcome F m db Q.
Proof. intros H. eapply outcome_mono; [exact H | done | done]. Qed.

Lemma post_elim {A} (m : M A) db (Q : A -> Database -> Prop) :
  post m db Q -> exists a db', m db = Ok a db' /\ Q a db'.
Proof. unfold outcome. destruct (m db); [eauto | done]. Qed.

Lemma outcome_intro {A} F (m : M A) db a db' (Q : A -> Database -> Prop) :
  m db = Ok a db' -> Q a db' -> outcome F m db Q.
Proof. unfold outcome. by intros ->. Qed.

Lemma outcome_ok {A} F (m : M A) db a db' (Q : A -> Database -> Prop) :
  outcome F m db Q -> m db = Ok a db' -> Q a db'.
Proof. unfold outcome. intros H E. by rewrite E in H. Qed.

Lemma outcome_get F db (Q : Database -> Database -> Prop) :
  Q db db -> outcome F get db Q.
Proof. done. Qed.

Lemma outcome_modify F f db (Q : unit -> Database -> Prop) :
  Q tt (f db) -> outcome F (modify f) db Q.
Proof. done. Qed.

Lemma outcome_deref F h c db (Q : cachedNode -> Database -> Prop) :
  dirties db !! h = Some c -> Q c db -> outcome F (deref h) db Q.
Proof. unfold outcome, deref. by intros ->. Qed.

Lemma outcome_update_node F h f c db (Q : unit -> Database -> Prop) :
  dirties db !! h = Some c ->
  Q tt (set_dirties (<[h := f c]> (dirties db)) db) ->
  outcome F (update_node h f) db Q.
Proof. unfold outcome, update_node, bind, deref, modify. by intros ->. Qed.

(** Unfold the plumbing of the monad and simplify map lookups. *)
Ltac munfold := cbv [bind ret get modify abort deref update_node].

Ltac map_simpl :=
  repeat first
    [ rewrite lookup_insert_eq
    | rewrite lookup_insert_ne by (done || congruence)
    | rewrite lookup_delete_eq
    | rewrite lookup_delete_ne by (done || congruence)
    | progress simpl ].

(** ** Deduplication on insert *)

(** C9: inserting a hash that is already in the Node Store returns at once
    and leaves the whole database (Node Store, flush-list links, oldest and
    newest, dirtiesSize) as it was. *)
Theorem insert_present_is_noop (hash : N) (size : Z) (n : node) (db : Database) (c : cachedNode) :
  dirties db !! hash = Some c ->
  insert hash size n db = Ok tt db.
Proof.
  intros H. unfold insert. munfold. by rewrite H.
Qed.

(** ** Reference tracking *)

(** C6, as the code has it: [reference child parent] leaves the database
    as it is when the child is not in the Node Store, and when the parent
    is not the meta-root and already lists the child; under the meta-root,
    with the child and the meta-root in the Node Store, every call,
    duplicates included, adds one to [children[child]] modulo 2^16 (the
    counter is a uint16) and one to the child's [parents] modulo 2^32 (a
    uint32). *)
Theorem reference_cases (child parent : N) (db : Database) :
  (dirties db !! child = None -> reference child parent db = Ok tt db) /\
  (forall p m, parent <> zeroHash -> dirties db !! parent = Some p ->
     children p = Some m -> is_Some (m !! child) ->
     reference child parent db = Ok tt db) /\
  (forall c r, dirties db !! child = Some c -> dirties db !! zeroHash = Some r ->
     exists db', reference child zeroHash db = Ok tt db' /\
       (exists r', dirties db' !! zeroHash = Some r' /\
                   edge_count r' child = u16 (edge_count r child + 1)) /\
       (exists c', dirties db' !! child = Some c' /\
                   parents c' = u32 (parents c + 1))).
Proof.
  split; [|split].
  - intros H. unfold reference. munfold. by rewrite H.
  - intros p m Hp Hd Hc Hm. unfold reference. munfold.
    destruct (dirties db !! child); [|done].
    rewrite Hd, Hc.
    by rewrite (bool_decide_eq_true_2 _ Hm), (bool_decide_eq_false_2 _ Hp).
  - intros c r Hc Hr. unfold reference, edge_count. munfold. rewrite Hc, Hr.
    destruct (decide (child = zeroHash)) as [->|Hne].
    + assert (c = r) by congruence; subst c.
      destruct (children r) as [m|] eqn:Em; simpl;
        rewrite ?bool_decide_eq_true_2, ?andb_false_r by done; simpl.
      all: repeat first [rewrite Hr | rewrite Em | progress map_simpl].
      all: try destruct (decide (_ = 1)); simpl; (eexists; split; [reflexivity|]).
      all: repeat first [rewrite Em | progress map_simpl].
      all: split; eexists; (split; [reflexivity|]); by map_simpl.
    + assert (Hne' : zeroHash <> child) by congruence.
      destruct (children r) as [m|] eqn:Em; simpl;
        rewrite ?bool_decide_eq_true_2, ?andb_false_r by done; simpl.
      all: repeat first [rewrite Hc | rewrite Hr | rewrite Em | progress map_simpl].
      all: try destruct (decide (_ = 1)); simpl; (eexists; split; [reflexivity|]).
      all: repeat first [rewrite Em | progress map_simpl].
      all: split; eexists; (split; [reflexivity|]); by map_simpl.
Qed.

(** ** Lookup of encoded nodes *)

(** C10, as the code has it: [Node] of the zero hash answers "not found"
    whatever the database holds and leaves it alone; for any other hash,
    with the lock free, "not found" is the answer exactly when the clean
    cache has no non-empty blob for the hash, the Node Store has no entry
    for it and the disk has no non-empty blob for it (an empty blob reads as
    a miss). *)
Theorem Node_not_found (hash : N) (db : Database) :
  Node zeroHash db = Ok ([], Some ErrNotFound) db /\
  (hash <> zeroHash -> writer (lock db) = false ->
   ((exists enc db', Node hash db = Ok (enc, Some ErrNotFound) db') <->
    cleans_Get db hash = None /\ dirties db !! hash = None /\
    ReadTrieNode (diskdb db) hash = [])).
Proof.
  split; [done|].
  intros Hh Hw. unfold Node. destruct (decide (hash = zeroHash)); [done|].
  munfold. destruct (cleans_Get db hash) as [enc|] eqn:Ec.
  { split; [intros (? & ? & [=]) | intros ([=] & _)]. }
  unfold RLock, RUnlock. rewrite Hw. simpl.
  destruct (dirties db !! hash) as [d|] eqn:Ed.
  { split; [intros (? & ? & [=]) | intros (_ & [=] & _)]. }
  destruct (ReadTrieNode (diskdb db) hash) as [|x r] eqn:Er; simpl.
  - split; [done | intros _; eauto].
  - unfold cleans_Set. munfold.
    split; [intros (? & ? & [=]) | intros (_ & _ & [=])].
Qed.

(** ** The flush-list as a list *)

(** [seg d prev l nxt]: the hashes of [l] are entries of [d] linked in this
    order; the last one points forward to [nxt], and the first one points
    back to [prev] when a predecessor is named. *)
Fixpoint seg (d : gmap N cachedNode) (prev : option N) (l : list N) (nxt : N) : Prop :=
  match l with
  | [] => True
  | h :: r =>
      exists c, d !! h = Some c /\
                (forall p, prev = Some p -> flushPrev c = p) /\
                flushNext c = hd nxt r /\
                seg d (Some h) r nxt
  end.

(** [FL l P db]: the flush-list of [db] is [l]; the Node Store holds the
    meta-root, the hashes of [l] and the hashes of [P], the nodes already
    unlinked and about to be deleted. *)
Record FL (l : list N) (P : gset N) (db : Database) : Prop := mkFL {
  fl_nodup : NoDup l;
  fl_zero : zeroHash ∉ l;
  fl_pending : forall h, h ∈ P -> (h ∉ l) /\ h <> zeroHash;
  fl_keys : forall h, is_Some (dirties db !! h) <-> h = zeroHash \/ h ∈ l \/ h ∈ P;
  fl_seg : seg (dirties db) None l zeroHash;
  fl_oldest : oldest db = hd zeroHash l;
  fl_newest : forall x, last l = Some x -> newest db = x
}.

(** What a cached node carries besides its flush-list links, and what the
    database holds besides the Node Store and the ends of the flush-list. *)
Definition payload (c : cachedNode) : node * Z * Z * option (gmap N Z) * Z :=
  (cnode c, csize c, parents c, children c, version c).

Definition rest (db : Database) :=
  (diskdb db, freshNodes db, cleans db, nodeVersion db, useless db, preimages db,
   dirtiesSize db, childrenSize db, preimagesSize db, lock db).

(** Only flush-list links differ between the two databases. *)
Definition links_only (db db' : Database) : Prop :=
  payload <$> dirties db' = payload <$> dirties db /\ rest db' = rest db.

Lemma seg_ext d d' prev l nxt :
  (forall h, h ∈ l -> d' !! h = d !! h) -> seg d prev l nxt -> seg d' prev l nxt.
Proof.
  revert prev. induction l as [|h r IH]; intros prev He; simpl; [done|].
  intros (c & Hc & Hp & Hn & Hs). exists c. split_and!; try done.
  - rewrite He; [done | left].
  - apply IH; [|done]. intros k Hk. apply He. by right.
Qed.

Lemma seg_prev_weaken d prev l nxt : seg d prev l nxt -> seg d None l nxt.
Proof.
  destruct l as [|h r]; simpl; [done|].
  intros (c & Hc & Hp & Hn & Hs). exists c. by split_and!.
Qed.

Lemma seg_app d prev l1 l2 nxt :
  seg d prev (l1 ++ l2) nxt <->
  seg d prev l1 (hd nxt l2) /\ seg d (from_option Some prev (last l1)) l2 nxt.
Proof.
  revert prev. induction l1 as [|h r IH]; intros prev; simpl.
  - tauto.
  - rewrite last_cons.
    assert (Hl : from_option Some (Some h) (last r)
                 = from_option Some prev (match last r with Some y => Some y | None => Some h end))
      by (by destruct (last r)).
    rewrite <- Hl.
    assert (Hh : hd nxt (r ++ l2) = hd (hd nxt l2) r) by (by destruct r).
    split.
    + intros (c & Hc & Hp & Hn & Hs). apply IH in Hs as [Hs1 Hs2]. split; [|done].
      exists c. split_and!; try done. by rewrite Hn.
    + intros [(c & Hc & Hp & Hn & Hs1) Hs2]. exists c. split_and!; try done.
      * by rewrite Hn.
      * apply IH. by split.
Qed.

Lemma seg_set_next_last d prev l a ca n n' :
  seg d prev (l ++ [a]) n -> a ∉ l -> d !! a = Some ca ->
  seg (<[a := set_flushNext n' ca]> d) prev (l ++ [a]) n'.
Proof.
  intros Hs Ha Hca. apply seg_app in Hs as [Hs1 Hs2]. apply seg_app. split.
  - eapply seg_ext; [|exact Hs1]. intros k Hk. rewrite lookup_insert_ne; [done|].
    intros ->. done.
  - simpl in *. destruct Hs2 as (c & Hc & Hp & _ & _).
    exists (set_flushNext n' ca). rewrite lookup_insert_eq. split_and!; try done.
    intros p Hpp. simpl. assert (c = ca) by congruence. subst. by apply Hp.
Qed.

Lemma seg_set_prev_head d prev prev' b l cb n p :
  seg d prev (b :: l) n -> b ∉ l -> d !! b = Some cb ->
  (forall q, prev' = Some q -> q = p) ->
  seg (<[b := set_flushPrev p cb]> d) prev' (b :: l) n.
Proof.
  intros Hs Hb Hcb Hq. simpl in *. destruct Hs as (c & Hc & _ & Hn & Hs).
  assert (c = cb) by congruence. subst c.
  exists (set_flushPrev p cb). rewrite lookup_insert_eq. split_and!; try done.
  - intros q Hq'. simpl. symmetry. by apply Hq.
  - eapply seg_ext; [|exact Hs]. intros k Hk. rewrite lookup_insert_ne; [done|].
    intros ->. done.
Qed.

Lemma seg_lookup d prev l nxt h :
  seg d prev l nxt -> h ∈ l -> is_Some (d !! h).
Proof.
  revert prev. induction l as [|x r IH]; intros prev; simpl; [by intros _ ?%elem_of_nil|].
  intros (c & Hc & _ & _ & Hs) [->|Hin]%elem_of_cons; [by eexists | by eapply IH].
Qed.

Lemma payload_insert_links (d : gmap N cachedNode) k c c' :
  d !! k = Some c -> payload c' = payload c ->
  payload <$> <[k := c']> d = payload <$> d.
Proof.
  intros Hk Hp. rewrite fmap_insert, Hp. apply insert_id. by rewrite lookup_fmap, Hk.
Qed.

Lemma is_Some_insert_present (d : gmap N cachedNode) k ck ck' x :
  d !! k = Some ck -> is_Some (<[k := ck']> d !! x) <-> is_Some (d !! x).
Proof.
  intros Hk. destruct (decide (k = x)) as [->|Hne].
  - rewrite lookup_insert_eq, Hk. split; eauto.
  - by rewrite lookup_insert_ne.
Qed.

Lemma unlink_FL l1 h l2 P db c :
  FL (l1 ++ h :: l2) P db -> dirties db !! h = Some c ->
  post (unlink h c) db (fun _ db' => FL (l1 ++ l2) ({[h]} ∪ P) db' /\ links_only db db').
Proof.
  intros [Hnd Hz Hpend Hkeys Hseg Hold Hnew] Hc.
  apply seg_app in Hseg as [Hs1 Hs2]. simpl in Hs2.
  destruct Hs2 as (c0 & Hc0 & Hprev & Hnext & Hs2).
  assert (c0 = c) by congruence. subst c0.
  apply NoDup_app in Hnd as (Hnd1 & Hnd12 & Hnd2).
  apply NoDup_cons in Hnd2 as [Hh2 Hnd2].
  assert (Hh1 : h ∉ l1).
  { intros Hin. apply (Hnd12 _ Hin). left. }
  assert (Hh0 : h <> zeroHash).
  { intros ->. apply Hz. apply elem_of_app. right. left. }
  assert (Hpend' : forall k, k ∈ ({[h]} ∪ P : gset N) -> (k ∉ l1 ++ l2) /\ k <> zeroHash).
  { intros k [Hk%elem_of_singleton|Hk]%elem_of_union.
    - subst k. split; [|done]. intros [?|?]%elem_of_app; done.
    - destruct (Hpend k Hk) as [Hnl ?]. split; [|done].
      intros [?|?]%elem_of_app; apply Hnl; apply elem_of_app; [by left | right; by right]. }
  assert (Hz' : zeroHash ∉ l1 ++ l2).
  { intros [?|?]%elem_of_app; apply Hz; apply elem_of_app; [by left | right; by right]. }
  assert (Hnd' : NoDup (l1 ++ l2)).
  { apply NoDup_app. split_and!; try done. intros k Hk1 Hk2. apply (Hnd12 k Hk1). by right. }
  assert (Hkeys' : forall d' : gmap N cachedNode,
            (forall k, is_Some (d' !! k) <-> is_Some (dirties db !! k)) ->
            forall k, is_Some (d' !! k) <-> k = zeroHash \/ k ∈ l1 ++ l2 \/ k ∈ ({[h]} ∪ P : gset N)).
  { intros d' Hd' k. rewrite Hd', Hkeys. rewrite !elem_of_app, elem_of_cons, elem_of_union, elem_of_singleton.
    tauto. }
  pose proof (@is_Some_insert_present (dirties db)) as Hins.
  unfold unlink. apply outcome_bind, outcome_get.
  destruct l1 as [|a l1' _] using rev_ind.
  - (* the node is the oldest *)
    simpl in *. rewrite decide_True by done.
    apply outcome_bind, outcome_modify.
    destruct l2 as [|b l2'].
    + simpl in Hnext. rewrite Hnext.
      destruct (proj2 (Hkeys zeroHash)) as [m Hm]; [by left|].
      eapply outcome_update_node; [exact Hm|]. split.
      * constructor; simpl; try done.
        apply Hkeys'. intros k. by eapply Hins.
      * split; simpl; [|done]. by eapply payload_insert_links.
    + simpl in Hnext. rewrite Hnext. simpl in Hs2.
      destruct Hs2 as (cb & Hcb & Hpb & Hnb & Hsb).
      eapply outcome_update_node; [exact Hcb|]. split.
      * constructor; simpl; try done.
        -- apply Hkeys'. intros k. by eapply Hins.
        -- apply NoDup_cons in Hnd2 as [Hb _].
           eapply (seg_set_prev_head _ (Some h)); [|done|done|done].
           simpl. exists cb. by split_and!.
      * split; simpl; [|done]. by eapply payload_insert_links.
  - (* the node has a predecessor [a] *)
    assert (Ha : last (l1' ++ [a]) = Some a) by apply last_snoc.
    assert (Hpa : flushPrev c = a) by (by apply Hprev; rewrite Ha).
    assert (Hold' : oldest db <> h).
    { rewrite Hold. intros E. apply Hh1. rewrite <- E.
      destruct l1'; simpl; left. }
    rewrite decide_False by done.
    assert (Hal : a ∉ l1').
    { apply NoDup_app in Hnd1 as (_ & Hd & _). intros Hin. apply (Hd _ Hin). left. }
    assert (Hca : is_Some (dirties db !! a)).
    { eapply seg_lookup; [exact Hs1|]. apply elem_of_app. right. left. }
    destruct Hca as [ca Hca].
    assert (Hah : a <> h).
    { intros ->. apply Hh1. apply elem_of_app. right. left. }
    destruct l2 as [|b l2'].
    + (* and it is the newest *)
      assert (Hn' : newest db = h) by (apply Hnew, last_snoc).
      rewrite decide_True by done.
      apply outcome_bind, outcome_modify. rewrite Hpa.
      eapply outcome_update_node; [exact Hca|]. rewrite app_nil_r in *. split.
      * constructor; simpl; try done.
        -- apply Hkeys'. intros k. by eapply Hins.
        -- simpl in Hnext. eapply seg_set_next_last; [exact Hs1| done | done].
        -- rewrite Hold. by destruct l1'.
        -- intros x Hx. congruence.
      * split; simpl; [|done]. by eapply payload_insert_links.
    + (* an interior node *)
      assert (Hl : last ((l1' ++ [a]) ++ h :: b :: l2') = last (b :: l2'))
        by (by rewrite last_app_cons, last_cons_cons).
      assert (Hn' : newest db <> h).
      { intros E. apply Hh2.
        destruct (last (b :: l2')) as [x|] eqn:Ex; [|by apply last_None in Ex].
        rewrite (Hnew x) in E by done. subst x.
        by apply last_Some_elem_of. }
      rewrite decide_False by done.
      simpl in Hnext. rewrite Hpa, Hnext. simpl in Hs2.
      destruct Hs2 as (cb & Hcb & Hpb & Hnb & Hsb).
      assert (Hab : a <> b).
      { intros ->. apply (Hnd12 b); [apply elem_of_app; right; left | right; left]. }
      apply outcome_bind. eapply outcome_update_node; [exact Hca|].
      eapply outcome_update_node; [simpl; rewrite lookup_insert_ne by done; exact Hcb|].
      apply NoDup_cons in Hnd2 as [Hb Hnd2].
      split.
      * constructor; simpl; try done.
        -- apply Hkeys'. intros k.
           rewrite (is_Some_insert_present _ b cb); [by eapply Hins|].
           rewrite lookup_insert_ne by done. done.
        -- apply seg_app. split.
           ++ eapply seg_ext; [|eapply seg_set_next_last; [exact Hs1|done|exact Hca]].
              intros k Hk. rewrite lookup_insert_ne; [done|]. intros E.
              apply (Hnd12 k Hk). rewrite <- E. right; left.
           ++ rewrite Ha. simpl.
              eapply (seg_set_prev_head _ (Some h)); [|done| |].
              ** eapply seg_ext; [|simpl; exists cb; split_and!; [exact Hcb|done|done|done]].
                 intros k Hk. rewrite lookup_insert_ne; [done|]. intros E.
                 apply (Hnd12 a); [apply elem_of_app; right; left | rewrite E; by right].
              ** rewrite lookup_insert_ne by done. done.
              ** by intros q [=].
        -- rewrite Hold. by destruct l1'.
        -- intros x Hx. apply Hnew. rewrite Hl. by rewrite last_app_cons in Hx.
      * split; simpl; [|done].
        rewrite (payload_insert_links _ b cb); [by eapply payload_insert_links | | done].
        rewrite lookup_insert_ne by done. done.
Qed.

Lemma outcome_update_node_any F h f db (Q : unit -> Database -> Prop) :
  (forall c, dirties db !! h = Some c ->
             Q tt (set_dirties (<[h := f c]> (dirties db)) db)) ->
  F NilDereference ->
  outcome F (update_node h f) db Q.
Proof.
  intros HQ HF. unfold outcome, update_node, bind, deref, modify.
  destruct (dirties db !! h); [by apply HQ | done].
Qed.

Lemma outcome_conj {A} F (m : M A) db (Q Q' : A -> Database -> Prop) :
  post m db Q -> outcome F m db Q' -> post m db (fun a d => Q a d /\ Q' a d).
Proof. unfold outcome. by destruct (m db). Qed.

Lemma links_only_refl db : links_only db db.
Proof. done. Qed.

Lemma links_only_trans db1 db2 db3 :
  links_only db1 db2 -> links_only db2 db3 -> links_only db1 db3.
Proof. intros [? ?] [? ?]. split; congruence. Qed.

Lemma links_only_update db k c c' :
  dirties db !! k = Some c -> payload c' = payload c ->
  links_only db (set_dirties (<[k := c']> (dirties db)) db).
Proof. intros Hk Hp. split; [simpl; by eapply payload_insert_links | done]. Qed.

(** Whatever the state of the list, [unlink] touches links only. *)
Lemma unlink_links_only F h c db :
  F NilDereference ->
  outcome F (unlink h c) db (fun _ db' => links_only db db').
Proof.
  intros HF. unfold unlink. apply outcome_bind, outcome_get.
  repeat case_decide.
  - apply outcome_bind, outcome_modify.
    apply outcome_update_node_any; [|done]. intros ck Hk.
    eapply links_only_trans; [|by apply (links_only_update _ _ ck)]. done.
  - apply outcome_bind, outcome_modify.
    apply outcome_update_node_any; [|done]. intros ck Hk.
    eapply links_only_trans; [|by apply (links_only_update _ _ ck)]. done.
  - apply outcome_bind.
    apply outcome_update_node_any; [|done]. intros ck Hk.
    apply outcome_update_node_any; [|done]. intros ck' Hk'.
    apply (links_only_trans _
             (set_dirties (<[flushPrev c := set_flushNext (flushNext c) ck]> (dirties db)) db)).
    + by apply (links_only_update db _ ck).
    + eapply (links_only_update _ _ ck'); [exact Hk'|done].
Qed.

Lemma links_only_lookup db db' k c' :
  links_only db db' -> dirties db' !! k = Some c' ->
  exists c, dirties db !! k = Some c /\ payload c = payload c'.
Proof.
  intros [Hp _] Hk.
  assert (H : (payload <$> dirties db) !! k = Some (payload c')).
  { rewrite <- Hp, lookup_fmap, Hk. done. }
  rewrite lookup_fmap in H. destruct (dirties db !! k) as [c|]; [|done].
  exists c. split; [done|]. simpl in H. congruence.
Qed.

Lemma links_only_lookup_r db db' k c :
  links_only db db' -> dirties db !! k = Some c ->
  exists c', dirties db' !! k = Some c' /\ payload c = payload c'.
Proof.
  intros [Hp _] Hk.
  assert (H : (payload <$> dirties db') !! k = Some (payload c)).
  { rewrite Hp, lookup_fmap, Hk. done. }
  rewrite lookup_fmap in H. destruct (dirties db' !! k) as [c'|]; [|done].
  exists c'. split; [done|]. simpl in H. congruence.
Qed.

Lemma links_only_None db db' k :
  links_only db db' -> dirties db !! k = None <-> dirties db' !! k = None.
Proof.
  intros [Hp _].
  assert (H : (payload <$> dirties db') !! k = (payload <$> dirties db) !! k) by (by rewrite Hp).
  rewrite !lookup_fmap in H.
  destruct (dirties db !! k), (dirties db' !! k); done.
Qed.

(** The invariant survives whatever leaves the Node Store and the two
    ends of the list alone. *)
Lemma FL_same l P db db' :
  dirties db' = dirties db -> oldest db' = oldest db -> newest db' = newest db ->
  FL l P db -> FL l P db'.
Proof.
  intros Hd Ho Hn [? ? ? ? ? ? ?]. constructor; rewrite ?Hd, ?Ho, ?Hn; done.
Qed.

Lemma FL_delete l P h db :
  FL l ({[h]} ∪ P) db -> h ∉ P ->
  FL l P (set_dirties (delete h (dirties db)) db).
Proof.
  intros [Hnd Hz Hpend Hkeys Hseg Hold Hnew] HhP.
  destruct (Hpend h) as [Hhl Hh0]; [apply elem_of_union; left; by apply elem_of_singleton|].
  constructor; simpl; try done.
  - intros k Hk. apply Hpend. apply elem_of_union. by right.
  - intros k. destruct (decide (h = k)) as [->|Hne].
    + rewrite lookup_delete_eq. split; [by intros [? ?]|].
      intros [?|[?|?]]; done.
    + rewrite lookup_delete_ne by done. rewrite Hkeys, elem_of_union, elem_of_singleton.
      intuition congruence.
  - eapply seg_ext; [|exact Hseg]. intros k Hk.
    rewrite lookup_delete_ne; [done|]. by intros ->.
Qed.

Lemma FL_present l P db h c :
  FL l P db -> dirties db !! h = Some c -> h <> zeroHash -> h ∉ P -> h ∈ l.
Proof.
  intros HFL Hc Hh HP. destruct (proj1 (fl_keys _ _ _ HFL h)) as [?|[?|?]]; by eauto.
Qed.

(** ** Frames *)

(** The fields no pruning, flushing of a node or uncaching touches. *)
Definition frame_core (db db' : Database) : Prop :=
  diskdb db' = diskdb db /\ freshNodes db' = freshNodes db /\
  nodeVersion db' = nodeVersion db /\ useless db' = useless db /\
  preimages db' = preimages db /\ preimagesSize db' = preimagesSize db /\
  lock db' = lock db.

(** Every entry of [db'] is an entry of [db] with the same payload. *)
Definition shape_sub (db db' : Database) : Prop :=
  forall k c', dirties db' !! k = Some c' ->
               exists c, dirties db !! k = Some c /\ payload c = payload c'.

Lemma frame_core_refl db : frame_core db db.
Proof. by repeat split. Qed.

Lemma frame_core_trans db1 db2 db3 :
  frame_core db1 db2 -> frame_core db2 db3 -> frame_core db1 db3.
Proof.
  intros (?&?&?&?&?&?&?) (?&?&?&?&?&?&?). repeat split; congruence.
Qed.

Lemma shape_sub_refl db : shape_sub db db.
Proof. intros k c Hc. by exists c. Qed.

Lemma shape_sub_trans db1 db2 db3 :
  shape_sub db1 db2 -> shape_sub db2 db3 -> shape_sub db1 db3.
Proof.
  intros H12 H23 k c3 Hc3. destruct (H23 _ _ Hc3) as (c2 & Hc2 & E2).
  destruct (H12 _ _ Hc2) as (c1 & Hc1 & E1). exists c1. split; congruence.
Qed.

Lemma links_only_shape_sub db db' : links_only db db' -> shape_sub db db'.
Proof. intros H k c' Hc'. by eapply links_only_lookup. Qed.

Lemma links_only_frame_core db db' : links_only db db' -> frame_core db db'.
Proof. intros [_ H]. unfold rest in H. repeat split; congruence. Qed.

Lemma shape_sub_delete db db' h :
  dirties db' = delete h (dirties db) -> shape_sub db db'.
Proof.
  intros E k c' Hc'. rewrite E in Hc'. apply lookup_delete_Some in Hc' as [_ Hc'].
  by exists c'.
Qed.

(** ** Uncaching a committed node *)

Lemma cleaner_Put_uncache l1 h l2 db c ks enc :
  FL (l1 ++ h :: l2) ∅ db -> dirties db !! h = Some c ->
  post (cleaner_Put true (ks, h) enc) db (fun r db' =>
    r = None /\ FL (l1 ++ l2) ∅ db' /\ dirties db' !! h = None /\
    shape_sub db db' /\
    (forall k, k <> h -> is_Some (dirties db !! k) -> is_Some (dirties db' !! k)) /\
    (children c = None -> dirtiesSize db' = dirtiesSize db - (HashLength + csize c)) /\
    cleans db' = (fun m => <[h := enc]> m) <$> cleans db /\
    childrenSize db' = childrenSize db /\ frame_core db db').
Proof.
  intros HFL Hc. unfold cleaner_Put. simpl.
  apply outcome_bind, outcome_get. rewrite Hc.
  apply outcome_bind. apply outcome_bind.
  eapply outcome_mono; [by apply unlink_FL| |done].
  intros [] db1 [HFL1 Hl1]. simpl.
  apply outcome_bind, outcome_modify.
  apply outcome_bind, outcome_modify.
  apply outcome_bind.
  assert (HFL2 : FL (l1 ++ l2) ∅ (set_dirties (delete h (dirties db1)) db1)).
  { apply FL_delete; [|apply not_elem_of_empty]. done. }
  assert (Hsub : shape_sub db (set_dirties (delete h (dirties db1)) db1)).
  { eapply shape_sub_trans; [by apply links_only_shape_sub|]. by eapply shape_sub_delete. }
  assert (Hpres : forall k, k <> h -> is_Some (dirties db !! k) ->
                            is_Some (delete h (dirties db1) !! k)).
  { intros k Hk [ck Hck]. rewrite lookup_delete_ne by done.
    destruct (links_only_lookup_r _ _ _ _ Hl1 Hck) as (c' & -> & _). by eexists. }
  pose proof (links_only_frame_core _ _ Hl1) as Hfr.
  destruct Hl1 as [_ Hrest]. unfold rest in Hrest.
  assert (Hcl : cleans db1 = cleans db) by congruence.
  assert (Hds : dirtiesSize db1 = dirtiesSize db) by congruence.
  assert (Hcs : childrenSize db1 = childrenSize db) by congruence.
  destruct (children c) eqn:Ech.
  - apply outcome_modify, outcome_ret. unfold cleans_Set.
    apply outcome_bind, outcome_modify, outcome_ret. simpl.
    destruct (cleans db1) as [m|] eqn:Em; simpl; rewrite <- Hcl;
      (split_and!; [done|by eapply FL_same; [| | |exact HFL2]|by rewrite lookup_delete_eq
                   |done|done|done|done|done|done]).
  - apply outcome_ret, outcome_ret. unfold cleans_Set.
    apply outcome_bind, outcome_modify, outcome_ret. simpl.
    destruct (cleans db1) as [m|] eqn:Em; simpl; rewrite <- Hcl;
      (split_and!; [done|by eapply FL_same; [| | |exact HFL2]|by rewrite lookup_delete_eq
                   |done|done|by intros _; rewrite Hds|done|done|done]).
Qed.

(** ** Well-founded child graphs *)

Section Ranked.

(** [rank] orders the hashes so that a node ranks above the hashes it
    embeds or references: content addressing leaves no cycle of hashes. *)
Variable rank : N -> nat.

(** Every resident node other than the meta-root enumerates its children
    without panic, and they are non-zero hashes of lower rank. *)
Definition G (db : Database) : Prop :=
  forall k c, dirties db !! k = Some c -> k <> zeroHash ->
    exists cs, forChilds c = Some cs /\
               forall x, x ∈ cs -> x <> zeroHash /\ (rank x < rank k)%nat.

Lemma G_sub db db' : G db -> shape_sub db db' -> G db'.
Proof.
  intros HG Hsub k c' Hc' Hk. destruct (Hsub _ _ Hc') as (c & Hc & Hp).
  destruct (HG _ _ Hc Hk) as (cs & Hcs & Hr). exists cs. split; [|done].
  unfold payload in Hp. unfold forChilds, children_keys in *.
  assert (cnode c' = cnode c) as -> by congruence.
  assert (children c' = children c) as -> by congruence. done.
Qed.

Lemma run_clearFn_spec f h acc db :
  post (run_clearFn f h acc) db (fun acc' db' =>
    exists m, db' = set_cleans m db /\
    (acc' = acc \/ acc' = {[h]} ∪ acc)).
Proof.
  destruct f; simpl; unfold cleans_Del; apply outcome_bind, outcome_modify, outcome_ret;
    (destruct (cleans db) eqn:E; eexists; split; [reflexivity|auto| |auto]);
    destruct db; simpl in *; by subst.
Qed.

(** What one call of [dereference] establishes, given the list. *)
Definition deref_post (h : N) (s : gset N * nat) (db : Database) (l : list N) (P : gset N)
    (s' : gset N * nat) (db' : Database) : Prop :=
  exists l', FL l' P db' /\ l' ⊆ l /\ shape_sub db db' /\ frame_core db db' /\
             (s'.2 <= s.2)%nat.

Lemma deref_post_refl h s db l P : FL l P db -> deref_post h s db l P s db.
Proof.
  intros H. exists l. split_and!; [done|done|apply shape_sub_refl|apply frame_core_refl|done].
Qed.

Lemma dereference_children fuel clear P :
  (forall h s db l, FL l P db -> G db -> h <> zeroHash ->
      (forall p, p ∈ P -> (rank h < rank p)%nat) -> (s.2 < fuel)%nat ->
      post (dereference fuel h clear s) db (deref_post h s db l P)) ->
  forall cs s db l, FL l P db -> G db ->
      (forall x, x ∈ cs -> x <> zeroHash /\ forall p, p ∈ P -> (rank x < rank p)%nat) ->
      (s.2 < fuel)%nat ->
      post (foldM (fun h a => dereference fuel h clear a) cs s) db (deref_post zeroHash s db l P).
Proof.
  intros IH cs. induction cs as [|x cs IHcs]; intros s db l HFL HG Hcs Hs; simpl.
  - apply outcome_ret. by apply deref_post_refl.
  - apply outcome_bind. destruct (Hcs x) as [Hx0 HxP]; [left|].
    eapply outcome_mono; [by apply (IH x s db l)| |done].
    intros s1 db1 (l1 & HFL1 & Hl1 & Hsub1 & Hfr1 & Hs1).
    eapply outcome_mono; [apply (IHcs s1 db1 l1); try done| |done].
    + by eapply G_sub.
    + intros y Hy. apply Hcs. by right.
    + lia.
    + intros s2 db2 (l2 & HFL2 & Hl2 & Hsub2 & Hfr2 & Hs2).
      exists l2. split_and!; [done| |by eapply shape_sub_trans|by eapply frame_core_trans|lia].
      by etrans.
Qed.

(** What a call establishes about the hash it is called on. *)
Definition deref_self (h : N) (s : gset N * nat) (db db' : Database) : Prop :=
  (h ∉ freshNodes db -> s.2 <> O ->
   (exists c, dirties db !! h = Some c /\ version c < nodeVersion db) ->
   dirties db' !! h = None) /\
  (h ∈ freshNodes db \/ s.2 = O \/
   (forall c, dirties db !! h = Some c -> ~ version c < nodeVersion db) ->
   db' = db).

Lemma dereference_FL fuel : forall h clear s db l P,
  FL l P db -> G db -> h <> zeroHash ->
  (forall p, p ∈ P -> (rank h < rank p)%nat) -> (s.2 < fuel)%nat ->
  post (dereference fuel h clear s) db
       (fun s' db' => deref_post h s db l P s' db' /\ deref_self h s db db').
Proof.
  induction fuel as [|fuel IH]; intros h clear s db l P HFL HG Hh HP Hs; [lia|].
  simpl. apply outcome_bind, outcome_get.
  case_decide as Hfresh.
  { apply outcome_ret. split; [by apply deref_post_refl|]. split; [done|auto]. }
  destruct (dirties db !! h) as [node|] eqn:Hn.
  2:{ apply outcome_ret. split; [by apply deref_post_refl|].
      split; [by intros _ _ (? & ? & _)|auto]. }
  destruct s as [acc [|t]]; simpl.
  { apply outcome_ret. split; [by apply deref_post_refl|]. split; [done|auto]. }
  case_decide as Hv.
  2:{ apply outcome_ret. split.
      - exists l.
        split_and!; [done|done|apply shape_sub_refl|apply frame_core_refl|simpl; lia].
      - split; [|done]. intros _ _ (c & Hc & Hc'). by simplify_eq. }
  assert (HhP : h ∉ P).
  { intros Hin. specialize (HP _ Hin). lia. }
  assert (Hin : h ∈ l) by (by eapply FL_present).
  apply list_elem_of_split in Hin as (l1 & l2 & ->).
  apply outcome_bind.
  eapply outcome_mono; [by apply unlink_FL| |done].
  intros [] db1 [HFL1 Hl1].
  destruct (HG _ _ Hn Hh) as (cs & Hcs & Hranks). rewrite Hcs.
  pose proof (links_only_shape_sub _ _ Hl1) as Hsub1.
  pose proof (links_only_frame_core _ _ Hl1) as Hfr1.
  apply outcome_bind.
  eapply outcome_mono;
    [apply (dereference_children fuel clear ({[h]} ∪ P)) with (l := l1 ++ l2); try done| |done].
  { intros h' s' db' l' ? ? ? ? ?.
    eapply outcome_mono; [by apply IH| |done]. by intros ? ? [? _]. }
  { by eapply G_sub. }
  { intros x Hx. destruct (Hranks x Hx) as [Hx0 Hxr]. split; [done|].
    intros p [->%elem_of_singleton|Hp]%elem_of_union; [done|].
    specialize (HP _ Hp). lia. }
  { simpl in *. lia. }
  intros s2 db2 (l' & HFL2 & Hl2 & Hsub2 & Hfr2 & Hs2). simpl in Hs2.
  apply outcome_bind, outcome_modify.
  set (db3 := set_dirties (delete h (dirties db2)) db2).
  assert (HFL3 : FL l' P db3) by (by apply FL_delete).
  assert (Hsub3 : shape_sub db db3).
  { eapply shape_sub_trans; [exact Hsub1|]. eapply shape_sub_trans; [exact Hsub2|].
    by eapply shape_sub_delete. }
  assert (Hfr3 : frame_core db db3).
  { eapply frame_core_trans; [exact Hfr1|]. eapply frame_core_trans; [exact Hfr2|].
    by repeat split. }
  assert (Hl' : l' ⊆ l1 ++ h :: l2).
  { intros x Hx. apply Hl2 in Hx. rewrite elem_of_app in *. rewrite elem_of_cons. tauto. }
  assert (Hself : forall db4, dirties db4 = dirties db3 -> deref_self h (acc, S t) db db4).
  { intros db4 E. split.
    - intros _ _ _. rewrite E. simpl. apply lookup_delete_eq.
    - intros [?|[?|Hns]]; [done|done|]. by destruct (Hns _ Hn). }
  assert (Hfin : forall (acc' : gset N) m z1 z2,
     deref_post h (acc, S t) db (l1 ++ h :: l2) P (acc', s2.2)
       (set_childrenSize z2 (set_dirtiesSize z1 (set_cleans m db3)))).
  { intros acc' m z1 z2. exists l'. split_and!; try done.
    - by eapply FL_same; [| | |exact HFL3].
    - simpl. lia. }
  assert (Hfin' : forall (acc' : gset N) m z1,
     deref_post h (acc, S t) db (l1 ++ h :: l2) P (acc', s2.2)
       (set_dirtiesSize z1 (set_cleans m db3))).
  { intros acc' m z1. exists l'. split_and!; try done.
    - by eapply FL_same; [| | |exact HFL3].
    - simpl. lia. }
  apply outcome_bind.
  assert (Hclear : post
    match clear with
    | Some f => if is_rawNode (cnode node) then ret s2.1 else run_clearFn f h s2.1
    | None => ret s2.1
    end db3 (fun _ db4 => exists m, db4 = set_cleans m db3)).
  { assert (Hid : set_cleans (cleans db3) db3 = db3) by (by destruct db2).
    destruct clear as [f|]; [destruct (is_rawNode (cnode node))|].
    - apply outcome_ret. by exists (cleans db3).
    - eapply outcome_mono; [apply run_clearFn_spec| |done].
      intros ? ? (m & -> & _). by exists m.
    - apply outcome_ret. by exists (cleans db3). }
  eapply outcome_mono; [exact Hclear| |done].
  intros acc' db4 (m & ->).
  apply outcome_bind, outcome_modify. apply outcome_bind.
  destruct (children node); [apply outcome_modify|apply outcome_ret]; apply outcome_ret.
  - split; [apply Hfin | by apply Hself].
  - split; [apply Hfin' | by apply Hself].
Qed.

(** ** Version-gated pruning *)

(** C3, as the code has it: on a well-formed database [dereference] of a
    non-zero hash returns, and it removes the entry of that hash exactly
    when the hash is not marked fresh, the entry exists, its version is
    strictly below the current counter and the time budget is not yet
    spent; a fresh hash leaves the database as it is whatever its version,
    and so does a node whose version equals the counter (nothing below it
    is visited). *)
Theorem dereference_removes_iff (fuel : nat) (h : N) (clear : option clearFn)
    (s : gset N * nat) (db : Database) (l : list N) :
  FL l ∅ db -> G db -> h <> zeroHash -> (s.2 < fuel)%nat ->
  exists s' db', dereference fuel h clear s db = Ok s' db' /\
    ((is_Some (dirties db !! h) /\ dirties db' !! h = None) <->
     ((h ∉ freshNodes db) /\ s.2 <> O /\
      exists c, dirties db !! h = Some c /\ version c < nodeVersion db)) /\
    (h ∈ freshNodes db -> db' = db) /\
    (forall c, dirties db !! h = Some c -> version c = nodeVersion db -> db' = db).
Proof.
  intros HFL HG Hh Hs.
  destruct (post_elim _ _ _ (dereference_FL fuel h clear s db l ∅ HFL HG Hh
              ltac:(intros p Hp; by apply not_elem_of_empty in Hp) Hs))
    as (s' & db' & E & _ & Hrem & Hkeep).
  exists s', db'. split; [done|]. split_and!.
  - split.
    + intros [[c Hc] Hnone].
      assert (Hne : db' <> db) by (intros ->; congruence).
      destruct (decide (h ∈ freshNodes db)) as [Hf|Hf]; [destruct Hne; auto|].
      destruct (decide (s.2 = O)) as [Hz|Hz]; [destruct Hne; auto|].
      destruct (decide (version c < nodeVersion db)) as [Hv|Hv]; [by eauto|].
      destruct Hne. apply Hkeep. right; right. intros c' Hc'. by simplify_eq.
    + intros (Hf & Hz & Hst). split; [|by apply Hrem].
      destruct Hst as (c & -> & _). by eexists.
  - auto.
  - intros c Hc Hv. apply Hkeep. right; right. intros c' Hc'. simplify_eq. lia.
Qed.

(** ** Recording pruned nodes for the disk sweep *)

(** The removed entries that are not raw blobs are in the accumulator of
    the [DereferenceDB] closure and out of the clean cache. *)
Definition tracked (db : Database) (s s' : gset N * nat) (db' : Database) : Prop :=
  shape_sub db db' /\ s.1 ⊆ s'.1 /\
  (forall k, cleans_lookup db k = None -> cleans_lookup db' k = None) /\
  (forall k c, dirties db !! k = Some c -> dirties db' !! k = None ->
               is_rawNode (cnode c) = false ->
               k ∈ s'.1 /\ cleans_lookup db' k = None).

Lemma tracked_same db s s' : s.1 = s'.1 -> tracked db s s' db.
Proof.
  intros E. split_and!; [apply shape_sub_refl|by rewrite E|done|].
  intros k c H1 H2. congruence.
Qed.

Lemma tracked_refl db s : tracked db s s db.
Proof. by apply tracked_same. Qed.

Lemma tracked_trans db1 s1 db2 s2 db3 s3 :
  tracked db1 s1 s2 db2 -> tracked db2 s2 s3 db3 -> tracked db1 s1 s3 db3.
Proof.
  intros (Hs12 & Ha12 & Hc12 & Ht12) (Hs23 & Ha23 & Hc23 & Ht23). split_and!.
  - by eapply shape_sub_trans.
  - by etrans.
  - auto.
  - intros k c Hk Hk3 Hraw. destruct (dirties db2 !! k) as [c2|] eqn:E2.
    + destruct (Hs12 _ _ E2) as (c1 & Hc1 & Hp). simplify_eq.
      apply (Ht23 k c2); [done|done|]. unfold payload in Hp. by replace (cnode c2) with (cnode c) by congruence.
    + destruct (Ht12 k c Hk E2 Hraw) as [Hin Hcl]. split; [by apply Ha23|by apply Hc23].
Qed.

Lemma tracked_links db s db' : links_only db db' -> tracked db s s db'.
Proof.
  intros Hl. split_and!; [by apply links_only_shape_sub|done| |].
  - destruct Hl as [_ Hr]. unfold rest in Hr. unfold cleans_lookup.
    by replace (cleans db') with (cleans db) by congruence.
  - intros k c Hk Hk'. apply (links_only_None _ _ k Hl) in Hk'. congruence.
Qed.

Lemma dereference_tracked fuel : forall h s db,
  outcome (fun _ => True) (dereference fuel h (Some uselessFn) s) db (tracked db s).
Proof.
  induction fuel as [|fuel IH]; intros h s db; [done|].
  simpl. apply outcome_bind, outcome_get.
  case_decide; [apply outcome_ret, tracked_refl|].
  destruct (dirties db !! h) as [node|] eqn:Hn; [|apply outcome_ret, tracked_refl].
  destruct s as [acc [|t]]; simpl; [apply outcome_ret, tracked_refl|].
  case_decide; [|apply outcome_ret; by apply tracked_same].
  apply outcome_bind.
  eapply outcome_mono; [by apply (unlink_links_only (fun _ => True))| |done].
  intros [] db1 Hl1. destruct (forChilds node) as [cs|]; [|done].
  apply outcome_bind.
  assert (Hfold : forall cs s0 d0,
    outcome (fun _ => True)
      (foldM (fun h a => dereference fuel h (Some uselessFn) a) cs s0) d0 (tracked d0 s0)).
  { clear -IH. induction cs as [|x cs IHcs]; intros s0 d0; simpl.
    - apply outcome_ret, tracked_refl.
    - apply outcome_bind. eapply outcome_mono; [apply IH| |done].
      intros s1 d1 H1. eapply outcome_mono; [apply IHcs| |done].
      intros s2 d2 H2. by eapply tracked_trans. }
  eapply outcome_mono; [apply Hfold| |done].
  intros s2 db2 H2.
  assert (H02 : tracked db (acc, S t) s2 db2).
  { eapply tracked_trans; [by apply tracked_links|].
    destruct H2 as (?&?&?&?). by split_and!. }
  clear H2 Hl1 Hfold.
  apply outcome_bind, outcome_modify.
  destruct H02 as (Hs & Ha & Hc & Ht).
  assert (Hdel : forall k c, dirties db !! k = Some c ->
            delete h (dirties db2) !! k = None -> k = h \/ dirties db2 !! k = None).
  { intros k c Hk Hd. destruct (decide (h = k)) as [->|Hne]; [by left|].
    right. by rewrite lookup_delete_ne in Hd. }
  assert (Hsub3 : shape_sub db (set_dirties (delete h (dirties db2)) db2)).
  { eapply shape_sub_trans; [exact Hs|]. by eapply shape_sub_delete. }
  apply outcome_bind.
  destruct (is_rawNode (cnode node)) eqn:Hraw.
  - apply outcome_ret. apply outcome_bind, outcome_modify. apply outcome_bind.
    assert (Hgoal : forall z1 z2 : Database -> Database,
      (forall d, dirties (z2 (z1 d)) = dirties d /\ cleans (z2 (z1 d)) = cleans d) ->
      tracked db (acc, S t) (s2.1, s2.2) (z2 (z1 (set_dirties (delete h (dirties db2)) db2)))).
    { intros z1 z2 Hz. destruct (Hz (set_dirties (delete h (dirties db2)) db2)) as [Ed Ec].
      split_and!.
      - intros k c'. rewrite Ed. apply Hsub3.
      - done.
      - intros k. unfold cleans_lookup. rewrite Ec. apply Hc.
      - intros k c Hk. rewrite Ed. simpl. intros Hd Hr.
        destruct (Hdel k c Hk Hd) as [->|Hk2]; [congruence|].
        unfold cleans_lookup. rewrite Ec. by apply (Ht k c). }
    destruct (children node);
      [apply outcome_modify|apply outcome_ret]; apply outcome_ret.
    + apply (Hgoal (fun d => set_dirtiesSize _ d) (fun d => set_childrenSize _ d)). done.
    + apply (Hgoal (fun d => set_dirtiesSize _ d) (fun d => d)). done.
  - simpl. unfold cleans_Del. apply outcome_bind, outcome_modify, outcome_ret.
    apply outcome_bind, outcome_modify. apply outcome_bind.
    set (db3 := set_dirties (delete h (dirties db2)) db2).
    assert (Hcl3 : forall k, cleans_lookup db k = None ->
       cleans_lookup (match cleans db3 with
                      | Some c => set_cleans (Some (delete h c)) db3
                      | None => db3 end) k = None).
    { intros k Hk. specialize (Hc k Hk). unfold cleans_lookup in *. subst db3. simpl.
      destruct (cleans db2) as [m|] eqn:E; simpl; [|by rewrite E].
      destruct (decide (h = k)) as [->|?];
        [apply lookup_delete_eq | by rewrite lookup_delete_ne]. }
    assert (Hh3 : cleans_lookup (match cleans db3 with
                      | Some c => set_cleans (Some (delete h c)) db3
                      | None => db3 end) h = None).
    { unfold cleans_lookup. subst db3. simpl.
      destruct (cleans db2) as [m|] eqn:E; simpl; [apply lookup_delete_eq|by rewrite E]. }
    assert (Hd3 : dirties (match cleans db3 with
                      | Some c => set_cleans (Some (delete h c)) db3
                      | None => db3 end) = delete h (dirties db2)).
    { subst db3. simpl. by destruct (cleans db2). }
    assert (Hgoal : forall z1 z2 : Database -> Database,
      (forall d, dirties (z2 (z1 d)) = dirties d /\ cleans (z2 (z1 d)) = cleans d) ->
      tracked db (acc, S t) ({[h]} ∪ s2.1, s2.2)
        (z2 (z1 (match cleans db3 with
                 | Some c => set_cleans (Some (delete h c)) db3
                 | None => db3 end)))).
    { intros z1 z2 Hz.
      destruct (Hz (match cleans db3 with
                    | Some c => set_cleans (Some (delete h c)) db3
                    | None => db3 end)) as [Ed Ec].
      split_and!.
      - intros k c'. rewrite Ed, Hd3. intros Hk'. apply Hsub3. done.
      - simpl. intros x Hx. apply elem_of_union. right. by apply Ha.
      - intros k Hk. unfold cleans_lookup. rewrite Ec. by apply Hcl3.
      - intros k c Hk. rewrite Ed, Hd3. intros Hd Hr.
        destruct (Hdel k c Hk Hd) as [->|Hk2].
        + split; [apply elem_of_union; left; by apply elem_of_singleton|].
          unfold cleans_lookup. rewrite Ec. apply Hh3.
        + destruct (Ht k c Hk Hk2 Hr) as [Hin Hcl]. split.
          * apply elem_of_union. by right.
          * unfold cleans_lookup. rewrite Ec.
            destruct (decide (h = k)) as [->|Hne]; [apply Hh3|].
            unfold cleans_lookup in *. subst db3. simpl.
            destruct (cleans db2) as [m|] eqn:E; simpl; [|by rewrite E].
            by rewrite lookup_delete_ne. }
    destruct (children node);
      [apply outcome_modify|apply outcome_ret]; apply outcome_ret.
    + apply (Hgoal (fun d => set_dirtiesSize _ d) (fun d => set_childrenSize _ d)). done.
    + apply (Hgoal (fun d => set_dirtiesSize _ d) (fun d => d)). done.
Qed.

Lemma Lock_unlocked db :
  lock db = unlocked -> Lock db = Ok tt (set_lock (mkRWMutex true 0) db).
Proof. intros E. unfold Lock. by rewrite E. Qed.

Lemma Unlock_locked db :
  lock db = mkRWMutex true 0 -> Unlock db = Ok tt (set_lock unlocked db).
Proof. intros E. unfold Unlock. by rewrite E. Qed.

(** C8, as the code has it: on a well-formed database with the lock free
    [DereferenceDB] returns, and every node it removes from the Node Store
    whose content is not a raw blob is out of the clean cache and in the
    set the call appends to the pending disk clean-up. *)
Theorem DereferenceDB_records_removed (root : N) (budget : nat) (db : Database) (l : list N) :
  FL l ∅ db -> G db -> lock db = unlocked ->
  exists db', DereferenceDB root budget db = Ok tt db' /\
    forall k c, dirties db !! k = Some c -> dirties db' !! k = None ->
      is_rawNode (cnode c) = false ->
      (exists u, useless db' = useless db ++ [u] /\ k ∈ u) /\
      cleans_lookup db' k = None.
Proof.
  intros HFL HG Hlock. unfold DereferenceDB.
  case_decide as Hroot.
  { exists db. split; [done|]. intros k c H1 H2. congruence. }
  unfold bind at 1. rewrite (Lock_unlocked _ Hlock).
  set (db1 := set_lock (mkRWMutex true 0) db).
  assert (HFL1 : FL l ∅ db1) by (by eapply FL_same; [| | |exact HFL]).
  assert (HG1 : G db1) by done.
  pose proof (outcome_conj (fun _ => True) _ _ _ _
    (dereference_FL (S budget) root (Some uselessFn) (∅, budget) db1 l ∅ HFL1 HG1 Hroot
       ltac:(intros p Hp; by apply not_elem_of_empty in Hp) ltac:(simpl; lia))
    (dereference_tracked (S budget) root (∅, budget) db1)) as H.
  apply post_elim in H as (s' & db2 & E & [[(l' & _ & _ & _ & Hfr & _) _] Htr]).
  unfold bind at 1. rewrite E.
  assert (Hl2 : lock db2 = mkRWMutex true 0).
  { destruct Hfr as (_&_&_&_&_&_&->). done. }
  unfold bind at 1. rewrite (Unlock_locked _ Hl2). unfold modify.
  eexists. split; [reflexivity|].
  intros k c Hk Hk' Hraw. simpl in *.
  destruct Htr as (_ & _ & _ & Ht).
  destruct (Ht k c Hk Hk' Hraw) as [Hin Hcl]. split; [|done].
  exists s'.1. split; [|done].
  destruct Hfr as (_&_&_&->&_). done.
Qed.

(** ** The flush-list under insertion *)

Lemma FL_NewDatabase disk cache pre : FL [] ∅ (NewDatabaseWithConfig disk cache pre).
Proof.
  constructor; simpl; try done.
  - apply NoDup_nil_2.
  - apply not_elem_of_nil.
  - intros h. destruct (decide (h = zeroHash)) as [->|Hne].
    + rewrite lookup_singleton_eq. split; [by left | by eexists].
    + rewrite lookup_singleton_ne by done. split; [by intros [? ?]|].
      intros [?|[?%elem_of_nil|?%not_elem_of_empty]]; done.
Qed.

Lemma FL_oldest_zero l P db : FL l P db -> oldest db = zeroHash <-> l = [].
Proof.
  intros HFL. rewrite (fl_oldest _ _ _ HFL). destruct l as [|x r]; simpl; [done|].
  split; [|done]. intros ->. destruct (fl_zero _ _ _ HFL). left.
Qed.

Lemma insert_FL l db hash size n sn :
  FL l ∅ db -> dirties db !! hash = None -> simplifyNode n = Some sn ->
  post (insert hash size n) db (fun _ db' =>
    FL (l ++ [hash]) ∅ db' /\
    (forall prev, seg (dirties db) prev l zeroHash ->
                  (l = [] -> forall p, prev = Some p -> newest db = p) ->
                  seg (dirties db') prev (l ++ [hash]) zeroHash) /\
    (exists e, dirties db' !! hash = Some e /\ cnode e = sn /\ children e = None) /\
    (forall k c', dirties db' !! k = Some c' -> k <> hash ->
                  exists c, dirties db !! k = Some c /\ payload c = payload c') /\
    frame_core db db').
Proof.
  intros HFL Hnone Hsn.
  pose proof HFL as [Hnd Hz Hpend Hkeys Hseg Hold Hnew].
  assert (Hh0 : hash <> zeroHash).
  { intros ->. destruct (proj2 (Hkeys zeroHash)) as [? ?]; [by left|congruence]. }
  assert (Hhl : hash ∉ l).
  { intros Hin. destruct (proj2 (Hkeys hash)) as [? ?]; [right; by left|congruence]. }
  assert (Hnd' : NoDup (l ++ [hash])).
  { apply NoDup_app. split_and!; [done| |apply NoDup_singleton].
    intros x Hx ->%list_elem_of_singleton. done. }
  assert (Hz' : zeroHash ∉ l ++ [hash]).
  { intros [?|?%list_elem_of_singleton]%elem_of_app; done. }
  assert (Hpend' : forall h, h ∈ (∅ : gset N) -> (h ∉ l ++ [hash]) /\ h <> zeroHash).
  { intros h Hin. by apply not_elem_of_empty in Hin. }
  unfold insert. apply outcome_bind, outcome_get. rewrite Hnone, Hsn.
  set (entry := mkCachedNode sn (u16 size) 0 None (newest db) zeroHash (NodeVersion db)).
  apply outcome_bind, outcome_modify. apply outcome_bind.
  case_decide as Ho.
  - (* the list was empty *)
    apply (FL_oldest_zero _ _ _ HFL) in Ho. subst l.
    apply outcome_modify, outcome_modify. simpl.
    split_and!.
    + constructor; simpl; try done.
      * intros k. destruct (decide (hash = k)) as [<-|Hne].
        -- rewrite lookup_insert_eq. split; [intros _; right; left; left | by eexists].
        -- rewrite lookup_insert_ne by done. rewrite Hkeys.
           rewrite list_elem_of_singleton, elem_of_nil. intuition congruence.
      * exists entry. rewrite lookup_insert_eq. by split_and!.
      * by intros x [= <-].
    + intros prev _ Hp. exists entry. rewrite lookup_insert_eq. split_and!; try done.
      intros p Hpp. simpl. by apply Hp.
    + exists entry. by rewrite lookup_insert_eq.
    + intros k c' Hk Hne. rewrite lookup_insert_ne in Hk by done. by exists c'.
    + by repeat split.
  - (* the list ends in [a] *)
    destruct l as [|a l' _] using rev_ind; [by destruct Ho; rewrite Hold|].
    assert (Hna : newest db = a) by (apply Hnew, last_snoc).
    assert (Hca : is_Some (dirties db !! a)).
    { apply Hkeys. right; left. apply elem_of_app. right. left. }
    destruct Hca as [ca Hca].
    assert (Hah : a <> hash) by (intros ->; congruence).
    apply outcome_bind.
    eapply outcome_update_node; [simpl; rewrite Hna; rewrite lookup_insert_ne by done; exact Hca|].
    apply outcome_modify, outcome_modify. simpl. rewrite Hna.
    assert (Hal : a ∉ l').
    { apply NoDup_app in Hnd as (_ & Hd & _). intros Hin. apply (Hd _ Hin). left. }
    assert (Hsegs : forall prev, seg (dirties db) prev (l' ++ [a]) zeroHash ->
      seg (<[a:=set_flushNext hash ca]> (<[hash:=entry]> (dirties db))) prev
          ((l' ++ [a]) ++ [hash]) zeroHash).
    { intros prev Hs. apply seg_app. split.
      - simpl. eapply seg_set_next_last; [|done|by rewrite lookup_insert_ne].
        eapply seg_ext; [|exact Hs]. intros k Hk.
        rewrite lookup_insert_ne; [done|]. by intros <-.
      - rewrite last_snoc. simpl. exists entry.
        rewrite lookup_insert_ne by done. rewrite lookup_insert_eq.
        split_and!; try done. intros p [= <-]. done. }
    split_and!.
    + constructor; simpl; try done.
      * intros k. rewrite (is_Some_insert_present _ a ca) by (by rewrite lookup_insert_ne).
        destruct (decide (hash = k)) as [<-|Hne].
        -- rewrite lookup_insert_eq. split; [intros _; right; left|by eexists].
           apply elem_of_app. right. left.
        -- rewrite lookup_insert_ne by done. rewrite Hkeys.
           rewrite (elem_of_app (l' ++ [a])), list_elem_of_singleton. intuition congruence.
      * by apply Hsegs.
      * rewrite Hold. by destruct l'.
      * intros x Hx. rewrite last_snoc in Hx. congruence.
    + intros prev Hs _. by apply Hsegs.
    + exists entry. rewrite lookup_insert_ne by done. by rewrite lookup_insert_eq.
    + intros k c' Hk Hne. destruct (decide (a = k)) as [<-|Hak].
      * rewrite lookup_insert_eq in Hk. exists ca. split; [done|]. by simplify_eq.
      * rewrite !lookup_insert_ne in Hk by done. by exists c'.
    + by repeat split.
Qed.

(** ** Collapsed nodes *)

(** Induction over nodes that reaches the children of full nodes. *)
Section NodeInduction.
Variable P : node -> Prop.
Hypothesis Hnil : P nilNode.
Hypothesis Hfull : forall cs, Forall P cs -> P (fullNode cs).
Hypothesis Hshort : forall k v, P v -> P (shortNode k v).
Hypothesis Hhash : forall h, P (hashNode h).
Hypothesis Hvalue : forall v, P (valueNode v).
Hypothesis Hraw : forall b, P (rawNode b).
Hypothesis Hrawfull : forall cs, Forall P cs -> P (rawFullNode cs).
Hypothesis Hrawshort : forall k v, P v -> P (rawShortNode k v).

Fixpoint node_nested_ind (n : node) : P n :=
  match n with
  | nilNode => Hnil
  | fullNode cs =>
      Hfull cs ((fix go (l : list node) : Forall P l :=
                   match l with
                   | [] => @List.Forall_nil node P
                   | c :: r => @List.Forall_cons node P c r (node_nested_ind c) (go r)
                   end) cs)
  | shortNode k v => Hshort k v (node_nested_ind v)
  | hashNode h => Hhash h
  | valueNode v => Hvalue v
  | rawNode b => Hraw b
  | rawFullNode cs =>
      Hrawfull cs ((fix go (l : list node) : Forall P l :=
                      match l with
                      | [] => @List.Forall_nil node P
                      | c :: r => @List.Forall_cons node P c r (node_nested_ind c) (go r)
                      end) cs)
  | rawShortNode k v => Hrawshort k v (node_nested_ind v)
  end.
End NodeInduction.

(** The forms [simplifyNode] produces; a full node keeps nil in its empty
    slots. *)
Fixpoint collapsed (n : node) : Prop :=
  match n with
  | valueNode _ | hashNode _ | rawNode _ => True
  | rawShortNode _ v => collapsed v
  | rawFullNode cs =>
      (fix go (l : list node) : Prop :=
         match l with
         | [] => True
         | c :: r => (c = nilNode \/ collapsed c) /\ go r
         end) cs
  | nilNode | fullNode _ | shortNode _ _ => False
  end.

Lemma simplifyNode_collapsed n : forall sn, simplifyNode n = Some sn -> collapsed sn.
Proof.
  induction n as [|cs IH|k v IH|h|v|b|cs IH|k v IH] using node_nested_ind;
    intros sn; simpl; try done.
  - match goal with |- context [match ?g cs with _ => _ end] => set (go := g) end.
    destruct (go cs) as [cs'|] eqn:E; [|done].
    intros [= <-]. simpl. revert cs' E.
    induction IH as [|c r Hc Hr IHr]; intros cs' E; simpl in E.
    + by injection E as <-.
    + destruct (match c with nilNode => Some nilNode | _ => simplifyNode c end) as [c'|] eqn:Ec;
        [|done].
      destruct (go r) as [r'|] eqn:Er; [|done].
      injection E as <-. split; [|by apply IHr].
      destruct c; try (right; by apply Hc).
      left. by injection Ec.
  - destruct (simplifyNode v) as [v'|] eqn:E; [|done].
    intros [= <-]. simpl. by apply IH.
  - by intros [= <-].
  - by intros [= <-].
  - by intros [= <-].
Qed.

Lemma forGatherChildren_collapsed n : collapsed n -> is_Some (forGatherChildren n).
Proof.
  induction n as [|cs IH|k v IH|h|v|b|cs IH|k v IH] using node_nested_ind;
    simpl; try done; try by eexists.
  generalize 16%nat. induction IH as [|c r Hc Hr IHr]; intros k Hcs.
  - by eexists.
  - destruct k as [|k]; [by eexists|]. destruct Hcs as [Hcc Hcr].
    assert (Hgc : is_Some (forGatherChildren c)).
    { destruct Hcc as [->|Hcc]; [by eexists | by apply Hc]. }
    destruct Hgc as [a ->]. destruct (IHr k Hcr) as [b ->]. by eexists.
Qed.

Lemma forChilds_total c : collapsed (cnode c) -> is_Some (forChilds c).
Proof.
  intros Hc. unfold forChilds. destruct (is_rawNode (cnode c)); [by eexists|].
  destruct (forGatherChildren_collapsed _ Hc) as [l ->]. by eexists.
Qed.

(** ** The flush-list under Cap *)

Lemma FL_size l db : FL l ∅ db -> size (dirties db) = S (length l).
Proof.
  intros [Hnd Hz _ Hkeys _ _ _].
  rewrite <- size_dom.
  assert (E : dom (dirties db) = {[zeroHash]} ∪ list_to_set l).
  { apply set_eq. intros k. rewrite elem_of_dom, Hkeys, elem_of_union, elem_of_singleton,
      elem_of_list_to_set. split; [intros [?|[?|?%not_elem_of_empty]]|intros [?|?]]; tauto. }
  rewrite E, size_union, size_singleton, size_list_to_set by
    (try done; intros k ->%elem_of_singleton ?%elem_of_list_to_set; done).
  done.
Qed.

Lemma batch_Write_spec F b db (Q : option error -> Database -> Prop) :
  (forall r d, Q r (set_diskdb d db)) -> outcome F (batch_Write b) db Q.
Proof.
  intros HQ. unfold outcome, batch_Write.
  destruct (write_faults (diskdb db)) as [|[] ?]; apply HQ.
Qed.

Definition only_unlock (f : fault) : Prop := f = RUnlockOfUnlocked.

Lemma Cap_scan_spec limit : forall l2 fuel total batch db prev,
  seg (dirties db) prev l2 zeroHash -> zeroHash ∉ l2 -> (length l2 < fuel)%nat ->
  readers (lock db) = O ->
  outcome only_unlock (Cap_scan fuel limit total (hd zeroHash l2) batch) db (fun r db' =>
    (exists d, db' = set_diskdb d db) /\
    match r with
    | inl _ => True
    | inr (stop, _) => exists la lb, l2 = la ++ lb /\ stop = hd zeroHash lb
    end).
Proof.
  assert (Hid : forall db, db = set_diskdb (diskdb db) db) by (by intros []).
  induction l2 as [|x r IH]; intros fuel total batch db prev Hseg Hz Hfuel Hlock;
    (destruct fuel as [|fuel]; [simpl in Hfuel; lia|]); simpl.
  - destruct (decide _) as [[_ ?]|_]; [done|].
    apply outcome_ret. split; [by eexists|]. by exists [], [].
  - case_decide as Hc.
    2:{ apply outcome_ret. split; [by eexists|]. by exists [], (x :: r). }
    destruct Hseg as (cx & Hcx & _ & Hnx & Hseg).
    apply outcome_bind. eapply outcome_deref; [done|].
    apply outcome_bind.
    assert (Hz' : zeroHash ∉ r) by (intros ?; apply Hz; by right).
    assert (Hcont : forall d b' t',
      outcome only_unlock (Cap_scan fuel limit t' (flushNext cx) b') (set_diskdb d db)
        (fun r0 db' => (exists d0, db' = set_diskdb d0 db) /\
           match r0 with
           | inl _ => True
           | inr (stop, _) => exists la lb, x :: r = la ++ lb /\ stop = hd zeroHash lb
           end)).
    { intros d b' t'. rewrite Hnx.
      eapply outcome_mono; [apply (IH fuel t' b' (set_diskdb d db) (Some x)); try done| |done].
      - simpl in Hfuel. lia.
      - intros r0 db' [[d0 ->] Hr]. split; [by eexists|].
        destruct r0 as [|[stop ?]]; [done|]. destruct Hr as (la & lb & -> & ->).
        by exists (x :: la), lb. }
    case_decide.
    + apply outcome_bind. apply batch_Write_spec. intros [e|] d.
      * apply outcome_bind. unfold outcome, RUnlock. simpl. by rewrite Hlock.
      * apply outcome_ret. apply Hcont.
    + apply outcome_ret. rewrite (Hid db). apply Hcont.
Qed.

Lemma Cap_evict_spec : forall la fuel lb db,
  FL (la ++ lb) ∅ db -> (length la < fuel)%nat ->
  post (Cap_evict fuel (hd zeroHash lb)) db (fun _ db' =>
    FL lb ∅ db' /\ shape_sub db db' /\ frame_core db db' /\ cleans db' = cleans db).
Proof.
  induction la as [|x la IH]; intros fuel lb db HFL Hfuel;
    (destruct fuel as [|fuel]; [simpl in Hfuel; lia|]); simpl.
  - apply outcome_bind, outcome_get. simpl in HFL.
    destruct (decide _) as [Hne|_]; [destruct Hne; apply (fl_oldest _ _ _ HFL)|].
    apply outcome_ret. split_and!; [done|apply shape_sub_refl|apply frame_core_refl|done].
  - apply outcome_bind, outcome_get.
    pose proof HFL as [Hnd Hz Hpend Hkeys Hseg Hold Hnew]. simpl in *.
    apply NoDup_cons in Hnd as [Hx Hnd].
    assert (Hx0 : x <> zeroHash) by (intros ->; apply Hz; left).
    assert (Hstop : oldest db <> hd zeroHash lb).
    { rewrite Hold. destruct lb as [|y lb]; simpl; [done|].
      intros ->. apply Hx. apply elem_of_app. right. left. }
    destruct (decide _) as [_|Hne]; [|done].
    destruct Hseg as (cx & Hcx & _ & Hnx & Hseg).
    apply outcome_bind. rewrite Hold. eapply outcome_deref; [done|].
    apply outcome_bind, outcome_modify. apply outcome_bind, outcome_modify.
    apply outcome_bind.
    set (db1 := set_oldest (flushNext cx) (set_dirties (delete x (dirties db)) db)).
    assert (HFL1 : FL (la ++ lb) ∅ db1).
    { constructor; simpl; try done.
      - intros ?; apply Hz; by right.
      - intros k. destruct (decide (x = k)) as [<-|Hne].
        + rewrite lookup_delete_eq. split; [by intros [? ?]|].
          intros [?|[?|?%not_elem_of_empty]]; done.
        + rewrite lookup_delete_ne by done. rewrite Hkeys, elem_of_cons. intuition congruence.
      - eapply seg_ext; [|eapply seg_prev_weaken; exact Hseg].
        intros k Hk. rewrite lookup_delete_ne; [done|]. by intros <-.
      - intros y Hy. apply Hnew. rewrite last_cons, Hy. done. }
    assert (Hsub1 : shape_sub db db1) by (by eapply shape_sub_delete).
    assert (Hstep : forall db2, dirties db2 = dirties db1 -> oldest db2 = oldest db1 ->
              newest db2 = newest db1 -> frame_core db db2 -> cleans db2 = cleans db ->
              post (Cap_evict fuel (hd zeroHash lb)) db2
                (fun _ db' => FL lb ∅ db' /\ shape_sub db db' /\ frame_core db db' /\
                              cleans db' = cleans db)).
    { intros db2 Ed Eo En Hfr Hcl.
      eapply outcome_mono; [apply (IH fuel lb db2)| |done].
      - by eapply FL_same; [| | |exact HFL1].
      - simpl in Hfuel. lia.
      - intros [] db' (HFL' & Hsub' & Hfr' & Hcl'). split_and!; [done| | |congruence].
        + eapply shape_sub_trans; [|exact Hsub'].
          intros k c' Hk. rewrite Ed in Hk. by apply Hsub1.
        + by eapply frame_core_trans. }
    destruct (children cx); [apply outcome_modify|apply outcome_ret];
      apply Hstep; simpl; rewrite ?Hold; try done; by repeat split.
Qed.

Lemma Cap_FL l limit db :
  FL l ∅ db -> lock db = unlocked ->
  outcome only_unlock (Cap limit) db (fun _ db' =>
    exists l', FL l' ∅ db' /\ l' ⊆ l /\ shape_sub db db' /\ lock db' = unlocked /\
               freshNodes db' = freshNodes db /\ nodeVersion db' = nodeVersion db).
Proof.
  intros HFL Hlock. unfold Cap.
  assert (Hkeep : forall (r : option error) d,
    outcome only_unlock (ret r) (set_diskdb d db) (fun _ db' =>
      exists l', FL l' ∅ db' /\ l' ⊆ l /\ shape_sub db db' /\ lock db' = unlocked /\
                 freshNodes db' = freshNodes db /\ nodeVersion db' = nodeVersion db)).
  { intros r d. apply outcome_ret. exists l.
    split_and!; [by eapply FL_same; [| | |exact HFL]|done| |done|done|done].
    intros k c' Hk. by exists c'. }
  assert (Hid : db = set_diskdb (diskdb db) db) by (by destruct db).
  apply outcome_bind, outcome_get.
  destruct (proj2 (fl_keys _ _ _ HFL zeroHash)) as [meta Hmeta]; [by left|].
  apply outcome_bind. eapply outcome_deref; [done|].
  set (total := dirtiesSize db + _ + _).
  apply outcome_bind.
  assert (Hpre : forall (Q : error + list batchop -> Database -> Prop),
    (forall r d, Q r (set_diskdb d db)) ->
    outcome only_unlock
      match bool_decide (preimagesSize db > 4 * 1024 * 1024), preimages db with
      | true, Some p =>
          if decide (ValueSize (WritePreimages [] p) > IdealBatchSize)
          then let* w := batch_Write (WritePreimages [] p) in
               match w with
               | Some e => ret (inl e)
               | None => ret (inr [])
               end
          else ret (inr (WritePreimages [] p))
      | _, _ => ret (inr [])
      end db Q).
  { intros Q HQ. destruct (bool_decide _); [destruct (preimages db)|].
    - case_decide.
      + apply outcome_bind, batch_Write_spec. intros [e|] d; apply outcome_ret, HQ.
      + apply outcome_ret. rewrite Hid. apply HQ.
    - apply outcome_ret. rewrite Hid. apply HQ.
    - apply outcome_ret. rewrite Hid. apply HQ. }
  apply Hpre. intros [e|batch] d1; [apply Hkeep|].
  apply outcome_bind. rewrite (fl_oldest _ _ _ HFL).
  eapply outcome_mono;
    [apply (Cap_scan_spec limit l _ total batch (set_diskdb d1 db) None)| |done].
  { apply (fl_seg _ _ _ HFL). }
  { apply (fl_zero _ _ _ HFL). }
  { rewrite (FL_size _ _ HFL). lia. }
  { simpl. by rewrite Hlock. }
  intros r db2 [[d2 ->] Hr]. simpl.
  destruct r as [e|[stop batch2]]; [apply (Hkeep (Some e))|].
  destruct Hr as (la & lb & -> & ->).
  apply outcome_bind, batch_Write_spec. intros [e|] d3; simpl; [apply (Hkeep (Some e))|].
  apply outcome_bind. eapply outcome_intro; [by apply Lock_unlocked|].
  apply outcome_bind.
  set (db4 := set_lock (mkRWMutex true 0) (set_diskdb d3 db)).
  assert (Hpost : forall db5, dirties db5 = dirties db -> oldest db5 = oldest db ->
            newest db5 = newest db -> lock db5 = mkRWMutex true 0 ->
            freshNodes db5 = freshNodes db -> nodeVersion db5 = nodeVersion db ->
    outcome only_unlock
      (let* db0 := get in
       Cap_evict (S (size (dirties db0))) (hd zeroHash lb) >>
       (let* db1 := get in
        (if decide (oldest db1 <> zeroHash)
         then update_node (oldest db1) (set_flushPrev zeroHash)
         else ret ()) >> Unlock >> ret (@None error))) db5
      (fun _ db' =>
         exists l', FL l' ∅ db' /\ l' ⊆ la ++ lb /\ shape_sub db db' /\ lock db' = unlocked /\
                    freshNodes db' = freshNodes db /\ nodeVersion db' = nodeVersion db)).
  { intros db5 Ed Eo En El Ef Ev.
    assert (HFL5 : FL (la ++ lb) ∅ db5) by (by eapply FL_same; [| | |exact HFL]).
    apply outcome_bind, outcome_get. apply outcome_bind.
    apply outcome_post.
    eapply outcome_mono; [apply (Cap_evict_spec la _ lb db5 HFL5)| |done].
    { rewrite (FL_size _ _ HFL5), length_app. lia. }
    intros [] db6 (HFL6 & Hsub6 & Hfr6 & _).
    assert (Hsub6' : shape_sub db db6).
    { intros k c' Hk. destruct (Hsub6 _ _ Hk) as (c & Hc & Hp). rewrite Ed in Hc. eauto. }
    destruct Hfr6 as (_ & Hf6 & Hv6 & _ & _ & _ & Hl6).
    apply outcome_bind, outcome_get. apply outcome_bind.
    assert (Hfin : forall db7, FL lb ∅ db7 -> shape_sub db6 db7 -> lock db7 = lock db6 ->
              freshNodes db7 = freshNodes db6 -> nodeVersion db7 = nodeVersion db6 ->
              post (Unlock >> ret (@None error)) db7 (fun _ db' =>
                exists l', FL l' ∅ db' /\ l' ⊆ la ++ lb /\ shape_sub db db' /\
                  lock db' = unlocked /\
                  freshNodes db' = freshNodes db /\ nodeVersion db' = nodeVersion db)).
    { intros db7 HFL7 Hsub7 Hl7 Hf7 Hv7. apply outcome_bind.
      eapply outcome_intro; [apply Unlock_locked; congruence|].
      apply outcome_ret. exists lb. split_and!.
      - by eapply FL_same; [| | |exact HFL7].
      - intros k Hk. apply elem_of_app. by right.
      - eapply shape_sub_trans; [exact Hsub6'|]. exact Hsub7.
      - done.
      - simpl. congruence.
      - simpl. congruence. }
    destruct (decide (oldest db6 <> zeroHash)) as [Ho|Ho].
    - rewrite (fl_oldest _ _ _ HFL6) in *.
      destruct lb as [|y lb']; [done|]. simpl.
      pose proof (fl_seg _ _ _ HFL6) as Hs. pose proof Hs as (cy & Hcy & _).
      eapply outcome_update_node; [exact Hcy|].
      apply outcome_post, Hfin; try done.
      + destruct HFL6 as [Hnd Hz Hpend Hkeys Hseg Hold Hnew].
        constructor; simpl; try done.
        * intros k. rewrite (is_Some_insert_present _ y cy) by done. apply Hkeys.
        * apply NoDup_cons in Hnd as [Hy _].
          by eapply (seg_set_prev_head _ None None).
      + eapply links_only_shape_sub. by apply (links_only_update _ _ cy).
    - apply outcome_ret. apply outcome_post, Hfin; try done. apply shape_sub_refl. }
  destruct (bool_decide _); [apply outcome_modify|apply outcome_ret].
  - subst db4. simpl. destruct (preimages db); apply Hpost; done.
  - apply Hpost; done.
Qed.

(** ** The flush-list under Commit *)

(** What an operation that only drops nodes leaves in place. *)
Definition drop_post (db : Database) (l : list N) (db' : Database) : Prop :=
  exists l', FL l' ∅ db' /\ l' ⊆ l /\ shape_sub db db' /\ lock db' = lock db /\
             freshNodes db' = freshNodes db /\ nodeVersion db' = nodeVersion db.

Lemma drop_post_refl db l : FL l ∅ db -> drop_post db l db.
Proof. intros H. exists l. split_and!; try done. apply shape_sub_refl. Qed.

Lemma drop_post_trans db1 l1 db2 db3 :
  drop_post db1 l1 db2 -> (forall l', FL l' ∅ db2 -> l' ⊆ l1 -> drop_post db2 l' db3) ->
  drop_post db1 l1 db3.
Proof.
  intros (l' & HFL & Hl & Hs & Hlk & Hf & Hv) H23.
  destruct (H23 l' HFL Hl) as (l'' & HFL' & Hl' & Hs' & Hlk' & Hf' & Hv').
  exists l''. split_and!; [done|by etrans|by eapply shape_sub_trans|congruence..].
Qed.

Lemma drop_post_same db l db' :
  FL l ∅ db -> dirties db' = dirties db -> oldest db' = oldest db -> newest db' = newest db ->
  lock db' = lock db -> freshNodes db' = freshNodes db -> nodeVersion db' = nodeVersion db ->
  drop_post db l db'.
Proof.
  intros HFL Ed Eo En El Ef Ev. exists l. split_and!; try done.
  - by eapply FL_same; [| | |exact HFL].
  - intros k c' Hk. rewrite Ed in Hk. by exists c'.
Qed.

Lemma FL_unique l l' db : FL l ∅ db -> FL l' ∅ db -> l' ⊆ l.
Proof.
  intros H H' k Hk.
  destruct (proj1 (fl_keys _ _ _ H k)) as [->|[?|?%not_elem_of_empty]]; try done.
  - apply (fl_keys _ _ _ H'). right. by left.
  - by destruct (fl_zero _ _ _ H').
Qed.

Lemma cleaner_Put_FL uncache ks k v l db :
  FL l ∅ db -> k <> zeroHash ->
  post (cleaner_Put uncache (ks, k) v) db (fun _ db' => drop_post db l db').
Proof.
  intros HFL Hk. destruct uncache.
  - destruct (dirties db !! k) as [c|] eqn:Hc.
    + assert (Hin : k ∈ l) by (eapply FL_present; [done..|apply not_elem_of_empty]).
      apply list_elem_of_split in Hin as (l1 & l2 & ->).
      eapply outcome_mono; [by apply (cleaner_Put_uncache l1 k l2 db c)| |done].
      intros r db' (_ & HFL' & _ & Hsub & _ & _ & _ & _ & Hfr).
      destruct Hfr as (_&?&?&_&_&_&?).
      exists (l1 ++ l2). split_and!; try done.
      intros x. rewrite !elem_of_app, elem_of_cons. tauto.
    + unfold cleaner_Put. simpl. apply outcome_bind, outcome_get. rewrite Hc.
      apply outcome_bind, outcome_ret, outcome_ret. by apply drop_post_refl.
  - unfold cleaner_Put, cleans_Set. simpl. apply outcome_bind, outcome_get.
    apply outcome_bind, outcome_ret. apply outcome_bind, outcome_modify, outcome_ret.
    destruct (cleans db); by apply drop_post_same.
Qed.

(** The puts of a commit batch: trie nodes under non-zero hashes. *)
Definition batch_ok (b : list batchop) : Prop :=
  Forall (fun o => exists ks k v, o = BPut (ks, k) v /\ k <> zeroHash) b.

Lemma Replay_FL uncache : forall b l db,
  batch_ok b -> FL l ∅ db ->
  post (Replay uncache b) db (fun _ db' => drop_post db l db').
Proof.
  induction b as [|o b IH]; intros l db Hb HFL; simpl.
  - apply outcome_ret. by apply drop_post_refl.
  - apply Forall_cons in Hb as [(ks & k & v & -> & Hk) Hb].
    apply outcome_bind.
    eapply outcome_mono; [by apply cleaner_Put_FL| |done].
    intros r db1 H1.
    destruct H1 as (l1 & HFL1 & Hl1 & Hrest).
    eapply outcome_mono; [by apply (IH l1)| |done].
    intros [] db2 H2. eapply drop_post_trans; [by exists l1|].
    intros l' HFL' Hl'. destruct H2 as (l2 & HFL2 & Hl2 & Hrest2).
    exists l2. split; [done|]. split; [|done].
    etrans; [exact Hl2|]. by eapply FL_unique.
Qed.

(** How deep a descent from a hash can go: the resident hashes that rank
    no higher. *)
Definition below (D : gset N) (h : N) : nat :=
  size (filter (fun k => (rank k <= rank h)%nat) D).

Definition fuel_ok (D : gset N) (h : N) (fuel : nat) : Prop :=
  (1 <= fuel)%nat /\ (h ∈ D -> (below D h < fuel)%nat).

Lemma below_lt D x h : h ∈ D -> (rank x < rank h)%nat -> (below D x < below D h)%nat.
Proof.
  intros Hh Hr. unfold below. apply subset_size. split.
  - intros k [Hk ?]%elem_of_filter. apply elem_of_filter. split; [lia|done].
  - intros Hsub. assert (Hin : h ∈ filter (fun k => (rank k <= rank x)%nat) D).
    { apply Hsub. by apply elem_of_filter. }
    apply elem_of_filter in Hin as [? _]. lia.
Qed.

Lemma below_pos D h : h ∈ D -> (1 <= below D h)%nat.
Proof.
  intros Hh. unfold below.
  assert (Hs : ({[h]} : gset N) ⊆ filter (fun k => (rank k <= rank h)%nat) D).
  { intros k ->%elem_of_singleton. by apply elem_of_filter. }
  apply subseteq_size in Hs. by rewrite size_singleton in Hs.
Qed.

Lemma below_le D h : (below D h <= size D)%nat.
Proof.
  unfold below. apply subseteq_size. intros k Hk. by apply elem_of_filter in Hk as [_ ?].
Qed.

Lemma fuel_ok_child D h x fuel :
  fuel_ok D h (S fuel) -> h ∈ D -> (rank x < rank h)%nat -> fuel_ok D x fuel.
Proof.
  intros [_ Hf] Hh Hr. specialize (Hf Hh). pose proof (below_pos D h Hh). split; [lia|].
  intros _. pose proof (below_lt D x h Hh Hr). lia.
Qed.

Lemma fuel_ok_top D h : fuel_ok D h (S (size D)).
Proof. split; [lia|]. intros _. pose proof (below_le D h). lia. Qed.

Lemma shape_sub_dom db db' (D : gset N) :
  shape_sub db db' -> dom (dirties db) ⊆ D -> dom (dirties db') ⊆ D.
Proof.
  intros Hs HD k [c' Hk]%elem_of_dom. destruct (Hs _ _ Hk) as (c & Hc & _).
  apply HD, elem_of_dom. by eexists.
Qed.

Lemma batch_ok_Write b h enc : batch_ok b -> h <> zeroHash -> batch_ok (WriteTrieNode b h enc).
Proof.
  intros Hb Hh. apply Forall_app. split; [done|]. apply Forall_singleton. by eexists _, _, _.
Qed.

Definition commit_post (db : Database) (l : list N) (r : option error * list batchop)
    (db' : Database) : Prop :=
  drop_post db l db' /\ batch_ok r.2.

Lemma commit_FL uncache (D : gset N) : forall fuel h batch db l,
  FL l ∅ db -> G db -> lock db = unlocked -> zeroHash ∉ freshNodes db ->
  batch_ok batch -> dom (dirties db) ⊆ D -> fuel_ok D h fuel ->
  post (commit fuel uncache h batch) db (commit_post db l).
Proof.
  induction fuel as [|fuel IH]; intros h batch db l HFL HG Hlock Hfresh Hb HD [Hf1 Hf];
    [lia|].
  simpl. apply outcome_bind, outcome_get.
  case_decide as Hfr; [|apply outcome_ret; split; [by apply drop_post_refl|done]].
  destruct (dirties db !! h) as [node|] eqn:Hn;
    [|apply outcome_ret; split; [by apply drop_post_refl|done]].
  assert (Hh : h <> zeroHash) by (by intros ->).
  assert (HhD : h ∈ D) by (apply HD, elem_of_dom; by eexists).
  destruct (HG _ _ Hn Hh) as (cs & Hcs & Hranks). rewrite Hcs.
  apply outcome_bind.
  assert (Hfold : forall cs s db1 l1,
    (forall x, x ∈ cs -> (rank x < rank h)%nat) ->
    FL l1 ∅ db1 -> G db1 -> lock db1 = unlocked -> zeroHash ∉ freshNodes db1 ->
    batch_ok s.2 -> dom (dirties db1) ⊆ D ->
    post (foldM (fun child (s : option error * list batchop) =>
                   match s.1 with
                   | None => commit fuel uncache child s.2
                   | Some _ => ret s
                   end) cs s) db1 (commit_post db1 l1)).
  { clear cs Hcs Hranks. induction cs as [|x cs IHcs];
      intros s db1 l1 Hr HFL1 HG1 Hl1 Hf1' Hb1 HD1; simpl.
    - apply outcome_ret. split; [by apply drop_post_refl|done].
    - apply outcome_bind.
      assert (Hx : post match s.1 with
                        | Some _ => ret s
                        | None => commit fuel uncache x s.2
                        end db1 (commit_post db1 l1)).
      { destruct s as [[e|] b]; simpl.
        - apply outcome_ret. split; [by apply drop_post_refl|done].
        - apply IH; try done. eapply fuel_ok_child; [by split|done|]. apply Hr. left. }
      eapply outcome_mono; [exact Hx| |done].
      intros s2 db2 [H2 Hb2]. pose proof H2 as (l2 & HFL2 & Hl2 & Hs2 & Hlk2 & Hfr2 & Hv2).
      eapply outcome_mono; [apply (IHcs s2 db2 l2)| |done]; try done.
      + intros y Hy. apply Hr. by right.
      + by eapply G_sub.
      + congruence.
      + by rewrite Hfr2.
      + by eapply shape_sub_dom.
      + intros s3 db3 [H3 Hb3]. split; [|done].
        eapply drop_post_trans; [exact H2|]. intros l' HFL' Hl'.
        destruct H3 as (l3 & HFL3 & Hl3 & Hrest). exists l3. split; [done|]. split; [|done].
        etrans; [exact Hl3|]. by eapply FL_unique. }
  eapply outcome_mono; [apply (Hfold cs (None, batch) db l); try done| |done].
  { intros x Hx. by apply Hranks. }
  intros r db1 [H1 Hb1]. pose proof H1 as (l1 & HFL1 & Hl1 & Hs1 & Hlk1 & Hfr1 & Hv1).
  destruct r as [[e|] b]; simpl in *; [apply outcome_ret; by split|].
  assert (Hb' : batch_ok (WriteTrieNode b h (rlp node))) by (by apply batch_ok_Write).
  case_decide; [|apply outcome_ret; by split].
  apply outcome_bind, batch_Write_spec. intros [e|] d.
  - apply outcome_ret. split; [|done].
    eapply drop_post_trans; [exact H1|]. intros l' HFL' _. by apply drop_post_same.
  - apply outcome_bind.
    eapply outcome_intro; [apply Lock_unlocked; simpl; congruence|].
    apply outcome_bind.
    eapply outcome_mono; [apply (Replay_FL uncache _ l1); [done|]| |done].
    { by eapply FL_same; [| | |exact HFL1]. }
    intros [] db3 H3. pose proof H3 as (l3 & HFL3 & Hl3 & Hs3 & Hlk3 & Hfr3 & Hv3).
    apply outcome_bind.
    eapply outcome_intro; [apply Unlock_locked; rewrite Hlk3; done|].
    apply outcome_ret. split; [|by apply Forall_nil].
    eapply drop_post_trans; [exact H1|]. intros l' HFL' Hl'.
    exists l3. split_and!.
    + by eapply FL_same; [| | |exact HFL3].
    + etrans; [exact Hl3|]. by eapply FL_unique.
    + intros k c' Hk. simpl in Hk. destruct (Hs3 _ _ Hk) as (c & Hc & Hp). simpl in Hc. eauto.
    + simpl. congruence.
    + simpl. rewrite Hfr3. done.
    + simpl. rewrite Hv3. done.
Qed.

(** [Commit] on a well-formed database returns, and what it leaves is
    well-formed. *)
Lemma Commit_FL root report uncache l db :
  FL l ∅ db -> G db -> lock db = unlocked -> zeroHash ∉ freshNodes db ->
  post (Commit root report uncache) db (fun _ db' =>
    exists l', FL l' ∅ db' /\ l' ⊆ l /\ shape_sub db db' /\ lock db' = unlocked /\
               freshNodes db' ⊆ freshNodes db /\ nodeVersion db' = nodeVersion db).
Proof.
  intros HFL HG Hlock Hfresh. unfold Commit.
  assert (Hkeep : forall (r : option error) d,
    post (ret r) (set_diskdb d db) (fun _ db' =>
      exists l', FL l' ∅ db' /\ l' ⊆ l /\ shape_sub db db' /\ lock db' = unlocked /\
                 freshNodes db' ⊆ freshNodes db /\ nodeVersion db' = nodeVersion db)).
  { intros r d. apply outcome_ret. exists l.
    split_and!; [by eapply FL_same; [| | |exact HFL]|done| |done|done|done].
    intros k c' Hk. by exists c'. }
  assert (Hid : db = set_diskdb (diskdb db) db) by (by destruct db).
  apply outcome_bind, outcome_get. apply outcome_bind.
  assert (Hpre : forall (Q : option error -> Database -> Prop),
    (forall r d, Q r (set_diskdb d db)) ->
    post
      match preimages db with
      | Some p =>
          let* r :=
            if decide (ValueSize (WritePreimages [] p) > IdealBatchSize)
            then let* w := batch_Write (WritePreimages [] p) in
                 match w with
                 | Some e => ret (Some e, WritePreimages [] p)
                 | None => ret (None, [])
                 end
            else ret (None, WritePreimages [] p) in
          match r.1 with
          | Some e => ret (Some e)
          | None => batch_Write r.2
          end
      | None => ret None
      end db Q).
  { intros Q HQ. destruct (preimages db); [|apply outcome_ret; rewrite Hid; apply HQ].
    apply outcome_bind. case_decide.
    - apply outcome_bind, batch_Write_spec. intros [e|] d; apply outcome_ret; simpl.
      + apply outcome_ret, HQ.
      + apply batch_Write_spec. intros r d'. apply HQ.
    - apply outcome_ret. simpl. apply batch_Write_spec. intros r d'. apply HQ. }
  apply Hpre. intros [e|] d1; [apply Hkeep|].
  apply outcome_bind, outcome_get. apply outcome_bind.
  assert (Hfuel : fuel_ok (dom (dirties db)) root (S (size (dirties (set_diskdb d1 db)))))
    by (simpl; rewrite <- size_dom; apply fuel_ok_top).
  set (db1 := set_diskdb d1 db) in *.
  assert (HFL1 : FL l ∅ db1) by (by eapply FL_same; [| | |exact HFL]).
  eapply outcome_mono;
    [apply (commit_FL uncache (dom (dirties db)) _ root [] db1 l); try done| |done].
  { apply Forall_nil. done. }
  intros r db2 [H2 Hb2]. pose proof H2 as (l2 & HFL2 & Hl2 & Hs2 & Hlk2 & Hfr2 & Hv2).
  assert (Hdone : forall (e : error) d, exists l',
    FL l' ∅ (set_diskdb d db2) /\ l' ⊆ l /\ shape_sub db (set_diskdb d db2) /\
    lock (set_diskdb d db2) = unlocked /\ freshNodes (set_diskdb d db2) ⊆ freshNodes db /\
    nodeVersion (set_diskdb d db2) = nodeVersion db).
  { intros _ d. exists l2. split_and!; simpl.
    - by eapply FL_same; [| | |exact HFL2].
    - done.
    - intros k c' Hk. destruct (Hs2 _ _ Hk) as (c & Hc & Hp). simpl in Hc. eauto.
    - rewrite Hlk2. exact Hlock.
    - rewrite Hfr2. subst db1. done.
    - rewrite Hv2. subst db1. done. }
  destruct r as [[e|] b]; simpl in *.
  { apply outcome_ret.
    assert (Hid2 : db2 = set_diskdb (diskdb db2) db2) by (by destruct db2).
    rewrite Hid2. by apply (Hdone e). }
  apply outcome_bind, batch_Write_spec. intros [e|] d3; [apply outcome_ret; by apply (Hdone e)|].
  apply outcome_bind.
  eapply outcome_intro; [apply Lock_unlocked; simpl; congruence|].
  apply outcome_bind.
  eapply outcome_mono; [apply (Replay_FL uncache _ l2); [done|]| |done].
  { by eapply FL_same; [| | |exact HFL2]. }
  intros [] db4 (l4 & HFL4 & Hl4 & Hs4 & Hlk4 & Hfr4 & Hv4).
  apply outcome_bind, outcome_modify. apply outcome_bind, outcome_modify.
  apply outcome_bind.
  set (db5 := match preimages db4 with
              | Some _ => set_preimagesSize 0 (set_preimages (Some ∅) db4)
              | None => db4
              end).
  assert (E5 : dirties db5 = dirties db4 /\ oldest db5 = oldest db4 /\
               newest db5 = newest db4 /\ lock db5 = lock db4 /\
               nodeVersion db5 = nodeVersion db4).
  { subst db5. by destruct (preimages db4). }
  destruct E5 as (Ed5 & Eo5 & En5 & El5 & Ev5).
  eapply outcome_intro; [apply Unlock_locked; simpl; rewrite El5, Hlk4; done|].
  apply outcome_ret. exists l4. split_and!; simpl.
  - by eapply FL_same; [| | |exact HFL4].
  - by etrans.
  - intros k c' Hk. simpl in Hk. rewrite Ed5 in Hk.
    destruct (Hs4 _ _ Hk) as (c4 & Hc4 & Hp4). simpl in Hc4.
    destruct (Hs2 _ _ Hc4) as (c & Hc & Hp). simpl in Hc. exists c. split; congruence.
  - done.
  - intros x Hx. by apply not_elem_of_empty in Hx.
  - rewrite Ev5, Hv4. simpl. by rewrite Hv2.
Qed.

(** ** The flush-list under the public pruning calls *)

Lemma Dereference_FL root budget l db :
  FL l ∅ db -> G db -> lock db = unlocked ->
  post (Dereference root budget) db (fun _ db' => drop_post db l db').
Proof.
  intros HFL HG Hlock. unfold Dereference.
  case_decide as Hroot; [apply outcome_ret; by apply drop_post_refl|].
  apply outcome_bind. eapply outcome_intro; [by apply Lock_unlocked|].
  apply outcome_bind.
  set (db1 := set_lock (mkRWMutex true 0) db).
  assert (HFL1 : FL l ∅ db1) by (by eapply FL_same; [| | |exact HFL]).
  assert (HG1 : G db1) by done.
  assert (Hemp : forall p, p ∈ (∅ : gset N) -> (rank root < rank p)%nat)
    by (intros p Hp; by apply not_elem_of_empty in Hp).
  assert (Hlt : (((∅ : gset N), budget).2 < S budget)%nat) by (simpl; lia).
  eapply outcome_mono;
    [exact (dereference_FL (S budget) root (Some cleanFn) (∅, budget) db1 l ∅
              HFL1 HG1 Hroot Hemp Hlt)| |done].
  intros s' db2 [(l' & HFL2 & Hl2 & Hs2 & Hfr2 & _) _].
  destruct Hfr2 as (_ & Hf2 & Hv2 & _ & _ & _ & Hlk2).
  eapply outcome_intro; [apply Unlock_locked; by rewrite Hlk2|].
  exists l'. split_and!; simpl; try done.
  all: try (by eapply FL_same; [| | |exact HFL2]).
  all: intros k c' Hk; destruct (Hs2 _ _ Hk) as (c & Hc & Hp); simpl in Hc; eauto.
Qed.

Lemma DereferenceDB_FL root budget l db :
  FL l ∅ db -> G db -> lock db = unlocked ->
  post (DereferenceDB root budget) db (fun _ db' => drop_post db l db').
Proof.
  intros HFL HG Hlock. unfold DereferenceDB.
  case_decide as Hroot; [apply outcome_ret; by apply drop_post_refl|].
  apply outcome_bind. eapply outcome_intro; [by apply Lock_unlocked|].
  apply outcome_bind.
  set (db1 := set_lock (mkRWMutex true 0) db).
  assert (HFL1 : FL l ∅ db1) by (by eapply FL_same; [| | |exact HFL]).
  assert (HG1 : G db1) by done.
  assert (Hemp : forall p, p ∈ (∅ : gset N) -> (rank root < rank p)%nat)
    by (intros p Hp; by apply not_elem_of_empty in Hp).
  assert (Hlt : (((∅ : gset N), budget).2 < S budget)%nat) by (simpl; lia).
  eapply outcome_mono;
    [exact (dereference_FL (S budget) root (Some uselessFn) (∅, budget) db1 l ∅
              HFL1 HG1 Hroot Hemp Hlt)| |done].
  intros s' db2 [(l' & HFL2 & Hl2 & Hs2 & Hfr2 & _) _].
  destruct Hfr2 as (_ & Hf2 & Hv2 & _ & _ & _ & Hlk2).
  apply outcome_bind.
  eapply outcome_intro; [apply Unlock_locked; by rewrite Hlk2|].
  apply outcome_modify.
  exists l'. split_and!; simpl; try done.
  all: try (by eapply FL_same; [| | |exact HFL2]).
  all: intros k c' Hk; destruct (Hs2 _ _ Hk) as (c & Hc & Hp); simpl in Hc; eauto.
Qed.

(** ** Walking the flush-list *)

(** From a hash forward along [flushNext] until the zero hash. *)
Fixpoint walk_next (fuel : nat) (d : gmap N cachedNode) (h : N) : list N :=
  match fuel with
  | O => []
  | S fuel' =>
      if decide (h = zeroHash) then []
      else h :: match d !! h with
                | Some c => walk_next fuel' d (flushNext c)
                | None => []
                end
  end.

(** From a hash backward along [flushPrev] until the zero hash. *)
Fixpoint walk_prev (fuel : nat) (d : gmap N cachedNode) (h : N) : list N :=
  match fuel with
  | O => []
  | S fuel' =>
      if decide (h = zeroHash) then []
      else h :: match d !! h with
                | Some c => walk_prev fuel' d (flushPrev c)
                | None => []
                end
  end.

Lemma walk_next_seg d : forall l prev fuel,
  seg d prev l zeroHash -> zeroHash ∉ l -> (length l < fuel)%nat ->
  walk_next fuel d (hd zeroHash l) = l.
Proof.
  induction l as [|x r IH]; intros prev fuel Hs Hz Hf;
    (destruct fuel as [|fuel]; [simpl in Hf; lia|]); simpl.
  - by rewrite ?decide_True.
  - destruct Hs as (c & Hc & _ & Hn & Hs).
    rewrite decide_False by (intros ->; apply Hz; left).
    rewrite Hc, Hn. f_equal. eapply IH; [done| |simpl in Hf; lia].
    intros ?. apply Hz. by right.
Qed.

Lemma walk_prev_seg d : forall l nxt fuel,
  seg d (Some zeroHash) l nxt -> zeroHash ∉ l -> (length l < fuel)%nat ->
  walk_prev fuel d (default zeroHash (last l)) = reverse l.
Proof.
  induction l as [|a l IH] using rev_ind; intros nxt fuel Hs Hz Hf;
    (destruct fuel as [|fuel]; [simpl in Hf; lia|]); simpl.
  - by rewrite ?decide_True.
  - rewrite last_snoc, reverse_snoc. simpl.
    apply seg_app in Hs as [Hs1 Hs2]. simpl in Hs2.
    destruct Hs2 as (c & Hc & Hp & _ & _).
    rewrite decide_False by (intros ->; apply Hz, elem_of_app; right; left).
    rewrite Hc. f_equal.
    assert (Hpc : flushPrev c = default zeroHash (last l)).
    { destruct (last l) as [y|] eqn:E; simpl in *; by apply Hp. }
    rewrite Hpc. eapply IH; [exact Hs1| |].
    + intros ?. apply Hz, elem_of_app. by left.
    + rewrite length_app in Hf. simpl in Hf. lia.
Qed.

Lemma FL_walk l db :
  FL l ∅ db -> walk_next (size (dirties db)) (dirties db) (oldest db) = l.
Proof.
  intros HFL. rewrite (fl_oldest _ _ _ HFL).
  eapply walk_next_seg; [apply (fl_seg _ _ _ HFL)|apply (fl_zero _ _ _ HFL)|].
  rewrite (FL_size _ _ HFL). lia.
Qed.

(** ** Sequences of operations *)

(** The calls the trie layer makes: [insert] and [insertFreshNode] (from
    the hasher), [IncrVersion], [Cap], [Commit] and the two pruning calls.
    The error a [Cap] or [Commit] returns goes to the caller, who carries
    on. *)
Inductive op :=
| OpInsert (hash : N) (size : Z) (n : node)
| OpInsertFresh (hash : N)
| OpIncrVersion
| OpCap (limit : Z)
| OpCommit (root : N) (report uncache : bool)
| OpDereference (root : N) (budget : nat)
| OpDereferenceDB (root : N) (budget : nat).

Definition run_op (o : op) : M unit :=
  match o with
  | OpInsert hash size n => insert hash size n
  | OpInsertFresh hash => insertFreshNode hash
  | OpIncrVersion => IncrVersion
  | OpCap limit => Cap limit >> ret tt
  | OpCommit root report uncache => Commit root report uncache >> ret tt
  | OpDereference root budget => Dereference root budget
  | OpDereferenceDB root budget => DereferenceDB root budget
  end.

Definition run_ops (ops : list op) : M unit := forEach run_op ops.

(** An operation is well-formed when the hashes embedded in an inserted
    node are non-zero and rank below the node's own hash, and the zero
    hash is never marked fresh. *)
Definition wf_op (o : op) : Prop :=
  match o with
  | OpInsert hash _ n =>
      forall sn cs, simplifyNode n = Some sn -> forGatherChildren sn = Some cs ->
                    forall x, x ∈ cs -> x <> zeroHash /\ (rank x < rank hash)%nat
  | OpInsertFresh hash => hash <> zeroHash
  | _ => True
  end.

(** The two faults a well-formed sequence can stop with: a node
    [simplifyNode] rejects, and the unlock in the error path of [Cap]. *)
Definition expected_fault (f : fault) : Prop :=
  f = RUnlockOfUnlocked \/ f = UnknownNodeType.

Definition Inv (db : Database) : Prop :=
  (exists l, FL l ∅ db) /\ G db /\ lock db = unlocked /\ zeroHash ∉ freshNodes db.

Lemma Inv_NewDatabase disk cache pre : Inv (NewDatabaseWithConfig disk cache pre).
Proof.
  split_and!; [exists []; apply FL_NewDatabase| |done|apply not_elem_of_empty].
  intros k c Hk Hne. simpl in Hk. by rewrite lookup_singleton_ne in Hk.
Qed.

Lemma Inv_drop db l db' : Inv db -> drop_post db l db' -> Inv db'.
Proof.
  intros (_ & HG & Hl & Hf) (l' & HFL & _ & Hs & Hl' & Hf' & _).
  split_and!; [by exists l'|by eapply G_sub|congruence|by rewrite Hf'].
Qed.

Lemma run_op_Inv o db :
  wf_op o -> Inv db -> outcome expected_fault (run_op o) db (fun _ db' => Inv db').
Proof.
  intros Hwf HI. pose proof HI as ([l HFL] & HG & Hlock & Hfresh).
  destruct o as [hash size n|hash| |limit|root report uncache|root budget|root budget]; simpl.
  - destruct (dirties db !! hash) as [c|] eqn:Hc.
    { eapply outcome_intro; [|done]. unfold insert. munfold. by rewrite Hc. }
    destruct (simplifyNode n) as [sn|] eqn:Hsn.
    2:{ unfold outcome, insert. munfold. rewrite Hc, Hsn. by right. }
    apply outcome_post.
    eapply outcome_mono; [by apply (insert_FL l db hash size n sn)| |done].
    intros [] db' (HFL' & _ & (e & He & Hen & Hec) & Hold & Hfr).
    destruct Hfr as (_ & Hf & _ & _ & _ & _ & Hlk).
    split_and!; [by eexists| |congruence|by rewrite Hf].
    intros k c' Hk Hk0. destruct (decide (k = hash)) as [->|Hne].
    + assert (c' = e) by congruence. subst c'.
      pose proof (simplifyNode_collapsed _ _ Hsn) as Hcol. rewrite <- Hen in Hcol.
      destruct (forGatherChildren_collapsed _ Hcol) as [cs Hcs].
      unfold forChilds, children_keys. rewrite Hec, Hcs.
      destruct (is_rawNode (cnode e)); [exists []; split; [done|]; by intros x ?%elem_of_nil|].
      exists cs. split; [done|]. rewrite Hen in Hcs. by apply (Hwf sn cs).
    + destruct (Hold _ _ Hk Hne) as (c & Hc' & Hp).
      destruct (HG _ _ Hc' Hk0) as (cs & Hcs & Hr). exists cs. split; [|done].
      unfold payload in Hp. unfold forChilds, children_keys in *.
      assert (cnode c' = cnode c) as -> by congruence.
      assert (children c' = children c) as -> by congruence. done.
  - apply outcome_modify. split_and!; try done.
    + exists l. by eapply FL_same; [| | |exact HFL].
    + simpl. intros [?%elem_of_singleton|?]%elem_of_union; [by destruct Hwf|done].
  - apply outcome_modify. split_and!; try done.
    exists l. by eapply FL_same; [| | |exact HFL].
  - apply outcome_bind.
    eapply outcome_mono; [by apply (Cap_FL l)| |by left].
    intros r db' (l' & HFL' & _ & Hs & Hl' & Hf' & _). apply outcome_ret.
    split_and!; [by exists l'|by eapply G_sub|done|by rewrite Hf'].
  - apply outcome_bind. apply outcome_post.
    eapply outcome_mono; [by apply (Commit_FL root report uncache l)| |done].
    intros r db' (l' & HFL' & _ & Hs & Hl' & Hf' & _). apply outcome_ret.
    split_and!; [by exists l'|by eapply G_sub|done|].
    intros Hin. by apply Hf' in Hin.
  - apply outcome_post.
    eapply outcome_mono; [by apply (Dereference_FL root budget l)| |done].
    intros [] db' Hd. by eapply Inv_drop.
  - apply outcome_post.
    eapply outcome_mono; [by apply (DereferenceDB_FL root budget l)| |done].
    intros [] db' Hd. by eapply Inv_drop.
Qed.

Lemma run_ops_Inv ops : forall db,
  Forall wf_op ops -> Inv db -> outcome expected_fault (run_ops ops) db (fun _ db' => Inv db').
Proof.
  induction ops as [|o ops IH]; intros db Hwf HI; simpl.
  - by apply outcome_ret.
  - apply Forall_cons in Hwf as [Ho Hwf]. apply outcome_bind.
    eapply outcome_mono; [by apply run_op_Inv| |done].
    intros [] db' HI'. by apply IH.
Qed.

(** A run of inserts. *)
Definition insert_all (items : list (N * Z * node)) : M unit :=
  forEach (fun i => insert i.1.1 i.1.2 i.2) items.

Lemma insert_all_walk items : forall l db,
  FL l ∅ db -> seg (dirties db) (Some zeroHash) l zeroHash ->
  (l = [] -> newest db = zeroHash) ->
  NoDup (l ++ items.*1.*1) -> zeroHash ∉ items.*1.*1 ->
  Forall (fun i => is_Some (simplifyNode i.2)) items ->
  post (insert_all items) db (fun _ db' =>
    FL (l ++ items.*1.*1) ∅ db' /\
    seg (dirties db') (Some zeroHash) (l ++ items.*1.*1) zeroHash /\
    (l ++ items.*1.*1 = [] -> newest db' = zeroHash)).
Proof.
  induction items as [|[[h sz] n] items IH]; intros l db HFL Hseg Hnew Hnd Hz Hok; simpl.
  - apply outcome_ret. by rewrite app_nil_r.
  - apply outcome_bind. simpl in Hnd, Hz.
    apply Forall_cons in Hok as [[sn Hsn] Hok]. simpl in Hsn.
    assert (Hhl : h ∉ l).
    { apply NoDup_app in Hnd as (_ & Hd & _). intros Hin. apply (Hd _ Hin). left. }
    assert (Hh0 : h <> zeroHash) by (intros ->; apply Hz; left).
    assert (Hnone : dirties db !! h = None).
    { destruct (dirties db !! h) eqn:E; [|done].
      destruct (proj1 (fl_keys _ _ _ HFL h)) as [?|[?|?%not_elem_of_empty]]; by eauto. }
    simpl.
    eapply outcome_mono; [by apply (insert_FL l db h sz n sn)| |done].
    intros [] db' (HFL' & Hseg' & _).
    rewrite (cons_middle h l), app_assoc in Hnd |- *.
    apply IH; try done.
    + apply Hseg'; [done|]. intros -> p [= <-]. by apply Hnew.
    + by intros [_ [=]]%app_eq_nil.
    + intros ?. apply Hz. by right.
Qed.

(** ** The flush-list is a total order of the Node Store *)

(** C4, as the code has it.  Inserting nodes that [simplifyNode] accepts
    under distinct non-zero hashes into a new database returns, and then
    the walk from [oldest] along [flushNext] visits exactly these hashes in
    insertion order and the walk from [newest] along [flushPrev] visits
    them in reverse.  And whenever the hashes embedded in the inserted nodes
    are non-zero and rank below the hash of the node that embeds them (no
    cycle of hashes) and the zero hash is not marked fresh, then after any
    sequence of insert, insertFreshNode, IncrVersion, Cap, Commit,
    Dereference and DereferenceDB calls on a new database the walk from
    [oldest] along [flushNext] visits every key of the Node Store except
    the zero hash exactly once and, when it visits any, ends in [newest];
    the sequence can only stop short in the
    panic of [simplifyNode] or in the unlock of the failing write of [Cap]. *)
Theorem flush_list_total_order (disk : Disk) (cache pre : bool)
    (items : list (N * Z * node)) (ops : list op) :
  (NoDup items.*1.*1 -> zeroHash ∉ items.*1.*1 ->
   Forall (fun i => is_Some (simplifyNode i.2)) items ->
   exists db, insert_all items (NewDatabaseWithConfig disk cache pre) = Ok tt db /\
     walk_next (size (dirties db)) (dirties db) (oldest db) = items.*1.*1 /\
     walk_prev (size (dirties db)) (dirties db) (newest db) = reverse items.*1.*1) /\
  (Forall wf_op ops ->
   outcome expected_fault (run_ops ops) (NewDatabaseWithConfig disk cache pre)
     (fun _ db =>
        NoDup (walk_next (size (dirties db)) (dirties db) (oldest db)) /\
        (forall h, h ∈ walk_next (size (dirties db)) (dirties db) (oldest db) <->
                   h <> zeroHash /\ is_Some (dirties db !! h)) /\
        (forall x, last (walk_next (size (dirties db)) (dirties db) (oldest db)) = Some x ->
                   newest db = x))).
Proof.
  split.
  - intros Hnd Hz Hok.
    destruct (post_elim _ _ _ (insert_all_walk items [] (NewDatabaseWithConfig disk cache pre)
                (FL_NewDatabase disk cache pre) I (fun _ => eq_refl) Hnd Hz Hok))
      as ([] & db & E & HFL & Hseg & Hnew).
    simpl in HFL, Hseg, Hnew. exists db. split_and!; [done|by apply FL_walk|].
    destruct (last items.*1.*1) as [x|] eqn:El.
    + rewrite (fl_newest _ _ _ HFL x El).
      replace x with (default zeroHash (last items.*1.*1)) by (by rewrite El).
      eapply walk_prev_seg; [exact Hseg|apply (fl_zero _ _ _ HFL)|].
      rewrite (FL_size _ _ HFL). lia.
    + apply last_None in El. rewrite El in *. rewrite Hnew by done.
      rewrite (FL_size _ _ HFL). done.
  - intros Hwf.
    eapply outcome_mono; [apply run_ops_Inv; [done|apply Inv_NewDatabase]| |done].
    intros [] db ([l HFL] & _). rewrite (FL_walk _ _ HFL).
    split_and!; [apply (fl_nodup _ _ _ HFL)| |apply (fl_newest _ _ _ HFL)].
    intros h. rewrite (fl_keys _ _ _ HFL h). split.
    + intros Hin. split; [|by right; left]. intros ->. by destruct (fl_zero _ _ _ HFL).
    + intros [Hh [?|[?|?%not_elem_of_empty]]]; done.
Qed.

(** ** Uncaching in Commit *)

Lemma outcome_any {A} (m : M A) db (Q : A -> Database -> Prop) :
  (forall a db', Q a db') -> outcome (fun _ => True) m db Q.
Proof. intros HQ. unfold outcome. by destruct (m db). Qed.

Lemma Commit_resets_fresh root report uncache db :
  outcome (fun _ => True) (Commit root report uncache) db
    (fun r db' => r = None -> freshNodes db' = ∅).
Proof.
  unfold Commit. apply outcome_bind, outcome_get. apply outcome_bind, outcome_any.
  intros [e|] db1; [by apply outcome_ret|].
  apply outcome_bind, outcome_get. apply outcome_bind, outcome_any.
  intros [[e|] b] db2; simpl; [by apply outcome_ret|].
  apply outcome_bind, outcome_any. intros [e|] db3; [by apply outcome_ret|].
  apply outcome_bind, outcome_any. intros [] db4.
  apply outcome_bind, outcome_any. intros [] db5.
  apply outcome_bind, outcome_modify. apply outcome_bind, outcome_modify.
  apply outcome_bind. unfold outcome, Unlock. simpl.
  destruct (writer _); [|done]. by intros _.
Qed.

(** C5, as the code has it: on a well-formed flush-list, [cleaner.Put] with
    uncache set, replaying a put for a hash that is still in the Node
    Store, returns nil, splices the hash out of the list (as oldest, newest
    or interior node), deletes its entry, lowers dirtiesSize by the hash
    length and the node size when the node has no children map, and, when
    the database has a clean cache, stores the encoded bytes there; and
    after any [Commit] that returns nil the freshNodes set is empty. *)
Theorem cleaner_Put_uncaches (l1 l2 : list N) (h : N) (ks : keyspace) (enc : list Byte.byte)
    (db : Database) (c : cachedNode) :
  (FL (l1 ++ h :: l2) ∅ db -> dirties db !! h = Some c ->
   exists db', cleaner_Put true (ks, h) enc db = Ok None db' /\
     FL (l1 ++ l2) ∅ db' /\ dirties db' !! h = None /\
     (children c = None -> dirtiesSize db' = dirtiesSize db - (HashLength + csize c)) /\
     (forall m, cleans db = Some m -> cleans db' = Some (<[h := enc]> m))) /\
  (forall root report uncache db1,
     Commit root report uncache db = Ok None db1 -> freshNodes db1 = ∅).
Proof.
  split.
  - intros HFL Hc.
    destruct (post_elim _ _ _ (cleaner_Put_uncache l1 h l2 db c ks enc HFL Hc))
      as (r & db' & E & -> & HFL' & Hnone & _ & _ & Hsz & Hcl & _).
    exists db'. split_and!; try done. intros m Hm. by rewrite Hcl, Hm.
  - intros root report uncache db1 E.
    by apply (outcome_ok _ _ _ _ _ _ (Commit_resets_fresh root report uncache db) E).
Qed.


(** What a run of well-formed operations from a new database reaches. *)
Lemma run_ops_reach ops disk cache pre db l :
  Forall wf_op ops ->
  run_ops ops (NewDatabaseWithConfig disk cache pre) = Ok tt db ->
  walk_next (size (dirties db)) (dirties db) (oldest db) = l ->
  FL l ∅ db /\ G db /\ lock db = unlocked.
Proof.
  intros Hwf E Hl.
  destruct (outcome_ok _ _ _ _ _ _ (run_ops_Inv ops _ Hwf (Inv_NewDatabase disk cache pre)) E)
    as ([l' HFL] & HG & Hlock & _).
  rewrite (FL_walk _ _ HFL) in Hl. by subst l'.
Qed.

(** ** A failed write inside the loop of Cap *)

(** C2, what the code does: when the first node of the flush-list fills
    the batch and the write of that batch fails, [Cap] does not return the
    error: no read lock is held where the loop calls [RUnlock], and the
    run stops in the fatal error of the mutex. *)
Theorem Cap_failed_write_is_fatal (limit : Z) (db : Database) (meta node : cachedNode)
    (r : list bool) :
  dirties db !! zeroHash = Some meta ->
  dirties db !! oldest db = Some node ->
  oldest db <> zeroHash ->
  preimagesSize db <= 4 * 1024 * 1024 ->
  dirtiesSize db + (Z.of_nat (size (dirties db)) - 1) * cachedNodeSize
    + (childrenSize db - children_len meta * (HashLength + 2)) > limit ->
  ValueSize (WriteTrieNode [] (oldest db) (rlp node)) >= IdealBatchSize ->
  write_faults (diskdb db) = true :: r ->
  readers (lock db) = 0%nat ->
  Cap limit db = Abort RUnlockOfUnlocked.
Proof.
  intros Hmeta Hnode Hne Hpre Htot Hsz Hw Hr.
  unfold Cap. munfold. rewrite Hmeta.
  rewrite bool_decide_eq_false_2 by lia. simpl. munfold.
  destruct (decide _) as [_|Hn]; [|by destruct Hn].
  rewrite Hnode.
  destruct (decide _) as [_|Hn]; [|by destruct Hn].
  unfold batch_Write. rewrite Hw. unfold RUnlock. simpl. by rewrite Hr.
Qed.


(** * The rest of the database interface *)

(** ** Nodes and Size *)

(** [Database.Nodes]: the hashes of the Node Store without the meta-root,
    in the order the embedding iterates the map (Go leaves it open). *)
Definition Nodes : M (list N) :=
  RLock >>
  let* db := get in
  RUnlock >>
  ret (filter (fun h => h ≠ zeroHash) (map_to_list (dirties db)).*1).

(** [Database.Size]: the size of the dirty cache with its metadata, and the
    size of the preimages. *)
Definition Size : M (Z * Z) :=
  RLock >>
  let* db := get in
  let* meta := deref zeroHash in
  RUnlock >>
  ret (dirtiesSize db + childrenSize db
       + (Z.of_nat (size (dirties db)) - 1) * cachedNodeSize
       - children_len meta * (HashLength + 2),
       preimagesSize db).

Lemma set_lock_same db : set_lock (lock db) db = db.
Proof. by destruct db. Qed.

Lemma read_locked {A} (f : Database -> A) db :
  writer (lock db) = false ->
  (RLock >> let* d := get in RUnlock >> ret (f d)) db = Ok (f (set_lock (mkRWMutex false (S (readers (lock db)))) db)) db.
Proof.
  intros Hw. unfold RLock, RUnlock. munfold. rewrite Hw. simpl.
  f_equal. destruct db as [? ? ? ? ? ? ? ? ? ? ? ? [w r]]. simpl in *. by subst.
Qed.

(** X1: [Nodes] answers, without a change to the database, every key of the
    Node Store but the zero hash, each once; on a well-formed database this
    is the flush-list up to order. *)
Theorem Nodes_are_the_dirty_hashes (db : Database) (l : list N) :
  writer (lock db) = false ->
  exists hs, Nodes db = Ok hs db /\ NoDup hs /\
    (forall h, h ∈ hs <-> h <> zeroHash /\ is_Some (dirties db !! h)) /\
    (FL l ∅ db -> hs ≡ₚ l).
Proof.
  intros Hw. eexists. split; [unfold Nodes; by rewrite read_locked|]. simpl.
  assert (Hnd : NoDup (filter (fun h => h ≠ zeroHash) (map_to_list (dirties db)).*1))
    by apply NoDup_filter, NoDup_fst_map_to_list.
  assert (Hin : forall h, h ∈ filter (fun h => h ≠ zeroHash) (map_to_list (dirties db)).*1
                          <-> h <> zeroHash /\ is_Some (dirties db !! h)).
  { intros h. rewrite list_elem_of_filter, list_elem_of_fmap. split.
    - intros [Hh [[k c] [-> Hk%elem_of_map_to_list]]]. by eauto.
    - intros [Hh [c Hc]]. split; [done|]. exists (h, c). split; [done|].
      by apply elem_of_map_to_list. }
  split_and!; [done|done|].
  intros HFL. apply NoDup_Permutation; [done|apply (fl_nodup _ _ _ HFL)|].
  intros h. rewrite Hin, (fl_keys _ _ _ HFL h). split.
  - intros [Hh [?|[?|?%not_elem_of_empty]]]; done.
  - intros Hl. split; [|by right; left]. intros ->. by destruct (fl_zero _ _ _ HFL).
Qed.

(** X2: A [Cap] whose limit is not below what [Size] reports, with the
    preimages below their threshold, writes no node and evicts none: the
    disk holds what it held and all that can change in the Node Store is
    the back link of the oldest node, which is reset. *)
Theorem Cap_at_Size_keeps_nodes (limit total pre : Z) (db : Database) :
  lock db = unlocked ->
  Size db = Ok (total, pre) db ->
  total <= limit -> pre <= 4 * 1024 * 1024 ->
  oldest db = zeroHash \/ is_Some (dirties db !! oldest db) ->
  exists r db', Cap limit db = Ok r db' /\
    db' = set_dirties (dirties db') (set_diskdb (diskdb db') db) /\
    kv (diskdb db') = kv (diskdb db) /\
    (forall h, dirties db' !! h = dirties db !! h \/
               (h = oldest db /\ dirties db' !! h = set_flushPrev zeroHash <$> dirties db !! h)).
Proof.
  intros Hlock HS Htot Hpre Hold.
  unfold Size, RLock, RUnlock in HS. revert HS. munfold. rewrite Hlock. simpl.
  destruct (dirties db !! zeroHash) as [meta|] eqn:Hmeta; [|done]. simpl.
  intros [= <- <- _].
  unfold Cap. munfold. rewrite Hmeta.
  rewrite bool_decide_eq_false_2 by lia. simpl. munfold.
  destruct (decide _) as [[Hgt _]|_]; [lia|].
  unfold batch_Write. simpl.
  destruct (write_faults (diskdb db)) as [|[] fs]; simpl.
  2:{ eexists _, _. split; [done|]. simpl. split_and!; [clear -Hlock; destruct db; simpl in *; by subst|done|by left]. }
  all: unfold Lock, Unlock; simpl; rewrite Hlock; simpl.
  all: destruct (decide (oldest db ≠ oldest db)) as [Hn|_]; [by destruct Hn|]; simpl.
  all: destruct (decide (oldest db ≠ zeroHash)) as [Hne|He]; simpl.
  all: try (destruct Hold as [Hz|[c Hc]]; [done|]; rewrite Hc; simpl).
  all: eexists _, _; (split; [done|]); simpl; (split_and!; [clear -Hlock; destruct db; simpl in *; by subst|done|]).
  all: intros h; try (by left).
  all: destruct (decide (h = oldest db)) as [->|Hh];
    [right; split; [done|]; by rewrite lookup_insert_eq, Hc
    |left; by rewrite lookup_insert_ne].
Qed.


(** ** CapNode *)

(** The first loop of [CapNode]: walk the flush-list from its head while
    the estimate is above the limit; it yields the hash it stops at. *)
Fixpoint CapNode_scan (fuel : nat) (limit size : Z) (oldest : N) : M N :=
  match fuel with
  | O => abort OutOfFuel
  | S fuel' =>
      if decide (size > limit ∧ oldest ≠ zeroHash) then
        let* node := deref oldest in
        CapNode_scan fuel' limit (size - (3 * HashLength + csize node)) (flushNext node)
      else ret oldest
  end.

(** The second loop of [CapNode]: drop the nodes before the stop. *)
Fixpoint CapNode_evict (fuel : nat) (stop : N) : M unit :=
  match fuel with
  | O => abort OutOfFuel
  | S fuel' =>
      let* db := get in
      if decide (oldest db ≠ stop) then
        let* node := deref (oldest db) in
        modify (fun db => set_oldest (flushNext node)
                            (set_dirties (delete (oldest db) (dirties db)) db)) >>
        modify (fun db => set_dirtiesSize (dirtiesSize db - (HashLength + csize node)) db) >>
        CapNode_evict fuel' stop
      else ret tt
  end.

(** [Database.CapNode] *)
Definition CapNode (limit : Z) : M unit :=
  RLock >>
  let* db := get in
  let total := dirtiesSize db + (Z.of_nat (size (dirties db)) - 1) * 2 * HashLength in
  let* stop := CapNode_scan (S (size (dirties db))) limit total (oldest db) in
  RUnlock >>
  Lock >>
  let* db := get in
  CapNode_evict (S (size (dirties db))) stop >>
  Unlock.

(** The size of the entry under a hash, zero when there is none. *)
Definition node_size (d : gmap N cachedNode) (h : N) : Z :=
  default 0 (csize <$> d !! h).

(** What [dirtiesSize] counts for the hashes of a list. *)
Definition flushed_size (d : gmap N cachedNode) (l : list N) : Z :=
  foldr (fun h acc => HashLength + node_size d h + acc) 0 l.

(** The estimate of [CapNode] once the hashes of [la] are taken off. *)
Definition CapNode_estimate (db : Database) (la : list N) : Z :=
  dirtiesSize db + (Z.of_nat (size (dirties db)) - 1) * 2 * HashLength
  - (flushed_size (dirties db) la + 2 * HashLength * Z.of_nat (length la)).

Lemma flushed_size_ext d d' l :
  (forall h, h ∈ l -> d' !! h = d !! h) -> flushed_size d' l = flushed_size d l.
Proof.
  induction l as [|x l IH]; intros He; simpl; [done|].
  unfold node_size. rewrite He by left. rewrite IH; [done|].
  intros h Hh. apply He. by right.
Qed.

Lemma CapNode_scan_spec limit : forall l2 fuel size db prev,
  seg (dirties db) prev l2 zeroHash -> zeroHash ∉ l2 -> (length l2 < fuel)%nat ->
  exists la lb, l2 = la ++ lb /\
    CapNode_scan fuel limit size (hd zeroHash l2) db = Ok (hd zeroHash lb) db /\
    (lb <> [] ->
     size - (flushed_size (dirties db) la + 2 * HashLength * Z.of_nat (length la)) <= limit) /\
    (forall k, (k < length la)%nat ->
       size - (flushed_size (dirties db) (take k la)
               + 2 * HashLength * Z.of_nat (length (take k la))) > limit).
Proof.
  induction l2 as [|x r IH]; intros fuel size db prev Hseg Hz Hfuel;
    (destruct fuel as [|fuel]; [simpl in Hfuel; lia|]); simpl.
  - destruct (decide _) as [[_ ?]|_]; [done|].
    exists [], []. split_and!; [done|done|done|]. simpl. intros k Hk. lia.
  - destruct Hseg as (cx & Hcx & _ & Hnx & Hseg).
    assert (Hx0 : x <> zeroHash) by (intros ->; apply Hz; left).
    assert (Hz' : zeroHash ∉ r) by (intros ?; apply Hz; by right).
    destruct (decide _) as [[Hgt _]|Hstop].
    + unfold deref, bind. rewrite Hcx, Hnx.
      destruct (IH fuel (size - (3 * HashLength + csize cx)) db (Some x) Hseg Hz')
        as (la & lb & -> & E & Hle & Hgt'); [simpl in Hfuel; lia|].
      exists (x :: la), lb. split_and!; [done|done| |].
      * intros Hlb. specialize (Hle Hlb). simpl.
        unfold node_size at 1. rewrite Hcx. simpl. unfold HashLength in *. lia.
      * intros [|k] Hk; simpl; [lia|].
        simpl in Hk. specialize (Hgt' k ltac:(lia)).
        unfold node_size at 1. rewrite Hcx. simpl. unfold HashLength in *. lia.
    + exists [], (x :: r). split_and!; [done|done| |].
      * intros _. simpl. apply not_and_l in Hstop as [?|?]; [lia|done].
      * simpl. intros k Hk. lia.
Qed.

Lemma CapNode_evict_spec : forall la fuel lb db,
  FL (la ++ lb) ∅ db -> (length la < fuel)%nat ->
  post (CapNode_evict fuel (hd zeroHash lb)) db (fun _ db' =>
    FL lb ∅ db' /\
    (forall h, dirties db' !! h = if decide (h ∈ la) then None else dirties db !! h) /\
    dirtiesSize db' = dirtiesSize db - flushed_size (dirties db) la /\
    frame_core db db' /\ cleans db' = cleans db /\ childrenSize db' = childrenSize db /\
    newest db' = newest db).
Proof.
  induction la as [|x la IH]; intros fuel lb db HFL Hfuel;
    (destruct fuel as [|fuel]; [simpl in Hfuel; lia|]); simpl.
  - apply outcome_bind, outcome_get. simpl in HFL.
    destruct (decide _) as [Hne|_]; [destruct Hne; apply (fl_oldest _ _ _ HFL)|].
    apply outcome_ret. split_and!; try done. lia.
  - apply outcome_bind, outcome_get.
    pose proof HFL as [Hnd Hz Hpend Hkeys Hseg Hold Hnew]. simpl in *.
    apply NoDup_cons in Hnd as [Hx Hnd].
    assert (Hx0 : x <> zeroHash) by (intros ->; apply Hz; left).
    assert (Hstop : oldest db <> hd zeroHash lb).
    { rewrite Hold. destruct lb as [|y lb]; simpl; [done|].
      intros ->. apply Hx. apply elem_of_app. right. left. }
    destruct (decide _) as [_|Hne]; [|done].
    destruct Hseg as (cx & Hcx & _ & Hnx & Hseg).
    apply outcome_bind. rewrite Hold. eapply outcome_deref; [done|].
    apply outcome_bind, outcome_modify. apply outcome_bind, outcome_modify.
    set (db1 := set_dirtiesSize (dirtiesSize db - (HashLength + csize cx))
                  (set_oldest (flushNext cx) (set_dirties (delete x (dirties db)) db))).
    assert (HFL1 : FL (la ++ lb) ∅ db1).
    { constructor; simpl; try done.
      - intros ?; apply Hz; by right.
      - intros k. destruct (decide (x = k)) as [<-|Hne].
        + rewrite lookup_delete_eq. split; [by intros [? ?]|].
          intros [?|[?|?%not_elem_of_empty]]; done.
        + rewrite lookup_delete_ne by done. rewrite Hkeys, elem_of_cons. intuition congruence.
      - eapply seg_ext; [|eapply seg_prev_weaken; exact Hseg].
        intros k Hk. rewrite lookup_delete_ne; [done|]. by intros <-.
      - intros y Hy. apply Hnew. rewrite last_cons, Hy. done. }
    simpl. rewrite Hold. fold db1.
    eapply outcome_mono; [apply (IH fuel lb db1 HFL1)| |done]; [simpl in Hfuel; lia|].
    intros [] db' (HFL' & Hlk & Hsz & Hfr & Hcl & Hch & Hnw).
    split_and!; try done.
    + intros h. rewrite Hlk. simpl.
      destruct (decide (h ∈ la)) as [Hin|Hin].
      * rewrite decide_True; [done|by right].
      * destruct (decide (h = x)) as [->|Hne].
        -- rewrite decide_True by left. by rewrite lookup_delete_eq.
        -- rewrite decide_False; [by rewrite lookup_delete_ne|].
           intros [?|?]%elem_of_cons; done.
    + rewrite Hsz. simpl. unfold node_size at 1. rewrite Hcx. simpl.
      rewrite (flushed_size_ext (dirties db) (delete x (dirties db)) la); [lia|].
      intros h Hh. rewrite lookup_delete_ne; [done|]. intros <-.
      apply Hx. apply elem_of_app. by left.
Qed.

(** X6: [CapNode] on a well-formed database returns after dropping a prefix of
    the flush-list from the Node Store: the shortest one that brings its
    estimate down to the limit, the whole list when none does.  The dropped
    nodes are not written anywhere: the disk and the clean cache are as
    they were, [dirtiesSize] goes down by what the dropped nodes counted
    and [childrenSize] is not touched. *)
Theorem CapNode_drops_a_prefix (limit : Z) (db : Database) (l : list N) :
  FL l ∅ db -> lock db = unlocked ->
  exists la lb db', l = la ++ lb /\ CapNode limit db = Ok tt db' /\
    FL lb ∅ db' /\
    (forall h, dirties db' !! h = if decide (h ∈ la) then None else dirties db !! h) /\
    dirtiesSize db' = dirtiesSize db - flushed_size (dirties db) la /\
    diskdb db' = diskdb db /\ cleans db' = cleans db /\
    childrenSize db' = childrenSize db /\ lock db' = unlocked /\
    (lb <> [] -> CapNode_estimate db la <= limit) /\
    (forall k, (k < length la)%nat -> CapNode_estimate db (take k la) > limit).
Proof.
  intros HFL Hlock.
  set (db0 := set_lock (mkRWMutex false 1) db).
  destruct (CapNode_scan_spec limit l (S (size (dirties db)))
              (dirtiesSize db + (Z.of_nat (size (dirties db)) - 1) * 2 * HashLength)
              db0 None (fl_seg _ _ _ HFL) (fl_zero _ _ _ HFL))
    as (la & lb & -> & Escan & Hle & Hgt); [rewrite (FL_size _ _ HFL); lia|].
  set (db1 := set_lock (mkRWMutex true 0) db).
  assert (HFL1 : FL (la ++ lb) ∅ db1) by (by eapply FL_same; [| | |exact HFL]).
  destruct (post_elim _ _ _ (CapNode_evict_spec la (S (size (dirties db))) lb db1 HFL1
              ltac:(rewrite (FL_size _ _ HFL), length_app; lia)))
    as ([] & db2 & Eev & HFL2 & Hlk & Hsz & Hfr & Hcl & Hch & _).
  destruct Hfr as (Hd & _ & _ & _ & _ & _ & Hl2).
  exists la, lb, (set_lock unlocked db2). split_and!; try done.
  - rewrite <- (fl_oldest _ _ _ HFL) in Escan.
    assert (H : post (CapNode limit) db (fun _ db' => db' = set_lock unlocked db2)).
    { unfold CapNode. apply outcome_bind.
      eapply (outcome_intro _ _ _ tt db0); [unfold RLock; by rewrite Hlock|].
      apply outcome_bind, outcome_get. apply outcome_bind.
      eapply outcome_intro; [exact Escan|].
      apply outcome_bind.
      eapply (outcome_intro _ _ _ tt db); [unfold RUnlock; simpl; f_equal;
                                           clear -Hlock; destruct db; simpl in *; by subst|].
      apply outcome_bind.
      eapply (outcome_intro _ _ _ tt db1); [by apply Lock_unlocked|].
      apply outcome_bind, outcome_get. apply outcome_bind.
      eapply outcome_intro; [exact Eev|].
      eapply outcome_intro; [apply Unlock_locked; by rewrite Hl2|done]. }
    apply post_elim in H as ([] & db' & E & ->). done.
  - by eapply FL_same; [| | |exact HFL2].
Qed.


(** ** The pending disk clean-up *)

(** [Database.uselessTotal], [Database.UselessSize], [Database.ResetUseless] *)
Definition uselessTotal : M Z :=
  RLock >>
  let* db := get in
  RUnlock >>
  ret (foldl (fun sum (m : gset N) => sum + Z.of_nat (size m)) 0 (useless db)).

Definition UselessSize (db : Database) : Z := Z.of_nat (length (useless db)).

Definition ResetUseless : M unit :=
  Lock >> modify (set_useless []) >> Unlock.

(** The inner loop of [UselessGC]: queue the deletion of every key of one
    set that is not in the Node Store; the batch is written out (whatever
    the write answers) and reset whenever it has grown over the ideal
    size. *)
Fixpoint UselessGC_keys (ks : list N) (batch : list batchop) : M (list batchop) :=
  match ks with
  | [] => ret batch
  | k :: r =>
      let* db := get in
      let batch := match dirties db !! k with
                   | None => batch ++ [BDelete (TrieNodeKey, k)]
                   | Some _ => batch
                   end in
      let* batch := if decide (ValueSize batch > IdealBatchSize)
                    then batch_Write batch >> ret []
                    else ret batch in
      UselessGC_keys r batch
  end.

(** The outer loop: the sets in order, until [num] of them are done. *)
Fixpoint UselessGC_sets (num total : Z) (sets : list (gset N)) (batch : list batchop)
  : M (Z * list batchop) :=
  match sets with
  | [] => ret (total, batch)
  | m :: r =>
      if decide (total >= num) then ret (total, batch)
      else
        let* batch := UselessGC_keys (elements m) batch in
        UselessGC_sets num (total + 1) r batch
  end.

(** [Database.UselessGC] *)
Definition UselessGC (num : Z) : M unit :=
  Lock >>
  let* db := get in
  let* r := UselessGC_sets num 0 (useless db) [] in
  modify (set_useless (drop (Z.to_nat r.1) (useless db))) >>
  batch_Write r.2 >>
  Unlock.

(** A batch of deletions of trie nodes whose hashes satisfy [S]. *)
Definition deletes (S : N -> Prop) (b : list batchop) : Prop :=
  Forall (fun o => exists k, o = BDelete (TrieNodeKey, k) /\ S k) b.

Lemma apply_batch_deletes S : forall b m key,
  deletes S b ->
  (m !! key = None -> apply_batch b m !! key = None) /\
  (BDelete key ∈ b -> apply_batch b m !! key = None) /\
  (apply_batch b m !! key = m !! key \/
   (apply_batch b m !! key = None /\ exists k, key = (TrieNodeKey, k) /\ S k)).
Proof.
  unfold apply_batch.
  induction b as [|o b IH]; intros m key Hb; simpl.
  - split_and!; [done|by intros ?%elem_of_nil|by left].
  - apply Forall_cons in Hb as [(k & -> & Hk) Hb]. simpl.
    destruct (IH (delete (TrieNodeKey, k) m) key Hb) as (H1 & H2 & H3).
    destruct (decide (key = (TrieNodeKey, k))) as [->|Hne].
    + rewrite lookup_delete_eq in H1, H3. split_and!.
      * intros _. by apply H1.
      * intros _. by apply H1.
      * right. split; [by apply H1|by eauto].
    + rewrite lookup_delete_ne in H1, H3 by done. split_and!; [done| |done].
      intros [[=]|Hin]%elem_of_cons; [congruence|by apply H2].
Qed.

(** The state of the sweep: the pending batch and the store, given the
    Node Store [dirt], the store [kv0] the sweep began with and the hashes
    [S] looked at so far; [NF] says that no write of the sweep is refused. *)
Definition gc_inv (dirt : gmap N cachedNode) (kv0 : gmap (keyspace * N) (list Byte.byte))
    (NF : Prop) (S : N -> Prop) (batch : list batchop) (d : Disk) : Prop :=
  deletes (fun k => S k /\ dirt !! k = None) batch /\
  (forall key, kv d !! key = kv0 !! key \/
     (kv d !! key = None /\ exists k, key = (TrieNodeKey, k) /\ S k /\ dirt !! k = None)) /\
  (NF -> Forall (eq false) (write_faults d) /\
         forall k, S k -> dirt !! k = None ->
                   kv d !! (TrieNodeKey, k) = None \/ BDelete (TrieNodeKey, k) ∈ batch).

Lemma gc_inv_mono dirt kv0 NF (S S' : N -> Prop) batch d :
  (forall k, S k -> S' k) -> (forall k, S' k -> S k \/ is_Some (dirt !! k)) ->
  gc_inv dirt kv0 NF S batch d -> gc_inv dirt kv0 NF S' batch d.
Proof.
  intros HS HS' (Hb & Hkv & Hnf). split_and!.
  - eapply Forall_impl; [exact Hb|]. intros o (k & -> & ? & ?). by eauto.
  - intros key. destruct (Hkv key) as [?|(? & k & ? & ? & ?)]; [by left|right; by eauto 6].
  - intros H. destruct (Hnf H) as [Hf Hd]. split; [done|].
    intros k Hk Hnone. destruct (HS' k Hk) as [?|[c Hc]]; [by auto|congruence].
Qed.

Lemma gc_inv_write dirt kv0 NF S batch db :
  gc_inv dirt kv0 NF S batch (diskdb db) ->
  post (batch_Write batch) db (fun _ db' =>
    exists d, db' = set_diskdb d db /\ gc_inv dirt kv0 NF S [] d).
Proof.
  intros (Hb & Hkv & Hnf). unfold outcome, batch_Write.
  destruct (write_faults (diskdb db)) as [|[] fs] eqn:Ef; simpl.
  - eexists. split; [done|]. split_and!; simpl; [by apply Forall_nil| |].
    + intros key.
      destruct (apply_batch_deletes _ batch (kv (diskdb db)) key Hb) as (H1 & _ & [E|[E Hk]]).
      * rewrite E. apply Hkv.
      * right. split; [done|]. destruct Hk as (k & ? & ? & ?). by eauto.
    + intros H. destruct (Hnf H) as [_ Hd]. split; [by apply Forall_nil|].
      intros k Hk Hnone. left.
      destruct (apply_batch_deletes _ batch (kv (diskdb db)) (TrieNodeKey, k) Hb)
        as (H1 & H2 & _).
      destruct (Hd k Hk Hnone); auto.
  - eexists. split; [done|]. split_and!; simpl; [by apply Forall_nil|done|].
    intros H. destruct (Hnf H) as [Hf _]. by apply Forall_cons in Hf as [[=] _].
  - eexists. split; [done|]. split_and!; simpl; [by apply Forall_nil| |].
    + intros key.
      destruct (apply_batch_deletes _ batch (kv (diskdb db)) key Hb) as (H1 & _ & [E|[E Hk]]).
      * rewrite E. apply Hkv.
      * right. split; [done|]. destruct Hk as (k & ? & ? & ?). by eauto.
    + intros H. destruct (Hnf H) as [Hf Hd]. split; [by apply Forall_cons in Hf as [_ ?]|].
      intros k Hk Hnone. left.
      destruct (apply_batch_deletes _ batch (kv (diskdb db)) (TrieNodeKey, k) Hb)
        as (H1 & H2 & _).
      destruct (Hd k Hk Hnone); auto.
Qed.

Lemma UselessGC_keys_spec dirt kv0 NF : forall ks (S : N -> Prop) batch db,
  dirties db = dirt ->
  gc_inv dirt kv0 NF S batch (diskdb db) ->
  post (UselessGC_keys ks batch) db (fun b' db' =>
    exists d, db' = set_diskdb d db /\
              gc_inv dirt kv0 NF (fun k => S k \/ k ∈ ks) b' d).
Proof.
  induction ks as [|k ks IH]; intros S batch db Hd Hinv; simpl.
  - apply outcome_ret. exists (diskdb db). split; [by destruct db|].
    eapply gc_inv_mono; [| |exact Hinv]; [by left|].
    intros k [?|?%elem_of_nil]; by auto.
  - apply outcome_bind, outcome_get. apply outcome_bind.
    set (batch1 := match dirties db !! k with
                   | Some _ => batch
                   | None => batch ++ [BDelete (TrieNodeKey, k)]
                   end).
    assert (Hinv1 : gc_inv dirt kv0 NF (fun x => S x \/ x = k) batch1 (diskdb db)).
    { destruct Hinv as (Hb & Hkv & Hnf). subst batch1. rewrite Hd. split_and!.
      - destruct (dirt !! k) eqn:Hk.
        + eapply Forall_impl; [exact Hb|]. intros o (x & -> & ? & ?). by eauto.
        + apply Forall_app. split.
          * eapply Forall_impl; [exact Hb|]. intros o (x & -> & ? & ?). by eauto.
          * apply Forall_singleton. by eauto.
      - intros key. destruct (Hkv key) as [?|(? & x & ? & ? & ?)]; [by left|right; by eauto 7].
      - intros H. destruct (Hnf H) as [Hf Hdone]. split; [done|].
        intros x [Hx| ->] Hnone.
        + destruct (Hdone x Hx Hnone) as [?|Hin]; [by left|right].
          destruct (dirt !! k); [done|]. apply elem_of_app. by left.
        + right. rewrite Hnone. apply elem_of_app. right. by apply list_elem_of_singleton. }
    assert (Hcont : forall b1 db1, (exists d, db1 = set_diskdb d db /\
                       gc_inv dirt kv0 NF (fun x => S x \/ x = k) b1 d) ->
              post (UselessGC_keys ks b1) db1 (fun b' db' =>
                exists d, db' = set_diskdb d db /\
                          gc_inv dirt kv0 NF (fun x => S x \/ x ∈ k :: ks) b' d)).
    { intros b1 db1 (d & -> & Hi).
      eapply outcome_mono; [apply (IH (fun x => S x \/ x = k) b1 (set_diskdb d db)); [done|exact Hi]| |done].
      intros b' db' (d' & -> & Hi'). exists d'. split; [by destruct db|].
      eapply gc_inv_mono; [| |exact Hi'].
      - intros x [[?| ->]|?]; [by left|right; left|right; by right].
      - intros x [?|[ ->|?]%elem_of_cons]; left; auto. }
    destruct (decide _).
    + apply outcome_bind. eapply outcome_mono; [by apply gc_inv_write| |done].
      intros r db1 H. apply outcome_ret. by apply Hcont.
    + apply outcome_ret. apply Hcont. exists (diskdb db). split; [by destruct db|done].
Qed.

Lemma UselessGC_sets_spec dirt kv0 NF num : forall sets (S : N -> Prop) total batch db,
  dirties db = dirt ->
  gc_inv dirt kv0 NF S batch (diskdb db) ->
  post (UselessGC_sets num total sets batch) db (fun r db' =>
    exists d, db' = set_diskdb d db /\
      r.1 = total + Z.of_nat (length sets `min` Z.to_nat (num - total)) /\
      gc_inv dirt kv0 NF
        (fun k => S k \/ exists m, m ∈ take (length sets `min` Z.to_nat (num - total)) sets /\ k ∈ m)
        r.2 d).
Proof.
  induction sets as [|m sets IH]; intros S total batch db Hd Hinv; cbn [UselessGC_sets].
  - apply outcome_ret. exists (diskdb db). split_and!; [by destruct db|simpl; lia|].
    eapply gc_inv_mono; [| |exact Hinv]; [by left|].
    intros k [?|(x & ?%elem_of_nil & _)]; by auto.
  - destruct (decide (total >= num)) as [Hge|Hlt].
    + apply outcome_ret. exists (diskdb db).
      replace (Z.to_nat (num - total)) with O by lia. rewrite Nat.min_0_r.
      split_and!; [by destruct db|simpl; lia|]. rewrite take_0.
      eapply gc_inv_mono; [| |exact Hinv]; [by left|].
      intros k [?|(x & ?%elem_of_nil & _)]; by auto.
    + apply outcome_bind.
      eapply outcome_mono; [by apply (UselessGC_keys_spec dirt kv0 NF (elements m) S batch db)| |done].
      intros b1 db1 (d1 & -> & Hi1).
      eapply outcome_mono; [apply (IH (fun k => S k \/ k ∈ elements m) (total + 1) b1 (set_diskdb d1 db));
                           [done|exact Hi1]| |done].
      intros r db' (d' & -> & Hr & Hi').
      replace (Z.to_nat (num - total)) with (Datatypes.S (Z.to_nat (num - (total + 1)))) by lia.
      cbn [length]. rewrite <- Nat.succ_min_distr. rewrite firstn_cons.
      exists d'. split_and!; [by destruct db|lia|].
      eapply gc_inv_mono; [| |exact Hi'].
      * intros k [[?|Hk%elem_of_elements]|(x & Hx & Hkx)]; [by left|right..].
        -- exists m. split; [left|done].
        -- exists x. split; [by right|done].
      * intros k [?|(x & [->|Hx]%elem_of_cons & Hkx)]; left.
        -- left. by left.
        -- left. right. by apply elem_of_elements.
        -- right. by eauto.
Qed.

(** X7: [UselessGC] with the lock free returns after taking the first [num]
    sets (all of them when there are fewer, none when [num] is not
    positive) off the pending clean-up, and changes nothing else but the
    disk.  On disk it only deletes, and only trie nodes whose hash is in
    one of those sets and not in the Node Store: a node that is in the Node
    Store keeps its disk copy.  When the disk refuses no write, every hash
    of those sets that is not in the Node Store is gone from the disk. *)
Theorem UselessGC_sweeps (num : Z) (db : Database) :
  lock db = unlocked ->
  exists db', UselessGC num db = Ok tt db' /\
    useless db' = drop (Z.to_nat num) (useless db) /\
    db' = set_useless (useless db') (set_diskdb (diskdb db') db) /\
    (forall key, kv (diskdb db') !! key = kv (diskdb db) !! key \/
       (kv (diskdb db') !! key = None /\
        exists k m, key = (TrieNodeKey, k) /\ m ∈ take (Z.to_nat num) (useless db) /\
                    k ∈ m /\ dirties db !! k = None)) /\
    (Forall (eq false) (write_faults (diskdb db)) ->
     forall k m, m ∈ take (Z.to_nat num) (useless db) -> k ∈ m -> dirties db !! k = None ->
                 kv (diskdb db') !! (TrieNodeKey, k) = None).
Proof.
  intros Hlock.
  set (NF := Forall (eq false) (write_faults (diskdb db))).
  set (db1 := set_lock (mkRWMutex true 0) db).
  assert (Hinv0 : gc_inv (dirties db) (kv (diskdb db)) NF (fun _ => False) [] (diskdb db1)).
  { split_and!; [by apply Forall_nil|by left|]. intros H. split; [exact H|done]. }
  assert (Htake : forall n, (length (useless db) `min` n)%nat = n \/
                            ((length (useless db) <= n)%nat /\
                             (length (useless db) `min` n)%nat = length (useless db))) by lia.
  assert (H : post (UselessGC num) db (fun _ db' =>
    exists d, db' = set_useless (drop (Z.to_nat num) (useless db)) (set_diskdb d db) /\
      gc_inv (dirties db) (kv (diskdb db)) NF
        (fun k => exists m, m ∈ take (Z.to_nat num) (useless db) /\ k ∈ m) [] d)).
  { unfold UselessGC. apply outcome_bind.
    eapply (outcome_intro _ _ _ tt db1); [by apply Lock_unlocked|].
    apply outcome_bind, outcome_get. apply outcome_bind.
    eapply outcome_mono;
      [apply (UselessGC_sets_spec (dirties db) (kv (diskdb db)) NF num (useless db)
                (fun _ => False) 0 [] db1); [done|exact Hinv0]| |done].
    intros r db2 (d2 & -> & Hr & Hi2). rewrite Z.sub_0_r in Hr, Hi2.
    apply outcome_bind, outcome_modify. apply outcome_bind.
    assert (Hi2' : gc_inv (dirties db) (kv (diskdb db)) NF
              (fun k => exists m, m ∈ take (Z.to_nat num) (useless db) /\ k ∈ m) r.2 d2).
    { eapply gc_inv_mono; [| |exact Hi2].
      - intros k [[]|(m & Hm & Hk)]. exists m. split; [|done].
        destruct (Htake (Z.to_nat num)) as [E|[Hle E]]; rewrite E in Hm; [done|].
        rewrite firstn_all in Hm. by rewrite take_ge.
      - intros k (m & Hm & Hk). left. right. exists m. split; [|done].
        destruct (Htake (Z.to_nat num)) as [E|[Hle E]]; rewrite E; [done|].
        rewrite firstn_all. by rewrite take_ge in Hm. }
    eapply outcome_mono; [apply gc_inv_write; exact Hi2'| |done].
    intros w db3 (d3 & -> & Hi3).
    eapply outcome_intro; [apply Unlock_locked; done|].
    exists d3. split; [|done]. simpl. rewrite Hr.
    replace (Z.to_nat (0 + Z.of_nat (length (useless db) `min` Z.to_nat num)))
      with (length (useless db) `min` Z.to_nat num)%nat by lia.
    assert (Hdrop : drop (length (useless db) `min` Z.to_nat num) (useless db)
                    = drop (Z.to_nat num) (useless db)).
    { destruct (Htake (Z.to_nat num)) as [E|[Hle E]]; rewrite E; [done|].
      by rewrite drop_all, drop_ge. }
    rewrite Hdrop. clear -Hlock. destruct db; simpl in *; by subst. }
  apply post_elim in H as ([] & db' & E & d & -> & Hb & Hkv & Hnf).
  exists (set_useless (drop (Z.to_nat num) (useless db)) (set_diskdb d db)).
  split_and!; [done|done|done| |].
  - intros key. destruct (Hkv key) as [?|(? & k & ? & (m & ? & ?) & ?)]; [by left|].
    right. split; [done|]. by exists k, m.
  - intros Hf k m Hm Hk Hnone. destruct (Hnf Hf) as [_ Hd].
    destruct (Hd k (ex_intro _ m (conj Hm Hk)) Hnone) as [?|?%elem_of_nil]; done.
Qed.


(** ** What DereferenceDB records *)

(** Every hash in the accumulator of the [DereferenceDB] closure was there
    before or belongs to an entry that was removed and is not a raw blob. *)
Definition recorded (db : Database) (s s' : gset N * nat) (db' : Database) : Prop :=
  shape_sub db db' /\
  forall k, k ∈ s'.1 ->
    k ∈ s.1 \/ exists c, dirties db !! k = Some c /\ is_rawNode (cnode c) = false /\
                         dirties db' !! k = None.

Lemma recorded_same db s s' : s.1 = s'.1 -> recorded db s s' db.
Proof. intros E. split; [apply shape_sub_refl|]. intros k Hk. left. by rewrite E. Qed.

Lemma shape_sub_None db db' k : shape_sub db db' -> dirties db !! k = None -> dirties db' !! k = None.
Proof.
  intros Hs Hk. destruct (dirties db' !! k) as [c'|] eqn:E; [|done].
  destruct (Hs _ _ E) as (c & Hc & _). congruence.
Qed.

Lemma recorded_trans db1 s1 db2 s2 db3 s3 :
  recorded db1 s1 s2 db2 -> recorded db2 s2 s3 db3 -> recorded db1 s1 s3 db3.
Proof.
  intros [Hs12 H12] [Hs23 H23]. split; [by eapply shape_sub_trans|].
  intros k Hk. destruct (H23 k Hk) as [Hk2|(c2 & Hc2 & Hraw & Hnone)].
  - destruct (H12 k Hk2) as [?|(c & Hc & Hraw & Hnone)]; [by left|right].
    exists c. split_and!; [done|done|by eapply shape_sub_None].
  - right. destruct (Hs12 _ _ Hc2) as (c & Hc & Hp). exists c. split_and!; [done| |done].
    unfold payload in Hp. by replace (cnode c) with (cnode c2) by congruence.
Qed.

Lemma recorded_frame db s s' d d' :
  dirties d' = dirties d -> recorded db s s' d -> recorded db s s' d'.
Proof.
  intros E [Hs H]. split.
  - intros k c'. rewrite E. apply Hs.
  - intros k Hk. destruct (H k Hk) as [?|(c & ? & ? & ?)]; [by left|right].
    exists c. by rewrite E.
Qed.

Lemma dereference_recorded fuel : forall h s db,
  outcome (fun _ => True) (dereference fuel h (Some uselessFn) s) db (recorded db s).
Proof.
  induction fuel as [|fuel IH]; intros h s db; [done|].
  simpl. apply outcome_bind, outcome_get.
  case_decide; [by apply outcome_ret, recorded_same|].
  destruct (dirties db !! h) as [node|] eqn:Hn; [|by apply outcome_ret, recorded_same].
  destruct s as [acc [|t]]; simpl; [by apply outcome_ret, recorded_same|].
  case_decide; [|apply outcome_ret; by apply recorded_same].
  apply outcome_bind.
  eapply outcome_mono; [by apply (unlink_links_only (fun _ => True))| |done].
  intros [] db1 Hl1. destruct (forChilds node) as [cs|]; [|done].
  apply outcome_bind.
  assert (Hfold : forall cs s0 d0,
    outcome (fun _ => True)
      (foldM (fun h a => dereference fuel h (Some uselessFn) a) cs s0) d0 (recorded d0 s0)).
  { clear -IH. induction cs as [|x cs IHcs]; intros s0 d0; simpl.
    - by apply outcome_ret, recorded_same.
    - apply outcome_bind. eapply outcome_mono; [apply IH| |done].
      intros s1 d1 H1. eapply outcome_mono; [apply IHcs| |done].
      intros s2 d2 H2. by eapply recorded_trans. }
  eapply outcome_mono; [apply Hfold| |done].
  intros s2 db2 H2.
  assert (H02 : recorded db (acc, S t) s2 db2).
  { eapply recorded_trans; [|exact H2]. split; [by apply links_only_shape_sub|by left]. }
  clear H2 Hfold.
  apply outcome_bind, outcome_modify.
  set (db3 := set_dirties (delete h (dirties db2)) db2).
  assert (H03 : recorded db (acc, S t) s2 db3).
  { destruct H02 as [Hs Hr]. split.
    - eapply shape_sub_trans; [exact Hs|]. by eapply shape_sub_delete.
    - intros k Hk. destruct (Hr k Hk) as [?|(c & ? & ? & Hnone)]; [by left|right].
      exists c. split_and!; [done|done|]. simpl. by rewrite lookup_delete_None; right. }
  assert (Hfin : forall (acc' : gset N) d4, dirties d4 = dirties db3 ->
            (forall k, k ∈ acc' -> k ∈ s2.1 \/ (k = h /\ is_rawNode (cnode node) = false)) ->
            recorded db (acc, S t) (acc', s2.2) d4).
  { intros acc' d4 Ed Hacc. destruct H03 as [Hs Hr]. split.
    - intros k c'. rewrite Ed. apply Hs.
    - intros k Hk. simpl in Hk. destruct (Hacc k Hk) as [Hk2|[-> Hraw]].
      + destruct (Hr k Hk2) as [?|(c & ? & ? & ?)]; [by left|right].
        exists c. by rewrite Ed.
      + right. exists node. split_and!; [done|done|].
        rewrite Ed. simpl. by rewrite lookup_delete_eq. }
  apply outcome_bind.
  destruct (is_rawNode (cnode node)) eqn:Hraw.
  - apply outcome_ret. apply outcome_bind, outcome_modify. apply outcome_bind.
    destruct (children node);
      [apply outcome_modify|apply outcome_ret]; apply outcome_ret;
      (apply Hfin; [done|by left]).
  - unfold run_clearFn, cleans_Del. apply outcome_bind, outcome_modify, outcome_ret.
    apply outcome_bind, outcome_modify. apply outcome_bind.
    destruct (children node);
      [apply outcome_modify|apply outcome_ret]; apply outcome_ret;
      (apply Hfin; [by destruct (cleans db3)|]);
      intros k [->%elem_of_singleton|?]%elem_of_union; auto.
Qed.

(** X8: On a well-formed database with the lock free [DereferenceDB] of a
    non-zero root returns after appending one set to the pending disk
    clean-up, and that set holds exactly the hashes of the entries the call
    removed from the Node Store that are not raw blobs: no hash that is
    still in the Node Store, and none that was not there, is ever
    recorded. *)
Theorem DereferenceDB_records_exactly (root : N) (budget : nat) (db : Database) (l : list N) :
  FL l ∅ db -> G db -> lock db = unlocked -> root <> zeroHash ->
  exists db' u, DereferenceDB root budget db = Ok tt db' /\
    useless db' = useless db ++ [u] /\
    forall k, k ∈ u <->
      exists c, dirties db !! k = Some c /\ is_rawNode (cnode c) = false /\
                dirties db' !! k = None.
Proof.
  intros HFL HG Hlock Hroot. unfold DereferenceDB.
  destruct (decide (root = zeroHash)) as [?|_]; [done|].
  unfold bind at 1. rewrite (Lock_unlocked _ Hlock).
  set (db1 := set_lock (mkRWMutex true 0) db).
  assert (HFL1 : FL l ∅ db1) by (by eapply FL_same; [| | |exact HFL]).
  assert (HG1 : G db1) by done.
  pose proof (outcome_conj (fun _ => True) _ _ _ _
    (outcome_conj (fun _ => True) _ _ _ _
      (dereference_FL (S budget) root (Some uselessFn) (∅, budget) db1 l ∅ HFL1 HG1 Hroot
         ltac:(intros p Hp; by apply not_elem_of_empty in Hp) ltac:(simpl; lia))
      (dereference_tracked (S budget) root (∅, budget) db1))
    (dereference_recorded (S budget) root (∅, budget) db1)) as H.
  apply post_elim in H as (s' & db2 & E & [[[(l' & _ & _ & _ & Hfr & _) _] Htr] Hrec]).
  unfold bind at 1. rewrite E.
  assert (Hl2 : lock db2 = mkRWMutex true 0).
  { destruct Hfr as (_&_&_&_&_&_&->). done. }
  unfold bind at 1. rewrite (Unlock_locked _ Hl2). unfold modify.
  eexists _, s'.1. split; [reflexivity|]. simpl. split.
  - destruct Hfr as (_&_&_&->&_). done.
  - intros k. split.
    + intros Hk. destruct Hrec as [_ Hrec].
      destruct (Hrec k Hk) as [?%not_elem_of_empty|?]; done.
    + intros (c & Hc & Hraw & Hnone). destruct Htr as (_ & _ & _ & Ht).
      by destruct (Ht k c Hc Hnone Hraw).
Qed.


(** ** Version stamping *)

(** The entries [ReferenceVersion] visits from a hash: the entry of the
    hash and, through [forChilds], the entries below it. *)
Inductive reach (d : gmap N cachedNode) : N -> N -> Prop :=
| reach_here h c : d !! h = Some c -> reach d h h
| reach_child h c cs x y :
    d !! h = Some c -> forChilds c = Some cs -> x ∈ cs -> reach d x y -> reach d h y.

(** Only versions differ, and each version is the old one or [v]. *)
Definition restamped (v : Z) (db db' : Database) : Prop :=
  db' = set_dirties (dirties db') db /\
  forall k, dirties db' !! k = dirties db !! k \/
            dirties db' !! k = set_version v <$> dirties db !! k.

Definition stamped (v : Z) (db : Database) (y : N) : Prop :=
  exists c, dirties db !! y = Some c /\ version c = v.

Lemma restamped_refl v db : restamped v db db.
Proof. split; [by destruct db|by left]. Qed.

Lemma restamped_trans v db1 db2 db3 :
  restamped v db1 db2 -> restamped v db2 db3 -> restamped v db1 db3.
Proof.
  intros [E12 H12] [E23 H23]. split.
  - rewrite E23 at 1. rewrite E12 at 1. by destruct db1.
  - intros k. destruct (H23 k) as [->| ->], (H12 k) as [->| ->]; auto.
    right. by destruct (dirties db1 !! k).
Qed.

Lemma restamped_lookup v db db' k c' :
  restamped v db db' -> dirties db' !! k = Some c' ->
  exists c, dirties db !! k = Some c /\ (c' = c \/ c' = set_version v c).
Proof.
  intros [_ H] Hk. destruct (H k) as [E|E]; rewrite Hk in E.
  - exists c'. by auto.
  - destruct (dirties db !! k) as [c|]; [|done]. injection E as ->. by eauto.
Qed.

Lemma restamped_present v db db' k c :
  restamped v db db' -> dirties db !! k = Some c ->
  exists c', dirties db' !! k = Some c' /\ (c' = c \/ c' = set_version v c).
Proof.
  intros [_ H] Hk. destruct (H k) as [E|E]; rewrite Hk in E; by eauto.
Qed.

Lemma forChilds_set_version v c : forChilds (set_version v c) = forChilds c.
Proof. done. Qed.

Lemma restamped_G v db db' : restamped v db db' -> G db -> G db'.
Proof.
  intros Hr HG k c' Hk Hk0.
  destruct (restamped_lookup _ _ _ _ _ Hr Hk) as (c & Hc & [->| ->]);
    rewrite ?forChilds_set_version; by eapply HG.
Qed.

Lemma restamped_dom v db db' : restamped v db db' -> dom (dirties db') = dom (dirties db).
Proof.
  intros Hr. apply set_eq. intros k. rewrite !elem_of_dom. split.
  - intros [c' Hk]. destruct (restamped_lookup _ _ _ _ _ Hr Hk) as (c & ? & _). by eexists.
  - intros [c Hk]. destruct (restamped_present _ _ _ _ _ Hr Hk) as (c' & ? & _). by eexists.
Qed.

Lemma restamped_reach v db db' h y :
  restamped v db db' -> reach (dirties db) h y -> reach (dirties db') h y.
Proof.
  intros Hr. induction 1 as [h c Hc|h c cs x y Hc Hcs Hx _ IH].
  - destruct (restamped_present _ _ _ _ _ Hr Hc) as (c' & ? & _). by eapply reach_here.
  - destruct (restamped_present _ _ _ _ _ Hr Hc) as (c' & Hc' & [->| ->]);
      by eapply reach_child.
Qed.

Lemma restamped_stamped v db db' y :
  restamped v db db' -> stamped v db y -> stamped v db' y.
Proof.
  intros Hr (c & Hc & Hv).
  destruct (restamped_present _ _ _ _ _ Hr Hc) as (c' & Hc' & [->| ->]); by eexists.
Qed.

Lemma referenceVersion_spec v : forall fuel h db,
  G db -> nodeVersion db = v -> h <> zeroHash -> fuel_ok (dom (dirties db)) h fuel ->
  post (referenceVersion fuel h) db (fun _ db' =>
    restamped v db db' /\ forall y, reach (dirties db) h y -> stamped v db' y).
Proof.
  induction fuel as [|fuel IH]; intros h db HG Hv Hh [Hf1 Hf]; [lia|].
  simpl. apply outcome_bind, outcome_get.
  destruct (dirties db !! h) as [node|] eqn:Hn.
  2:{ apply outcome_ret. split; [apply restamped_refl|].
      intros y Hy. inversion Hy; congruence. }
  destruct (HG h node Hn Hh) as (cs & Hcs & Hrank). rewrite Hcs.
  assert (Hdom : h ∈ dom (dirties db)) by (apply elem_of_dom; by eexists).
  apply outcome_bind.
  assert (Hfold : forall l d0, (forall x, x ∈ l -> x ∈ cs) -> restamped v db d0 ->
    post (forEach (referenceVersion fuel) l) d0 (fun _ d' =>
      restamped v d0 d' /\
      forall x y, x ∈ l -> reach (dirties db) x y -> stamped v d' y)).
  { induction l as [|x l IHl]; intros d0 Hl Hr0; simpl.
    - apply outcome_ret. split; [apply restamped_refl|].
      intros x y Hx. by apply elem_of_nil in Hx.
    - apply outcome_bind. destruct (Hrank x) as [Hx0 Hxr]; [apply Hl; left|].
      eapply outcome_mono; [apply (IH x d0)| |done].
      + by eapply restamped_G.
      + destruct Hr0 as [-> _]. by destruct db.
      + done.
      + rewrite (restamped_dom _ _ _ Hr0). by eapply fuel_ok_child.
      + intros [] d1 [Hr1 Hst1].
        assert (Hr01 : restamped v db d1) by (by eapply restamped_trans).
        eapply outcome_mono; [apply (IHl d1); [|done]| |done].
        * intros z Hz. apply Hl. by right.
        * intros [] d2 [Hr2 Hst2]. split; [by eapply restamped_trans|].
          intros z y [->|Hz]%elem_of_cons Hy; [|by eapply Hst2].
          eapply restamped_stamped; [exact Hr2|]. apply Hst1.
          by eapply restamped_reach. }
  eapply outcome_mono; [apply (Hfold cs db); [done|apply restamped_refl]| |done].
  intros [] d1 [Hr1 Hst1].
  apply outcome_bind, outcome_get.
  destruct (restamped_present _ _ _ _ _ Hr1 Hn) as (c1 & Hc1 & Hc1').
  eapply outcome_update_node; [exact Hc1|].
  assert (Hv1 : NodeVersion d1 = v).
  { destruct Hr1 as [-> _]. by destruct db. }
  rewrite Hv1.
  assert (Hr2 : restamped v d1 (set_dirties (<[h := set_version v c1]> (dirties d1)) d1)).
  { split; [by destruct d1|]. intros k. simpl.
    destruct (decide (h = k)) as [<-|Hne].
    - right. by rewrite lookup_insert_eq, Hc1.
    - left. by rewrite lookup_insert_ne. }
  split; [by eapply restamped_trans|].
  intros y Hy. inversion Hy as [? c Hc|? c cs' x ? Hc Hcs' Hx Hxy]; subst.
  - exists (set_version (nodeVersion db) c1). simpl. by rewrite lookup_insert_eq.
  - assert (cs' = cs) by congruence. subst cs'.
    eapply restamped_stamped; [exact Hr2|]. by eapply Hst1.
Qed.

Lemma Dereference_current y budget db c :
  lock db = unlocked -> dirties db !! y = Some c -> version c = nodeVersion db ->
  Dereference y budget db = Ok tt db.
Proof.
  intros Hlock Hc Hv.
  assert (Hback : set_lock unlocked (set_lock (mkRWMutex true 0) db) = db)
    by (clear -Hlock; destruct db; simpl in *; by subst).
  assert (H : post (Dereference y budget) db (fun _ db' => db' = db)).
  { unfold Dereference. case_decide; [by apply outcome_ret|].
    apply outcome_bind. eapply outcome_intro; [by apply Lock_unlocked|].
    apply outcome_bind.
    assert (Hd : post (dereference (S budget) y (Some cleanFn) (∅, budget))
                   (set_lock (mkRWMutex true 0) db)
                   (fun _ db' => db' = set_lock (mkRWMutex true 0) db)).
    { simpl. apply outcome_bind, outcome_get. simpl.
      case_decide; [by apply outcome_ret|]. rewrite Hc.
      destruct budget; [by apply outcome_ret|].
      unfold NodeVersion. simpl. rewrite decide_False by lia. by apply outcome_ret. }
    eapply outcome_mono; [exact Hd| |done].
    intros s db' ->. eapply outcome_intro; [by apply Unlock_locked|done]. }
  apply post_elim in H as ([] & db' & E & ->). done.
Qed.

(** X9: With the lock free and the contents of the nodes free of cycles,
    [ReferenceVersion] of a non-zero root returns; it changes nothing but
    versions, every entry keeps its version or takes the current one, and
    every entry it reaches from the root takes the current one, after which
    [Dereference] of any of these hashes leaves the whole database as it
    is. *)
Theorem ReferenceVersion_protects (root : N) (db : Database) :
  G db -> lock db = unlocked -> root <> zeroHash ->
  exists db', ReferenceVersion root db = Ok tt db' /\
    restamped (nodeVersion db) db db' /\
    forall y, reach (dirties db) root y ->
      stamped (nodeVersion db) db' y /\
      forall budget, Dereference y budget db' = Ok tt db'.
Proof.
  intros HG Hlock Hroot.
  set (db0 := set_lock (mkRWMutex false 1) db).
  destruct (post_elim _ _ _ (referenceVersion_spec (nodeVersion db) (S (size (dirties db)))
              root db0 HG eq_refl Hroot
              ltac:(rewrite <- size_dom; apply fuel_ok_top)))
    as ([] & db1 & E & Hr & Hst).
  assert (Hl1 : db1 = set_dirties (dirties db1) db0) by apply Hr.
  set (db2 := set_lock unlocked db1).
  assert (Hr2 : restamped (nodeVersion db) db db2).
  { split.
    - subst db2. rewrite Hl1. simpl. clear -Hlock. destruct db; simpl in *; by subst.
    - apply Hr. }
  assert (Hl2 : lock db2 = unlocked) by done.
  exists db2. split_and!; [|done|].
  - assert (H : post (ReferenceVersion root) db (fun _ db' => db' = db2)).
    { unfold ReferenceVersion. apply outcome_bind, outcome_get. apply outcome_bind.
      eapply (outcome_intro _ _ _ tt db0); [unfold RLock; by rewrite Hlock|].
      apply outcome_bind. eapply outcome_intro; [exact E|].
      eapply outcome_intro; [|done]. unfold RUnlock. rewrite Hl1. simpl. f_equal.
      subst db2. rewrite Hl1. simpl. done. }
    apply post_elim in H as ([] & db' & E' & ->). done.
  - intros y Hy. destruct (Hst y Hy) as (c & Hc & Hv). split; [by exists c|].
    intros budget. apply (Dereference_current y budget db2 c); [done|done|].
    rewrite Hv. destruct Hr2 as [-> _]. done.
Qed.


(** ** Write before evict *)

Section Durable.

(** The database an operation starts from. *)
Variable db0 : Database.

(** The nodes [commit] goes through from a hash: while the hash is marked
    fresh and in the Node Store, the node itself after the nodes below
    it. *)
Inductive visits : N -> N -> Prop :=
| visits_here h c :
    h ∈ freshNodes db0 -> dirties db0 !! h = Some c -> visits h h
| visits_child h c cs x y :
    h ∈ freshNodes db0 -> dirties db0 !! h = Some c -> forChilds c = Some cs ->
    x ∈ cs -> visits x y -> visits h y.

(** The store holds the encoding of the node the database had under [y]. *)
Definition saved (m : gmap (keyspace * N) (list Byte.byte)) (y : N) : Prop :=
  forall c, dirties db0 !! y = Some c -> m !! (TrieNodeKey, y) = Some (rlp c).

(** A put of the encoding of a node of the database under its hash. *)
Definition node_put (o : batchop) : Prop :=
  exists k c, o = BPut (TrieNodeKey, k) (rlp c) /\ dirties db0 !! k = Some c.

Lemma saved_apply_op o m y : node_put o -> saved m y -> saved (apply_op o m) y.
Proof.
  intros (k & c & -> & Hk) Hs c' Hy. simpl.
  destruct (decide (k = y)) as [->|Hne].
  - rewrite lookup_insert_eq. congruence.
  - rewrite lookup_insert_ne by congruence. by apply Hs.
Qed.

Lemma saved_apply b : forall m y, Forall node_put b -> saved m y -> saved (apply_batch b m) y.
Proof.
  unfold apply_batch. induction b as [|o b IH]; intros m y Hb Hs; simpl; [done|].
  apply Forall_cons in Hb as [Ho Hb]. apply IH; [done|]. by apply saved_apply_op.
Qed.

Lemma saved_put b : forall m y v,
  Forall node_put b -> BPut (TrieNodeKey, y) v ∈ b -> saved (apply_batch b m) y.
Proof.
  induction b as [|o b IH]; intros m y v Hb Hin; [by apply elem_of_nil in Hin|].
  apply Forall_cons in Hb as [Ho Hb].
  apply elem_of_cons in Hin as [<-|Hin].
  - change (apply_batch (BPut (TrieNodeKey, y) v :: b) m)
      with (apply_batch b (apply_op (BPut (TrieNodeKey, y) v) m)).
    apply saved_apply; [done|].
    destruct Ho as (k & c & [= <- ->] & Hk). intros c' Hc'. simpl.
    rewrite lookup_insert_eq. congruence.
  - change (apply_batch (o :: b) m) with (apply_batch b (apply_op o m)). by eapply IH.
Qed.

Lemma apply_batch_app b1 b2 m : apply_batch (b1 ++ b2) m = apply_batch b2 (apply_batch b1 m).
Proof. unfold apply_batch. by rewrite fold_left_app. Qed.

(** What the database and the batch keep during a commit: the entries are
    entries of [db0], the batch holds encodings of nodes of [db0], each
    with everything below it already saved once the batch is written, and
    what is gone from the Node Store is saved on disk with everything
    below it. *)
Record durable (batch : list batchop) (db : Database) : Prop := mkDurable {
  du_sub : shape_sub db0 db;
  du_fresh : freshNodes db = freshNodes db0;
  du_batch : Forall node_put batch;
  du_closed : forall k v y, BPut (TrieNodeKey, k) v ∈ batch -> visits k y ->
                            saved (apply_batch batch (kv (diskdb db))) y;
  du_gone : forall h, is_Some (dirties db0 !! h) -> dirties db !! h = None ->
                      saved (kv (diskdb db)) h /\
                      forall y, visits h y -> saved (kv (diskdb db)) y
}.

Lemma shape_sub_rlp db h c c0 :
  shape_sub db0 db -> dirties db !! h = Some c -> dirties db0 !! h = Some c0 ->
  rlp c = rlp c0 /\ forChilds c = forChilds c0.
Proof.
  intros Hs Hc Hc0. destruct (Hs _ _ Hc) as (c1 & Hc1 & Hp).
  assert (c1 = c0) by congruence. subst c1.
  unfold payload in Hp. injection Hp as Hn _ _ Hch _.
  unfold rlp, forChilds, children_keys. by rewrite Hn, Hch.
Qed.

(** One replayed put. *)
Lemma cleaner_Put_durable uncache ks k v db :
  outcome (fun _ => True) (cleaner_Put uncache (ks, k) v) db (fun _ db' =>
    diskdb db' = diskdb db /\ freshNodes db' = freshNodes db /\ shape_sub db db' /\
    forall h, dirties db' !! h = None -> dirties db !! h = None \/ h = k).
Proof.
  unfold cleaner_Put. simpl. apply outcome_bind, outcome_get.
  assert (Hset : forall d, outcome (fun _ => True) (cleans_Set k v >> ret (@None error)) d
            (fun _ db' => diskdb db' = diskdb d /\ freshNodes db' = freshNodes d /\
                          dirties db' = dirties d)).
  { intros d. unfold cleans_Set. apply outcome_bind, outcome_modify, outcome_ret.
    by destruct (cleans d). }
  destruct uncache; [destruct (dirties db !! k) as [node|] eqn:Hk|].
  - apply outcome_bind. apply outcome_bind.
    eapply outcome_mono; [by apply (unlink_links_only (fun _ => True))| |done].
    intros [] db1 Hl1. apply outcome_bind, outcome_modify. apply outcome_bind, outcome_modify.
    apply outcome_bind.
    set (db2 := set_dirties (delete k (dirties db1)) db1).
    assert (Hfin : forall d3, diskdb d3 = diskdb db2 -> freshNodes d3 = freshNodes db2 ->
              dirties d3 = dirties db2 ->
              outcome (fun _ => True) (ret true) d3 (fun c d =>
                outcome (fun _ => True)
                  (if c : bool then cleans_Set k v >> ret (@None error) else ret None) d
                  (fun _ db' => diskdb db' = diskdb db /\ freshNodes db' = freshNodes db /\
                     shape_sub db db' /\
                     forall h, dirties db' !! h = None -> dirties db !! h = None \/ h = k))).
    { intros d3 E1 E2 E3. apply outcome_ret.
      eapply outcome_mono; [apply Hset| |done].
      intros r db' (E1' & E2' & E3').
      pose proof (links_only_frame_core _ _ Hl1) as (Hd & Hf & _).
      split_and!.
      - rewrite E1', E1. simpl. done.
      - rewrite E2', E2. simpl. done.
      - intros h c'. rewrite E3', E3. simpl. intros Hh.
        apply lookup_delete_Some in Hh as [_ Hh]. by eapply links_only_lookup.
      - intros h. rewrite E3', E3. simpl. intros Hh.
        destruct (decide (k = h)) as [->|Hne]; [by right|left].
        rewrite lookup_delete_ne in Hh by done. by apply (links_only_None _ _ h Hl1). }
    destruct (children node); [apply outcome_modify|apply outcome_ret]; by apply Hfin.
  - apply outcome_bind, outcome_ret. apply outcome_ret.
    split_and!; [done|done|apply shape_sub_refl|by left].
  - apply outcome_bind, outcome_ret.
    eapply outcome_mono; [apply Hset| |done].
    intros r db' (E1 & E2 & E3). split_and!; [done|done| |].
    + intros h c'. rewrite E3. by eauto.
    + intros h. rewrite E3. by left.
Qed.

(** Replaying a batch that has just been written. *)
Lemma Replay_durable uncache : forall b db,
  shape_sub db0 db ->
  (forall h, dirties db !! h = None -> is_Some (dirties db0 !! h) ->
             saved (kv (diskdb db)) h /\ forall y, visits h y -> saved (kv (diskdb db)) y) ->
  (forall ks k v, BPut (ks, k) v ∈ b -> is_Some (dirties db0 !! k) ->
             saved (kv (diskdb db)) k /\ forall y, visits k y -> saved (kv (diskdb db)) y) ->
  outcome (fun _ => True) (Replay uncache b) db (fun _ db' =>
    diskdb db' = diskdb db /\ freshNodes db' = freshNodes db /\ shape_sub db0 db' /\
    forall h, dirties db' !! h = None -> is_Some (dirties db0 !! h) ->
              saved (kv (diskdb db')) h /\ forall y, visits h y -> saved (kv (diskdb db')) y).
Proof.
  induction b as [|o b IH]; intros db Hs Hgone Hb; simpl.
  - by apply outcome_ret.
  - destruct o as [[ks k] v|?]; [|done].
    apply outcome_bind.
    eapply outcome_mono; [apply cleaner_Put_durable| |done].
    intros r db1 (Ed & Ef & Hs1 & Hrm).
    eapply outcome_mono; [apply (IH db1)| |done].
    + by eapply shape_sub_trans.
    + intros h Hh H0. rewrite Ed. destruct (Hrm h Hh) as [?| ->]; [by apply Hgone|].
      apply (Hb ks k v); [left|done].
    + intros ks' k' v' Hin H0. rewrite Ed. apply (Hb ks' k' v'); [by right|done].
    + intros [] db2 (Ed2 & Ef2 & Hs2 & Hg2). split_and!; [congruence|congruence|done|done].
Qed.

Lemma durable_same b d d' :
  dirties d' = dirties d -> freshNodes d' = freshNodes d ->
  kv (diskdb d') = kv (diskdb d) -> durable b d -> durable b d'.
Proof.
  intros Ed Ef Ek [H1 H2 H3 H4 H5]. constructor; rewrite ?Ed, ?Ef, ?Ek; try done.
  intros k c'. rewrite Ed. apply H1.
Qed.

Lemma batch_Write_cases F b db (Q : option error -> Database -> Prop) :
  (forall fs, Q None (set_diskdb (mkDisk (apply_batch b (kv (diskdb db))) fs) db)) ->
  (forall fs, Q (Some ErrWrite) (set_diskdb (mkDisk (kv (diskdb db)) fs) db)) ->
  outcome F (batch_Write b) db Q.
Proof.
  intros Hok Hfail. unfold outcome, batch_Write.
  destruct (write_faults (diskdb db)) as [|[] ?]; auto.
Qed.

Lemma visits_present h y : visits h y -> h ∈ freshNodes db0 /\ is_Some (dirties db0 !! h).
Proof. by destruct 1; eauto. Qed.

(** Replaying a batch that has been written keeps the invariant, with an
    empty batch. *)
Lemma replay_written uncache b db d :
  durable b db -> dirties d = dirties db -> freshNodes d = freshNodes db ->
  kv (diskdb d) = apply_batch b (kv (diskdb db)) ->
  outcome (fun _ => True) (Replay uncache b) d (fun _ db' =>
    durable [] db' /\ kv (diskdb db') = apply_batch b (kv (diskdb db))).
Proof.
  intros [H1 H2 H3 H4 H5] Ed Ef Ek.
  eapply outcome_mono; [apply Replay_durable| |done].
  - intros k c'. rewrite Ed. apply H1.
  - intros h Hh H0. rewrite Ed in Hh. rewrite Ek. destruct (H5 h H0 Hh) as [Ha Hb].
    split; [by apply saved_apply|]. intros y Hy. by apply saved_apply, Hb.
  - intros ks k v Hin H0. rewrite Ek.
    assert (ks = TrieNodeKey) as ->.
    { rewrite Forall_forall in H3. destruct (H3 _ Hin) as (? & ? & [= -> _ _] & _). done. }
    split; [by eapply saved_put|]. intros y Hy. by eapply H4.
  - intros [] db' (Ed' & Ef' & Hs & Hg). split; [|by rewrite Ed'].
    constructor; [done|congruence|by apply Forall_nil| |].
    + intros k v y Hin. by apply elem_of_nil in Hin.
    + intros h H0 Hh. by apply Hg.
Qed.

Lemma outcome_Lock (Q : unit -> Database -> Prop) db :
  (forall l, Q tt (set_lock l db)) -> outcome (fun _ => True) Lock db Q.
Proof.
  intros H. unfold outcome, Lock.
  destruct (writer (lock db)); [done|]. destruct (readers (lock db)); [apply H|done].
Qed.

Lemma outcome_Unlock (Q : unit -> Database -> Prop) db :
  (forall l, Q tt (set_lock l db)) -> outcome (fun _ => True) Unlock db Q.
Proof.
  intros H. unfold outcome, Unlock. destruct (writer (lock db)); [apply H|done].
Qed.

Lemma commit_durable uncache : forall fuel h batch db,
  durable batch db ->
  outcome (fun _ => True) (commit fuel uncache h batch) db (fun r db' =>
    durable r.2 db' /\
    (forall y, saved (apply_batch batch (kv (diskdb db))) y ->
               saved (apply_batch r.2 (kv (diskdb db'))) y) /\
    (r.1 = None -> forall y, visits h y -> saved (apply_batch r.2 (kv (diskdb db'))) y)).
Proof.
  induction fuel as [|fuel IH]; intros h batch db Hdu; [done|].
  simpl. apply outcome_bind, outcome_get.
  destruct (decide (h ∈ freshNodes db)) as [Hfr|Hfr].
  2:{ apply outcome_ret. split_and!; [done|done|]. intros _ y Hy.
      apply visits_present in Hy as [Hy _]. rewrite (du_fresh _ _ Hdu) in Hfr. done. }
  destruct (dirties db !! h) as [node|] eqn:Hn.
  2:{ apply outcome_ret. split_and!; [done|done|]. intros _ y Hy. simpl.
      pose proof (visits_present _ _ Hy) as [_ H0].
      apply saved_apply; [apply (du_batch _ _ Hdu)|].
      by apply (du_gone _ _ Hdu h H0 Hn). }
  destruct (forChilds node) as [cs|] eqn:Hcs; [|done].
  apply outcome_bind.
  set (f := fun child (s : option error * list batchop) =>
              match s.1 with
              | Some _ => ret s
              | None => commit fuel uncache child s.2
              end).
  assert (Hfold : forall cs s d, durable s.2 d ->
    outcome (fun _ => True) (foldM f cs s) d (fun r d' =>
      durable r.2 d' /\
      (forall y, saved (apply_batch s.2 (kv (diskdb d))) y ->
                 saved (apply_batch r.2 (kv (diskdb d'))) y) /\
      (r.1 = None -> s.1 = None /\
         forall x y, x ∈ cs -> visits x y -> saved (apply_batch r.2 (kv (diskdb d'))) y))).
  { clear -IH. induction cs as [|x cs IHcs]; intros s d Hd; simpl.
    - apply outcome_ret. split_and!; [done|done|]. intros E. split; [done|].
      intros x y Hx. by apply elem_of_nil in Hx.
    - apply outcome_bind. unfold f at 1.
      destruct s.1 as [e|] eqn:Es.
      + apply outcome_ret. eapply outcome_mono; [by apply IHcs| |done].
        intros r d' (Hd' & Hm & Hv). split_and!; [done|done|].
        intros E. destruct (Hv E) as [? _]. congruence.
      + eapply outcome_mono; [by apply IH| |done].
        intros r1 d1 (Hd1 & Hm1 & Hv1).
        eapply outcome_mono; [by apply IHcs| |done].
        intros r d' (Hd' & Hm & Hv). split_and!; [done|by auto|].
        intros E. destruct (Hv E) as [E1 Hv']. split; [done|].
        intros z y [->|Hz]%elem_of_cons Hy; [|by eapply Hv'].
        apply Hm. by apply Hv1. }
  eapply outcome_mono; [by apply (Hfold cs (None, batch) db)| |done].
  intros r db1 (Hd1 & Hm1 & Hv1). simpl in Hm1.
  destruct r.1 as [e|] eqn:Er; [by apply outcome_ret|].
  destruct (Hv1 eq_refl) as [_ Hv]. clear Hv1.
  set (b := WriteTrieNode r.2 h (rlp node)).
  assert (Hput : forall c0, dirties db0 !! h = Some c0 ->
                   rlp node = rlp c0 /\ forChilds c0 = Some cs).
  { intros c0 Hc0.
    destruct (shape_sub_rlp db h node c0 (du_sub _ _ Hdu) Hn Hc0) as [? E]. by rewrite <- E. }
  assert (H0 : is_Some (dirties db0 !! h)).
  { destruct (du_sub _ _ Hdu _ _ Hn) as (c0 & ? & _). by eexists. }
  assert (Hh0 : h ∈ freshNodes db0) by (by rewrite <- (du_fresh _ _ Hdu)).
  assert (Hbn : Forall node_put b).
  { apply Forall_app. split; [apply (du_batch _ _ Hd1)|]. apply Forall_singleton.
    destruct H0 as [c0 Hc0]. exists h, c0. destruct (Hput c0 Hc0) as [-> _]. done. }
  assert (Hstep : forall y, saved (apply_batch r.2 (kv (diskdb db1))) y ->
                            saved (apply_batch b (kv (diskdb db1))) y).
  { intros y Hy. unfold b, WriteTrieNode. rewrite apply_batch_app.
    apply saved_apply; [|done]. by apply Forall_app in Hbn as [_ ?]. }
  assert (Hvh : forall y, visits h y -> saved (apply_batch b (kv (diskdb db1))) y).
  { intros y Hy. inversion Hy as [? c0 _ Hc0|? c0 cs0 x ? _ Hc0 Hcs0 Hx Hxy]; subst.
    - eapply (saved_put b _ y (rlp node)); [done|].
      apply elem_of_app. right. by apply list_elem_of_singleton.
    - destruct (Hput c0 Hc0) as [_ E]. assert (cs0 = cs) by congruence. subst cs0.
      apply Hstep. by eapply Hv. }
  assert (Hdb : durable b db1).
  { constructor; [apply (du_sub _ _ Hd1)|apply (du_fresh _ _ Hd1)|done| |apply (du_gone _ _ Hd1)].
    intros k v y [Hin|Hin%list_elem_of_singleton]%elem_of_app Hy.
    - apply Hstep. by eapply (du_closed _ _ Hd1).
    - injection Hin as -> _. by apply Hvh. }
  destruct (decide _).
  2:{ apply outcome_ret. split_and!; [done|by auto|by intros _]. }
  apply outcome_bind. apply batch_Write_cases.
  - intros fs. apply outcome_bind, outcome_Lock. intros lk. apply outcome_bind.
    eapply outcome_mono; [by apply (replay_written uncache b db1)| |done].
    intros [] db3 [Hd3 Ek3]. apply outcome_bind, outcome_Unlock. intros lk'.
    apply outcome_ret. simpl. rewrite Ek3. split_and!; [|by auto|by intros _].
    eapply durable_same; [| | |exact Hd3]; done.
  - intros fs. apply outcome_ret. simpl. split_and!; [|by auto|done].
    eapply durable_same; [| | |exact Hdb]; done.
Qed.

End Durable.

Lemma set_diskdb_same db : set_diskdb (diskdb db) db = db.
Proof. by destruct db. Qed.

Lemma Commit_store (root : N) (report uncache : bool) (db : Database) :
  outcome (fun _ => True) (Commit root report uncache) db (fun r db' =>
    (forall h c, dirties db !! h = Some c -> dirties db' !! h = None ->
                 kv (diskdb db') !! (TrieNodeKey, h) = Some (rlp c)) /\
    (r = None -> forall y c, visits db root y -> dirties db !! y = Some c ->
                 kv (diskdb db') !! (TrieNodeKey, y) = Some (rlp c))).
Proof.
  unfold Commit. apply outcome_bind, outcome_get. apply outcome_bind.
  assert (Hstart : forall d, durable db [] (set_diskdb d db)).
  { intros d. constructor; simpl; [by intros k c' Hk; exists c'|done|by apply Forall_nil| |].
    - intros k v y Hin. by apply elem_of_nil in Hin.
    - intros h [c Hc] Hn. congruence. }
  assert (Hfail : forall (e : error) d, outcome (fun _ => True) (ret (Some e)) (set_diskdb d db)
    (fun r db' =>
      (forall h c, dirties db !! h = Some c -> dirties db' !! h = None ->
                   kv (diskdb db') !! (TrieNodeKey, h) = Some (rlp c)) /\
      (r = None -> forall y c, visits db root y -> dirties db !! y = Some c ->
                   kv (diskdb db') !! (TrieNodeKey, y) = Some (rlp c)))).
  { intros e d. apply outcome_ret. simpl. split; [congruence|done]. }
  assert (Hmain : forall d, outcome (fun _ => True)
    (let* db1 := get in
     let* r := commit (S (size (dirties db1))) uncache root [] in
     match r.1 with
     | Some e => ret (Some e)
     | None =>
         let* w := batch_Write r.2 in
         match w with
         | Some e => ret (Some e)
         | None =>
             Lock >>
             Replay uncache r.2 >>
             modify (fun db =>
               match preimages db with
               | Some _ => set_preimagesSize 0 (set_preimages (Some ∅) db)
               | None => db
               end) >>
             resetFreshNode >>
             Unlock >>
             ret None
         end
     end) (set_diskdb d db)
    (fun r db' =>
      (forall h c, dirties db !! h = Some c -> dirties db' !! h = None ->
                   kv (diskdb db') !! (TrieNodeKey, h) = Some (rlp c)) /\
      (r = None -> forall y c, visits db root y -> dirties db !! y = Some c ->
                   kv (diskdb db') !! (TrieNodeKey, y) = Some (rlp c)))).
  { intros d. apply outcome_bind, outcome_get. apply outcome_bind.
    eapply outcome_mono; [apply (commit_durable db uncache), Hstart| |done].
    intros r1 d1 (Hd1 & _ & Hv1).
    assert (Hgone : forall b d2, durable db b d2 ->
              forall h c, dirties db !! h = Some c -> dirties d2 !! h = None ->
                          kv (diskdb d2) !! (TrieNodeKey, h) = Some (rlp c)).
    { intros b d2 Hd2 h c Hc Hn.
      destruct (du_gone _ _ _ Hd2 h (ex_intro _ c Hc) Hn) as [Hs _]. by apply Hs. }
    destruct r1.1 as [e|] eqn:Er.
    { apply outcome_ret. split; [by eapply Hgone|done]. }
    apply outcome_bind. apply batch_Write_cases.
    2:{ intros fs. apply outcome_ret. split; [|done].
        eapply (Hgone r1.2). eapply durable_same; [| | |exact Hd1]; done. }
    intros fs. apply outcome_bind, outcome_Lock. intros lk. apply outcome_bind.
    eapply outcome_mono; [by apply (replay_written db uncache r1.2 d1)| |done].
    intros [] d3 [Hd3 Ek3].
    apply outcome_bind, outcome_modify. apply outcome_bind, outcome_modify.
    apply outcome_bind, outcome_Unlock. intros lk'. apply outcome_ret.
    assert (Hfin : forall d4, dirties d4 = dirties d3 -> kv (diskdb d4) = kv (diskdb d3) ->
      (forall h c, dirties db !! h = Some c -> dirties d4 !! h = None ->
                   kv (diskdb d4) !! (TrieNodeKey, h) = Some (rlp c)) /\
      (@None error = None -> forall y c, visits db root y -> dirties db !! y = Some c ->
                   kv (diskdb d4) !! (TrieNodeKey, y) = Some (rlp c))).
    { intros d4 E4 K4. rewrite E4, K4. split; [by eapply Hgone|].
      intros _ y c Hy Hc. rewrite Ek3. by apply (Hv1 eq_refl y Hy). }
    apply Hfin; simpl; by destruct (preimages d3). }
  assert (Hw : forall (b : list batchop) d,
            outcome (fun _ => True) (batch_Write b) (set_diskdb d db)
              (fun _ d1 => exists d', d1 = set_diskdb d' db)).
  { intros b d. apply batch_Write_spec. intros ? d'. exists d'. by destruct db. }
  eapply outcome_mono with (Q := fun _ d1 => exists d, d1 = set_diskdb d db); [| |done].
  2:{ intros [e|] d1 (d & ->); [apply Hfail|apply Hmain]. }
  destruct (preimages db) as [p|]; [|apply outcome_ret; exists (diskdb db); by destruct db].
  rewrite <- (set_diskdb_same db). generalize (diskdb db) as d0. intros d0.
  apply outcome_bind.
  destruct (decide _).
  - apply outcome_bind. eapply outcome_mono; [apply Hw| |done].
    intros [e|] d1 (d & ->); apply outcome_ret; simpl; [apply outcome_ret; by eexists|apply Hw].
  - apply outcome_ret. simpl. apply Hw.
Qed.

(** X10: On every database: a node that [Commit] takes out of the Node Store is
    on disk, under its hash, with the encoding it had, whatever [Commit]
    answers; and when [Commit] answers nil, so is every node it went
    through from the root, the root included. *)
Theorem Commit_writes_before_uncaching (root : N) (report uncache : bool)
    (db : Database) (r : option error) (db' : Database) :
  Commit root report uncache db = Ok r db' ->
  (forall h c, dirties db !! h = Some c -> dirties db' !! h = None ->
               kv (diskdb db') !! (TrieNodeKey, h) = Some (rlp c)) /\
  (r = None -> forall y c, visits db root y -> dirties db !! y = Some c ->
               kv (diskdb db') !! (TrieNodeKey, y) = Some (rlp c)).
Proof.
  intros E. exact (outcome_ok _ _ _ _ _ _ (Commit_store root report uncache db) E).
Qed.


(** The store once the node under [h] is written to it. *)
Definition put_node (d : gmap N cachedNode) (E : gmap (keyspace * N) (list Byte.byte)) (h : N)
  : gmap (keyspace * N) (list Byte.byte) :=
  match d !! h with
  | Some c => <[(TrieNodeKey, h) := rlp c]> E
  | None => E
  end.

Lemma put_nodes_lookup d : forall la E h c,
  h ∈ la -> d !! h = Some c -> foldl (put_node d) E la !! (TrieNodeKey, h) = Some (rlp c).
Proof.
  induction la as [|x la IH] using rev_ind; intros E h c Hin Hc; [by apply elem_of_nil in Hin|].
  rewrite foldl_app. simpl. unfold put_node at 1.
  destruct (decide (x = h)) as [->|Hne].
  - rewrite Hc. by rewrite lookup_insert_eq.
  - apply elem_of_app in Hin as [Hin|Hin%list_elem_of_singleton]; [|done].
    destruct (d !! x); [rewrite lookup_insert_ne by congruence|]; by apply IH.
Qed.

Lemma put_nodes_keeps d : forall la E key,
  is_Some (E !! key) -> is_Some (foldl (put_node d) E la !! key).
Proof.
  induction la as [|x la IH]; intros E key HE; simpl; [done|].
  apply IH. unfold put_node. destruct (d !! x); [|done].
  destruct (decide ((TrieNodeKey, x) = key)) as [<-|Hne].
  - rewrite lookup_insert_eq. by eexists.
  - by rewrite lookup_insert_ne.
Qed.

(** A batch of puts, and a store that has every key of another. *)
Definition puts (b : list batchop) : Prop :=
  Forall (fun o => exists k v, o = BPut k v) b.

Definition keeps (m m' : gmap (keyspace * N) (list Byte.byte)) : Prop :=
  forall key, is_Some (m !! key) -> is_Some (m' !! key).

Lemma keeps_puts b : forall m, puts b -> keeps m (apply_batch b m).
Proof.
  unfold apply_batch. induction b as [|o b IH]; intros m Hb key Hk; simpl; [done|].
  apply Forall_cons in Hb as [(k & v & ->) Hb]. apply IH; [done|]. simpl.
  destruct (decide (k = key)) as [->|Hne].
  - rewrite lookup_insert_eq. by eexists.
  - by rewrite lookup_insert_ne.
Qed.

Lemma keeps_trans m1 m2 m3 : keeps m1 m2 -> keeps m2 m3 -> keeps m1 m3.
Proof. intros H12 H23 key Hk. by apply H23, H12. Qed.

Lemma puts_WritePreimages b p : puts b -> puts (WritePreimages b p).
Proof.
  intros Hb. apply Forall_app. split; [done|].
  apply Forall_forall. intros o [[k v] [-> _]]%list_elem_of_fmap. by eexists _, _.
Qed.

(** The first loop of [Cap] with the store it is about to leave on disk:
    the batch, once written, adds the encodings of the nodes gone
    through. *)
Lemma Cap_scan_store limit : forall l2 fuel total batch db prev,
  seg (dirties db) prev l2 zeroHash -> zeroHash ∉ l2 -> (length l2 < fuel)%nat ->
  readers (lock db) = O -> puts batch ->
  outcome (fun _ => True) (Cap_scan fuel limit total (hd zeroHash l2) batch) db (fun r db' =>
    match r with
    | inl _ => False
    | inr (stop, b') =>
        exists d la lb, db' = set_diskdb d db /\ l2 = la ++ lb /\ stop = hd zeroHash lb /\
          puts b' /\ keeps (kv (diskdb db)) (kv d) /\
          apply_batch b' (kv d)
          = foldl (put_node (dirties db)) (apply_batch batch (kv (diskdb db))) la
    end).
Proof.
  induction l2 as [|x r IH]; intros fuel total batch db prev Hseg Hz Hfuel Hlock Hb;
    (destruct fuel as [|fuel]; [simpl in Hfuel; lia|]); simpl.
  - destruct (decide _) as [[_ ?]|_]; [done|].
    apply outcome_ret. exists (diskdb db), [], [].
    split_and!; [by destruct db|done|done|done|by intros ??|done].
  - case_decide as Hc.
    2:{ apply outcome_ret. exists (diskdb db), [], (x :: r).
        split_and!; [by destruct db|done|done|done|by intros ??|done]. }
    destruct Hseg as (cx & Hcx & _ & Hnx & Hseg).
    apply outcome_bind. eapply outcome_deref; [done|].
    apply outcome_bind.
    assert (Hz' : zeroHash ∉ r) by (intros ?; apply Hz; by right).
    set (b1 := WriteTrieNode batch x (rlp cx)).
    assert (Hp1 : puts b1).
    { apply Forall_app. split; [done|]. apply Forall_singleton. by eexists _, _. }
    assert (Hb1 : apply_batch b1 (kv (diskdb db))
                  = put_node (dirties db) (apply_batch batch (kv (diskdb db))) x).
    { unfold b1, WriteTrieNode, put_node. rewrite apply_batch_app, Hcx. done. }
    assert (Hcont : forall d b' t',
      puts b' -> keeps (kv (diskdb db)) (kv d) ->
      apply_batch b' (kv d) = put_node (dirties db) (apply_batch batch (kv (diskdb db))) x ->
      outcome (fun _ => True) (Cap_scan fuel limit t' (flushNext cx) b') (set_diskdb d db)
        (fun r0 db' =>
          match r0 with
          | inl _ => False
          | inr (stop, b2) =>
              exists d2 la lb, db' = set_diskdb d2 db /\ x :: r = la ++ lb /\
                stop = hd zeroHash lb /\ puts b2 /\ keeps (kv (diskdb db)) (kv d2) /\
                apply_batch b2 (kv d2)
                = foldl (put_node (dirties db)) (apply_batch batch (kv (diskdb db))) la
          end)).
    { intros d b' t' Hp' Hk Eb. rewrite Hnx.
      eapply outcome_mono; [apply (IH fuel t' b' (set_diskdb d db) (Some x)); try done| |done].
      - simpl in Hfuel. lia.
      - intros [e|[stop b2]] db' H; [done|].
        destruct H as (d2 & la & lb & -> & -> & -> & Hp2 & Hk2 & E2).
        exists d2, (x :: la), lb. split_and!; [by destruct db|done|done|done| |].
        + by eapply keeps_trans.
        + simpl. rewrite E2. simpl. by rewrite Eb. }
    destruct (decide _).
    + apply outcome_bind. apply batch_Write_cases.
      * intros fs. apply outcome_ret. apply Hcont; [by apply Forall_nil| |done].
        simpl. by apply keeps_puts.
      * intros fs. apply outcome_bind.
        unfold RUnlock, outcome at 1. simpl. by rewrite Hlock.
    + apply outcome_ret. rewrite <- (set_diskdb_same db) at 1.
      apply Hcont; [done|by intros ??|done].
Qed.

(** What [Cap] leaves on disk and in the clean cache. *)
Definition Cap_store_post (db : Database) (db' : Database) : Prop :=
  (forall h c, dirties db !! h = Some c -> dirties db' !! h = None ->
               kv (diskdb db') !! (TrieNodeKey, h) = Some (rlp c)) /\
  keeps (kv (diskdb db)) (kv (diskdb db')) /\
  cleans db' = cleans db.

Lemma Cap_store (limit : Z) (db : Database) (l : list N) :
  FL l ∅ db -> lock db = unlocked ->
  outcome (fun _ => True) (Cap limit) db (fun _ db' => Cap_store_post db db').
Proof.
  intros HFL Hlock.
  unfold Cap. apply outcome_bind, outcome_get.
  apply outcome_bind. unfold outcome at 1, deref.
  destruct (dirties db !! zeroHash) as [meta|] eqn:Hmeta; [|done].
  apply outcome_bind.
  assert (Hsame : forall (e : option error) d, keeps (kv (diskdb db)) (kv d) ->
    outcome (fun _ => True) (ret e) (set_diskdb d db) (fun r db' => Cap_store_post db db')).
  { intros e d Hk. apply outcome_ret. split_and!; simpl; [congruence|done|done]. }
  eapply outcome_mono with (F := fun _ => True) (Q := fun pre d1 =>
    exists d, d1 = set_diskdb d db /\ keeps (kv (diskdb db)) (kv d) /\
      match pre with
      | inl _ => True
      | inr batch => puts batch /\ keeps (kv (diskdb db)) (apply_batch batch (kv d))
      end); [| |done].
  { assert (Hnil : outcome (fun _ => True) (ret (inr [])) db
              (fun (pre : error + list batchop) d1 =>
                 exists d, d1 = set_diskdb d db /\ keeps (kv (diskdb db)) (kv d) /\
                   match pre with
                   | inl _ => True
                   | inr batch => puts batch /\ keeps (kv (diskdb db)) (apply_batch batch (kv d))
                   end)).
    { apply outcome_ret. exists (diskdb db).
      split_and!; [by destruct db|by intros ??|by apply Forall_nil|by intros ??]. }
    destruct (bool_decide _); [|done]. destruct (preimages db) as [p|]; [|done].
    assert (Hp : puts (WritePreimages [] p)) by (by apply puts_WritePreimages, Forall_nil).
    destruct (decide _).
    - apply outcome_bind. apply batch_Write_cases; intros fs; apply outcome_ret; simpl.
      + eexists. split_and!; [done| |by apply Forall_nil|]; simpl; by apply keeps_puts.
      + eexists. split_and!; [done|by intros ??|done].
    - apply outcome_ret. exists (diskdb db).
      split_and!; [by destruct db|by intros ??|done|by apply keeps_puts]. }
  intros [e|batch] d1 (d & -> & Hk & Hpre); [by apply Hsame|].
  destruct Hpre as [Hpb Hkb].
  apply outcome_bind. rewrite (fl_oldest _ _ _ HFL).
  eapply outcome_mono;
    [apply (Cap_scan_store limit l (S (size (dirties db))) _ batch (set_diskdb d db) None);
     [apply (fl_seg _ _ _ HFL)|apply (fl_zero _ _ _ HFL)|rewrite (FL_size _ _ HFL); simpl; lia
     |simpl; by rewrite Hlock|done]| |done].
  intros [e|[stop b2]] d2 H; [done|].
  destruct H as (d3 & la & lb & -> & -> & -> & Hp2 & Hk2 & E2). simpl in Hk2, E2.
  set (E := foldl (put_node (dirties db)) (apply_batch batch (kv d)) la) in *.
  assert (HkE : keeps (kv (diskdb db)) E).
  { eapply keeps_trans; [exact Hkb|]. intros key. apply put_nodes_keeps. }
  apply outcome_bind. apply batch_Write_cases; intros fs.
  2:{ replace (set_diskdb _ (set_diskdb d3 (set_diskdb d db)))
        with (set_diskdb (mkDisk (kv d3) fs) db) by (by destruct db).
      apply Hsame. simpl. exact (keeps_trans _ _ _ Hk Hk2). }
  simpl. rewrite E2.
  apply outcome_bind, outcome_Lock. intros lk.
  apply outcome_bind.
  set (d4 := set_lock lk (set_diskdb (mkDisk E fs) (set_diskdb d3 (set_diskdb d db)))).
  assert (Hpre : forall (m : M unit), (forall x, exists x', m x = Ok tt x' /\
              dirties x' = dirties x /\ oldest x' = oldest x /\ newest x' = newest x /\
              diskdb x' = diskdb x /\ cleans x' = cleans x) ->
            outcome (fun _ => True) m d4 (fun _ d5 =>
              dirties d5 = dirties db /\ oldest d5 = oldest db /\ newest d5 = newest db /\
              kv (diskdb d5) = E /\ cleans d5 = cleans db)).
  { intros m Hm. destruct (Hm d4) as (x' & Ex & ? & ? & ? & Hd & Hc).
    eapply outcome_intro; [exact Ex|]. rewrite Hd, Hc. by split_and!. }
  eapply outcome_mono; [apply Hpre| |done].
  { intros x. destruct (bool_decide _); [|by eexists].
    unfold modify. eexists. split; [done|]. by destruct (preimages x). }
  intros [] d5 (Ed5 & Eo5 & En5 & Ek5 & Ec5).
  apply outcome_bind, outcome_get. apply outcome_bind.
  assert (HFL5 : FL (la ++ lb) ∅ d5) by (by eapply FL_same; [| | |exact HFL]).
  eapply outcome_mono;
    [apply (outcome_post (fun _ => True)), (Cap_evict_spec la (S (size (dirties d5))) lb d5 HFL5)
    | |done].
  { rewrite (FL_size _ _ HFL5), length_app. lia. }
  intros [] d6 (HFL6 & _ & Hfr6 & Ec6).
  assert (Ek6 : kv (diskdb d6) = E) by (destruct Hfr6 as [-> _]; done).
  assert (Hgone : forall h c, dirties db !! h = Some c -> dirties d6 !! h = None ->
                              E !! (TrieNodeKey, h) = Some (rlp c)).
  { intros h c Hc Hn. apply put_nodes_lookup; [|done].
    assert (Hh0 : h <> zeroHash).
    { intros ->. destruct (proj2 (fl_keys _ _ _ HFL6 zeroHash)) as [? ?]; [by left|congruence]. }
    assert (Hin : h ∈ la ++ lb) by (eapply FL_present; [exact HFL|exact Hc|done|set_solver]).
    apply elem_of_app in Hin as [?|Hin]; [done|].
    destruct (proj2 (fl_keys _ _ _ HFL6 h)) as [? ?]; [right; by left|congruence]. }
  apply outcome_bind, outcome_get. apply outcome_bind.
  assert (Hend : forall d7, (forall h, dirties d7 !! h = None -> dirties d6 !! h = None) ->
            diskdb d7 = diskdb d6 -> cleans d7 = cleans d6 ->
            outcome (fun _ => True) (Unlock >> ret None) d7 (fun (_ : option error) db' =>
              Cap_store_post db db')).
  { intros d7 Hd7 Hk7 Hc7. apply outcome_bind, outcome_Unlock. intros lk'. apply outcome_ret.
    split_and!; simpl; rewrite ?Hk7, ?Ek6; [|done|congruence].
    intros h c Hc Hn. by apply (Hgone h c Hc), Hd7. }
  destruct (decide _).
  - apply outcome_update_node_any; [|done]. intros c Hc. apply Hend; [|done|done].
    intros h. simpl. intros Hh. apply lookup_insert_None in Hh as [? _]. done.
  - apply outcome_ret. by apply Hend.
Qed.

(** X4: On a well-formed database with the lock free: a node that [Cap] takes
    out of the Node Store is on disk, under its hash, with the encoding it
    had, and every key the disk had it still has. *)
Theorem Cap_writes_before_evicting (limit : Z) (db : Database) (l : list N)
    (r : option error) (db' : Database) :
  FL l ∅ db -> lock db = unlocked ->
  Cap limit db = Ok r db' ->
  (forall h c, dirties db !! h = Some c -> dirties db' !! h = None ->
               kv (diskdb db') !! (TrieNodeKey, h) = Some (rlp c)) /\
  keeps (kv (diskdb db)) (kv (diskdb db')).
Proof.
  intros HFL Hlock E.
  destruct (outcome_ok _ _ _ _ _ _ (Cap_store limit db l HFL Hlock) E) as (H1 & H2 & _).
  done.
Qed.


(** ** Reading back *)

Lemma Node_reads h db enc :
  h <> zeroHash -> writer (lock db) = false -> enc <> [] ->
  cleans_Get db h = None \/ cleans_Get db h = Some enc ->
  (exists c, dirties db !! h = Some c /\ rlp c = enc) \/
  (dirties db !! h = None /\ kv (diskdb db) !! (TrieNodeKey, h) = Some enc) ->
  exists db', Node h db = Ok (enc, None) db'.
Proof.
  intros Hh Hw Henc Hcl Hsrc. unfold Node. rewrite decide_False by done. munfold.
  destruct Hcl as [-> | ->]; [|by eexists].
  unfold RLock, RUnlock. rewrite Hw. simpl.
  destruct Hsrc as [(c & -> & <-)|[-> Hkv]]; [by eexists|].
  unfold ReadTrieNode. simpl. rewrite Hkv. simpl.
  rewrite decide_True; [by eexists|].
  destruct enc; [done|]. unfold blen. simpl. lia.
Qed.

Lemma insert_keeps_cache hash size n db db' :
  insert hash size n db = Ok tt db' -> cleans db' = cleans db /\ lock db' = lock db.
Proof.
  unfold insert. munfold.
  destruct (dirties db !! hash); [by intros [= <-]|].
  destruct (simplifyNode n); [|done]. simpl.
  destruct (decide _); simpl; [by intros [= <-]|].
  destruct (_ !! newest db); [|done]. simpl. by intros [= <-].
Qed.

(** X12: A node inserted under a new hash is read back by [Node]: the answer is
    the encoding of the collapsed node, unless the clean cache already
    holds a blob for the hash, which is then the answer. *)
Theorem Node_after_insert (l : list N) (db : Database) (hash : N) (size : Z) (n sn : node) :
  FL l ∅ db -> dirties db !! hash = None -> simplifyNode n = Some sn ->
  writer (lock db) = false ->
  exists db1 e, insert hash size n db = Ok tt db1 /\
    dirties db1 !! hash = Some e /\ cnode e = sn /\
    Node hash db1 = Ok (default (rlp e) (cleans_Get db hash), None) db1.
Proof.
  intros HFL Hnone Hsn Hw.
  destruct (post_elim _ _ _ (insert_FL l db hash size n sn HFL Hnone Hsn))
    as ([] & db1 & E & _ & _ & (e & He & Hen & _) & _).
  destruct (insert_keeps_cache _ _ _ _ _ E) as [Hc Hl].
  exists db1, e. split_and!; [done|done|done|].
  assert (Hh : hash <> zeroHash).
  { intros ->. destruct (proj2 (fl_keys _ _ _ HFL zeroHash)) as [? ?]; [by left|congruence]. }
  assert (Hcg : cleans_Get db1 hash = cleans_Get db hash)
    by (unfold cleans_Get; by rewrite Hc).
  unfold Node. rewrite decide_False by done. munfold. rewrite Hcg.
  destruct (cleans_Get db hash); [done|]. simpl.
  unfold RLock, RUnlock. rewrite Hl, Hw. simpl. rewrite He. simpl.
  f_equal. clear -Hl Hw. destruct db1 as [? ? ? ? ? ? ? ? ? ? ? ? [w r]]. simpl in *.
  rewrite Hl in *. destruct (lock db). simpl in *. by subst.
Qed.

(** X13: On a well-formed database with the lock free, [Cap] does not change
    what [Node] answers for a node of the Node Store whose encoding is
    not empty, as long as the clean cache has nothing else for its hash:
    flushed or not, the node is read back with the encoding it had. *)
Theorem Node_after_Cap (limit : Z) (l : list N) (db : Database) (h : N) (c : cachedNode)
    (r : option error) (db' : Database) :
  FL l ∅ db -> lock db = unlocked ->
  dirties db !! h = Some c -> h <> zeroHash -> rlp c <> [] ->
  cleans_Get db h = None \/ cleans_Get db h = Some (rlp c) ->
  Cap limit db = Ok r db' ->
  exists db'', Node h db' = Ok (rlp c, None) db''.
Proof.
  intros HFL Hlock Hc Hh Henc Hcl E.
  destruct (outcome_ok _ _ _ _ _ _ (Cap_store limit db l HFL Hlock) E) as (Hgone & _ & Hcs).
  destruct (outcome_ok _ _ _ _ _ _ (Cap_FL l limit db HFL Hlock) E)
    as (l' & _ & _ & Hsub & Hl' & _).
  apply Node_reads; [done|by rewrite Hl'| done| |].
  - unfold cleans_Get in *. by rewrite Hcs.
  - destruct (dirties db' !! h) as [c'|] eqn:Hc'.
    + left. exists c'. split; [done|].
      destruct (shape_sub_rlp db db' h c' c Hsub Hc' Hc) as [? _]. done.
    + right. split; [done|]. by apply Hgone.
Qed.


Lemma outcome_and {A} F (m : M A) db (Q Q' : A -> Database -> Prop) :
  outcome F m db Q -> outcome F m db Q' -> outcome F m db (fun a d => Q a d /\ Q' a d).
Proof. unfold outcome. by destruct (m db). Qed.

Section Cache.

Variable db0 : Database.

(** Whatever the clean cache holds it held before, or it is the encoding
    of the node the database had under that hash. *)
Definition cache_ok (db : Database) : Prop :=
  forall k v, cleans_lookup db k = Some v ->
    cleans_lookup db0 k = Some v \/ exists c, dirties db0 !! k = Some c /\ v = rlp c.

Lemma cache_ok_same d d' : cleans d' = cleans d -> cache_ok d -> cache_ok d'.
Proof. intros E H k v. unfold cleans_lookup. rewrite E. apply H. Qed.

Lemma cleaner_Put_cache uncache ks k v db :
  (exists c, dirties db0 !! k = Some c /\ v = rlp c) -> cache_ok db ->
  outcome (fun _ => True) (cleaner_Put uncache (ks, k) v) db (fun _ db' => cache_ok db').
Proof.
  intros Hv Hok. unfold cleaner_Put. simpl. apply outcome_bind, outcome_get.
  assert (Hset : forall d, cleans d = cleans db ->
            outcome (fun _ => True) (cleans_Set k v >> ret (@None error)) d
              (fun _ db' => cache_ok db')).
  { intros d Ed. unfold cleans_Set. apply outcome_bind, outcome_modify, outcome_ret.
    intros x w. unfold cleans_lookup.
    destruct (cleans d) as [m|] eqn:Em; simpl; [|by rewrite Em].
    destruct (decide (k = x)) as [<-|Hne].
    - rewrite lookup_insert_eq. intros [= <-]. by right.
    - rewrite lookup_insert_ne by done. intros Hx. apply Hok. unfold cleans_lookup.
      by rewrite <- Ed. }
  destruct uncache; [destruct (dirties db !! k) as [node|]|].
  - apply outcome_bind. apply outcome_bind.
    eapply outcome_mono; [by apply (unlink_links_only (fun _ => True))| |done].
    intros [] db1 [_ Hr]. unfold rest in Hr.
    assert (Ec : cleans db1 = cleans db) by congruence.
    apply outcome_bind, outcome_modify. apply outcome_bind, outcome_modify.
    apply outcome_bind.
    destruct (children node); [apply outcome_modify|apply outcome_ret];
      apply outcome_ret; by apply Hset.
  - apply outcome_bind, outcome_ret. by apply outcome_ret.
  - apply outcome_bind, outcome_ret. by apply Hset.
Qed.

Lemma Replay_cache uncache : forall b db,
  Forall (node_put db0) b -> cache_ok db ->
  outcome (fun _ => True) (Replay uncache b) db (fun _ db' => cache_ok db').
Proof.
  induction b as [|o b IH]; intros db Hb Hok; simpl; [by apply outcome_ret|].
  apply Forall_cons in Hb as [(k & c & -> & Hk) Hb].
  apply outcome_bind.
  eapply outcome_mono; [apply cleaner_Put_cache; [by eauto|done]| |done].
  intros r db1 Hok1. by apply IH.
Qed.

Lemma commit_cache uncache : forall fuel h batch db,
  durable db0 batch db -> cache_ok db ->
  outcome (fun _ => True) (commit fuel uncache h batch) db (fun r db' => cache_ok db').
Proof.
  induction fuel as [|fuel IH]; intros h batch db Hdu Hok; [done|].
  simpl. apply outcome_bind, outcome_get.
  destruct (decide (h ∈ freshNodes db)) as [Hfr|Hfr]; [|by apply outcome_ret].
  destruct (dirties db !! h) as [node|] eqn:Hn; [|by apply outcome_ret].
  destruct (forChilds node) as [cs|]; [|done].
  apply outcome_bind.
  set (f := fun child (s : option error * list batchop) =>
              match s.1 with
              | Some _ => ret s
              | None => commit fuel uncache child s.2
              end).
  assert (Hfold : forall cs s d, durable db0 s.2 d -> cache_ok d ->
    outcome (fun _ => True) (foldM f cs s) d (fun r d' =>
      durable db0 r.2 d' /\ cache_ok d')).
  { clear -IH. induction cs as [|x cs IHcs]; intros s d Hd Hc; simpl.
    - by apply outcome_ret.
    - apply outcome_bind. unfold f at 1.
      destruct s.1 as [e|] eqn:Es.
      + apply outcome_ret. by apply IHcs.
      + eapply outcome_mono;
          [apply outcome_and; [by apply (commit_durable db0 uncache)|by apply IH]| |done].
        intros r1 d1 [(Hd1 & _) Hc1]. by apply IHcs. }
  eapply outcome_mono; [by apply (Hfold cs (None, batch) db)| |done].
  intros r db1 (Hd1 & Hc1).
  destruct r.1 as [e|]; [by apply outcome_ret|].
  set (b := WriteTrieNode r.2 h (rlp node)).
  assert (Hbn : Forall (node_put db0) b).
  { apply Forall_app. split; [apply (du_batch _ _ _ Hd1)|]. apply Forall_singleton.
    destruct (du_sub _ _ _ Hdu _ _ Hn) as (c0 & Hc0 & _). exists h, c0.
    destruct (shape_sub_rlp db0 db h node c0 (du_sub _ _ _ Hdu) Hn Hc0) as [-> _]. done. }
  destruct (decide _) as [Hsz|Hsz]; [|by apply outcome_ret].
  apply outcome_bind. apply batch_Write_spec. intros [e|] d; [by apply outcome_ret|].
  apply outcome_bind, outcome_Lock. intros lk. apply outcome_bind.
  eapply outcome_mono; [by apply (Replay_cache uncache b)| |done].
  intros [] db3 Hc3. apply outcome_bind, outcome_Unlock. intros lk'.
  by apply outcome_ret.
Qed.

End Cache.

Lemma Commit_cache root report uncache db :
  outcome (fun _ => True) (Commit root report uncache) db (fun _ db' => cache_ok db db').
Proof.
  assert (Hok : forall d, cache_ok db (set_diskdb d db)) by (intros d k v; by left).
  assert (Hstart : forall d, durable db [] (set_diskdb d db)).
  { intros d. constructor; simpl; [by intros k c' Hk; exists c'|done|by apply Forall_nil| |].
    - intros k v y Hin. by apply elem_of_nil in Hin.
    - intros h [c Hc] Hn. congruence. }
  unfold Commit. apply outcome_bind, outcome_get. apply outcome_bind.
  assert (Hw : forall (b : list batchop) d,
            outcome (fun _ => True) (batch_Write b) (set_diskdb d db)
              (fun _ d1 => exists d', d1 = set_diskdb d' db)).
  { intros b d. apply batch_Write_spec. intros ? d'. exists d'. by destruct db. }
  eapply outcome_mono with (F := fun _ => True)
                           (Q := fun _ d1 => exists d, d1 = set_diskdb d db); [| |done].
  2:{ intros [e|] d1 (d & ->); [by apply outcome_ret|].
      apply outcome_bind, outcome_get. apply outcome_bind.
      eapply outcome_mono;
        [apply outcome_and;
           [apply (commit_durable db uncache), Hstart|apply (commit_cache db uncache); auto]
        | |done].
      intros r1 d1 [(Hd1 & _) Hc1].
      destruct r1.1 as [e|]; [by apply outcome_ret|].
      apply outcome_bind. apply batch_Write_spec. intros [e|] d'; [by apply outcome_ret|].
      apply outcome_bind, outcome_Lock. intros lk. apply outcome_bind.
      eapply outcome_mono;
        [apply (Replay_cache db uncache r1.2); [apply (du_batch _ _ _ Hd1)|done]| |done].
      intros [] d3 Hc3.
      apply outcome_bind, outcome_modify. apply outcome_bind, outcome_modify.
      apply outcome_bind, outcome_Unlock. intros lk'. apply outcome_ret.
      eapply cache_ok_same; [|exact Hc3]. simpl. by destruct (preimages d3). }
  destruct (preimages db) as [p|]; [|apply outcome_ret; exists (diskdb db); by destruct db].
  rewrite <- (set_diskdb_same db). generalize (diskdb db) as d0. intros d0.
  apply outcome_bind.
  destruct (decide _) as [Hsz|Hsz].
  - apply outcome_bind. eapply outcome_mono; [apply Hw| |done].
    intros [e|] d1 (d & ->); apply outcome_ret; simpl; [apply outcome_ret; by eexists|apply Hw].
  - apply outcome_ret. simpl. apply Hw.
Qed.

(** X14: On a well-formed database with the lock free, [Commit] does not change
    what [Node] answers for a node of the Node Store whose encoding is not
    empty, as long as the clean cache has nothing else for its hash:
    committed or not, uncached or not, the node is read back with the
    encoding it had. *)
Theorem Node_after_Commit (root : N) (report uncache : bool) (l : list N) (db : Database)
    (h : N) (c : cachedNode) (r : option error) (db' : Database) :
  FL l ∅ db -> G db -> lock db = unlocked -> zeroHash ∉ freshNodes db ->
  dirties db !! h = Some c -> h <> zeroHash -> rlp c <> [] ->
  cleans_Get db h = None \/ cleans_Get db h = Some (rlp c) ->
  Commit root report uncache db = Ok r db' ->
  exists db'', Node h db' = Ok (rlp c, None) db''.
Proof.
  intros HFL HG Hlock Hfresh Hc Hh Henc Hcl E.
  destruct (outcome_ok _ _ _ _ _ _ (Commit_store root report uncache db) E) as [Hgone _].
  pose proof (outcome_ok _ _ _ _ _ _ (Commit_cache root report uncache db) E) as Hcache.
  destruct (outcome_ok _ _ _ _ _ _ (Commit_FL root report uncache l db HFL HG Hlock Hfresh) E)
    as (l' & _ & _ & Hsub & Hl' & _).
  apply Node_reads; [done|by rewrite Hl'|done| |].
  - unfold cleans_Get in *. unfold cache_ok, cleans_lookup in Hcache.
    destruct (cleans db') as [m'|]; [|by left].
    destruct (m' !! h) as [[|x v]|] eqn:Hm; [by left| |by left].
    destruct (Hcache h (x :: v) Hm) as [H0|(c0 & Hc0 & ->)].
    + destruct (cleans db) as [m|]; [|done]. rewrite H0 in Hcl. by right; destruct Hcl.
    + right. congruence.
  - destruct (dirties db' !! h) as [c'|] eqn:Hc'.
    + left. exists c'. split; [done|].
      destruct (shape_sub_rlp db db' h c' c Hsub Hc' Hc) as [? _]. done.
    + right. split; [done|]. by apply Hgone.
Qed.


(** ** Preimages *)

(** What [preimagesSize] counts: hash length plus length for every preimage
    held. *)
Definition preimages_sum (db : Database) : Z :=
  match preimages db with
  | Some p => map_fold (fun _ (v : list Byte.byte) acc => acc + (HashLength + blen v)) 0 p
  | None => 0
  end.

(** X15: [insertPreimage] returns; where preimages are recorded it keeps the
    preimage a hash already has and stores the new one otherwise, it
    changes nothing else, and [preimagesSize] stays the sum over the
    preimages held. *)
Theorem insertPreimage_accounts (hash : N) (preimage : list Byte.byte) (db : Database) :
  preimagesSize db = preimages_sum db ->
  exists db', insertPreimage hash preimage db = Ok tt db' /\
    preimagesSize db' = preimages_sum db' /\
    preimages db'
    = (fun p => match p !! hash with Some _ => p | None => <[hash := preimage]> p end)
        <$> preimages db /\
    db' = set_preimagesSize (preimagesSize db') (set_preimages (preimages db') db).
Proof.
  intros Hacc. unfold insertPreimage. munfold. unfold preimages_sum in *.
  destruct (preimages db) as [p|] eqn:Hp; simpl.
  2:{ exists db. rewrite Hp. split_and!; [done|done|done|]. destruct db; simpl in *; by subst. }
  destruct (p !! hash) as [v|] eqn:Hv; simpl.
  { exists db. rewrite Hp. split_and!; [done|done|done|]. destruct db; simpl in *; by subst. }
  eexists. split; [done|]. simpl. split_and!; [|done|done].
  rewrite map_fold_insert_L; [lia| |done]. intros. lia.
Qed.

Lemma apply_batch_cons o b m : apply_batch (o :: b) m = apply_batch b (apply_op o m).
Proof. done. Qed.

Lemma node_puts_keep_preimages db0 b : forall m h,
  Forall (node_put db0) b -> apply_batch b m !! (PreimageKey, h) = m !! (PreimageKey, h).
Proof.
  induction b as [|o b IH]; intros m h Hb; [done|].
  apply Forall_cons in Hb as [(k & c & -> & _) Hb].
  rewrite apply_batch_cons, IH by done. cbn [apply_op]. by rewrite lookup_insert_ne.
Qed.

Lemma WritePreimages_stores p m h v :
  p !! h = Some v -> apply_batch (WritePreimages [] p) m !! (PreimageKey, h) = Some v.
Proof.
  unfold WritePreimages. simpl. intros Hh.
  apply elem_of_map_to_list in Hh.
  pose proof (NoDup_fst_map_to_list p) as Hnd.
  revert m Hh Hnd. generalize (map_to_list p) as l.
  induction l as [|[k w] l IH]; intros m Hin Hnd; [by apply elem_of_nil in Hin|].
  rewrite fmap_cons in Hnd. apply NoDup_cons in Hnd as [Hk Hnd].
  rewrite map_cons, apply_batch_cons. cbn [apply_op fst snd].
  apply elem_of_cons in Hin as [[= <- <-]|Hin]; [|by apply IH].
  clear IH Hnd. revert m. induction l as [|[k' w'] l IHl]; intros m.
  - simpl. by rewrite lookup_insert_eq.
  - rewrite map_cons, apply_batch_cons. cbn [apply_op fst snd].
    rewrite insert_insert_ne.
    + apply IHl. intros Hin. apply Hk. rewrite fmap_cons. by right.
    + intros [= ->]. apply Hk. rewrite fmap_cons. left.
Qed.

(** Replaying changes neither the disk nor the preimages. *)
Lemma cleaner_Put_frame uncache key v db :
  outcome (fun _ => True) (cleaner_Put uncache key v) db (fun _ db' =>
    diskdb db' = diskdb db /\ preimages db' = preimages db).
Proof.
  unfold cleaner_Put. apply outcome_bind, outcome_get.
  assert (Hset : forall d, diskdb d = diskdb db -> preimages d = preimages db ->
            outcome (fun _ => True) (cleans_Set key.2 v >> ret (@None error)) d
              (fun _ db' => diskdb db' = diskdb db /\ preimages db' = preimages db)).
  { intros d E1 E2. unfold cleans_Set. apply outcome_bind, outcome_modify, outcome_ret.
    by destruct (cleans d). }
  destruct uncache; [destruct (dirties db !! key.2) as [node|]|].
  - apply outcome_bind. apply outcome_bind.
    eapply outcome_mono; [by apply (unlink_links_only (fun _ => True))| |done].
    intros [] db1 [_ Hr]. unfold rest in Hr.
    assert (E1 : diskdb db1 = diskdb db) by congruence.
    assert (E2 : preimages db1 = preimages db) by congruence.
    apply outcome_bind, outcome_modify. apply outcome_bind, outcome_modify.
    apply outcome_bind.
    destruct (children node); [apply outcome_modify|apply outcome_ret];
      apply outcome_ret; by apply Hset.
  - apply outcome_bind, outcome_ret. by apply outcome_ret.
  - apply outcome_bind, outcome_ret. by apply Hset.
Qed.

Lemma Replay_frame uncache : forall b db,
  outcome (fun _ => True) (Replay uncache b) db (fun _ db' =>
    diskdb db' = diskdb db /\ preimages db' = preimages db).
Proof.
  induction b as [|o b IH]; intros db; simpl; [by apply outcome_ret|].
  destruct o as [k v|?]; [|done]. apply outcome_bind.
  eapply outcome_mono; [apply cleaner_Put_frame| |done].
  intros r db1 [E1 E2]. eapply outcome_mono; [apply IH| |done].
  intros [] db2 [E1' E2']. split; congruence.
Qed.

(** The frame of a write, a lock and a replay, as [commit] and [Commit] do
    them in a row. *)
Definition pre_frame (db db' : Database) : Prop :=
  preimages db' = preimages db /\
  forall h, kv (diskdb db') !! (PreimageKey, h) = kv (diskdb db) !! (PreimageKey, h).

Lemma pre_frame_refl db : pre_frame db db.
Proof. done. Qed.

Lemma pre_frame_trans db1 db2 db3 : pre_frame db1 db2 -> pre_frame db2 db3 -> pre_frame db1 db3.
Proof. intros [E1 H1] [E2 H2]. split; [congruence|]. intros h. by rewrite H2. Qed.

Lemma commit_pre_frame db0 uncache : forall fuel h batch db,
  durable db0 batch db ->
  outcome (fun _ => True) (commit fuel uncache h batch) db (fun r db' => pre_frame db db').
Proof.
  induction fuel as [|fuel IH]; intros h batch db Hdu; [done|].
  simpl. apply outcome_bind, outcome_get.
  destruct (decide (h ∈ freshNodes db)) as [Hfr|Hfr]; [|by apply outcome_ret].
  destruct (dirties db !! h) as [node|] eqn:Hn; [|by apply outcome_ret].
  destruct (forChilds node) as [cs|]; [|done].
  apply outcome_bind.
  set (f := fun child (s : option error * list batchop) =>
              match s.1 with
              | Some _ => ret s
              | None => commit fuel uncache child s.2
              end).
  assert (Hfold : forall cs s d, durable db0 s.2 d ->
    outcome (fun _ => True) (foldM f cs s) d (fun r d' =>
      durable db0 r.2 d' /\ pre_frame d d')).
  { clear -IH. induction cs as [|x cs IHcs]; intros s d Hd; simpl.
    - by apply outcome_ret.
    - apply outcome_bind. unfold f at 1.
      destruct s.1 as [e|] eqn:Es.
      + apply outcome_ret. by apply IHcs.
      + eapply outcome_mono;
          [apply outcome_and; [by apply (commit_durable db0 uncache)|by apply IH]| |done].
        intros r1 d1 [(Hd1 & _) Hf1]. eapply outcome_mono; [by apply IHcs| |done].
        intros r2 d2 [Hd2 Hf2]. split; [done|by eapply pre_frame_trans]. }
  eapply outcome_mono; [by apply (Hfold cs (None, batch) db)| |done].
  intros r db1 (Hd1 & Hf1).
  destruct r.1 as [e|]; [by apply outcome_ret|].
  set (b := WriteTrieNode r.2 h (rlp node)).
  assert (Hbn : Forall (node_put db0) b).
  { apply Forall_app. split; [apply (du_batch _ _ _ Hd1)|]. apply Forall_singleton.
    destruct (du_sub _ _ _ Hdu _ _ Hn) as (c0 & Hc0 & _). exists h, c0.
    destruct (shape_sub_rlp db0 db h node c0 (du_sub _ _ _ Hdu) Hn Hc0) as [-> _]. done. }
  destruct (decide _) as [Hsz|Hsz]; [|by apply outcome_ret].
  apply outcome_bind. apply batch_Write_cases; intros fs.
  2:{ apply outcome_ret. destruct Hf1 as [E1 H1]. by split. }
  apply outcome_bind, outcome_Lock. intros lk. apply outcome_bind.
  eapply outcome_mono; [apply Replay_frame| |done].
  intros [] db3 [E3 P3]. apply outcome_bind, outcome_Unlock. intros lk'.
  apply outcome_ret. destruct Hf1 as [E1 H1]. simpl in *. split; simpl; [congruence|].
  intros x. rewrite E3. simpl. rewrite (node_puts_keep_preimages db0) by done. apply H1.
Qed.

(** X11: When preimages are recorded and [Commit] answers nil, every preimage
    the database held is on disk under its preimage key, and the database
    holds no preimage any more, with [preimagesSize] at zero. *)
Theorem Commit_flushes_preimages (root : N) (report uncache : bool) (db db' : Database)
    (p : gmap N (list Byte.byte)) :
  preimages db = Some p ->
  Commit root report uncache db = Ok None db' ->
  (forall h v, p !! h = Some v -> kv (diskdb db') !! (PreimageKey, h) = Some v) /\
  preimages db' = Some ∅ /\ preimagesSize db' = 0.
Proof.
  intros Hp. revert db'.
  enough (H : outcome (fun _ => True) (Commit root report uncache) db (fun r db' =>
    r = None ->
    (forall h v, p !! h = Some v -> kv (diskdb db') !! (PreimageKey, h) = Some v) /\
    preimages db' = Some ∅ /\ preimagesSize db' = 0))
    by (intros db' E; exact (outcome_ok _ _ _ _ _ _ H E eq_refl)).
  assert (Hstart : forall d, durable db [] (set_diskdb d db)).
  { intros d. constructor; simpl; [by intros k c' Hk; exists c'|done|by apply Forall_nil| |].
    - intros k v y Hin. by apply elem_of_nil in Hin.
    - intros h [c Hc] Hn. congruence. }
  unfold Commit. apply outcome_bind, outcome_get. apply outcome_bind.
  eapply outcome_mono with (F := fun _ => True)
    (Q := fun (pre : option error) d1 => pre = None ->
            exists d, d1 = set_diskdb d db /\
              forall h v, p !! h = Some v -> kv d !! (PreimageKey, h) = Some v); [| |done].
  2:{ intros [e|] d1 Hpre; [by apply outcome_ret|].
      destruct (Hpre eq_refl) as (d & -> & Hd). clear Hpre.
      apply outcome_bind, outcome_get. apply outcome_bind.
      eapply outcome_mono;
        [apply outcome_and;
           [apply (commit_durable db uncache), Hstart|apply (commit_pre_frame db uncache), Hstart]
        | |done].
      intros r1 d1 [(Hd1 & _) [Ep1 Hk1]].
      destruct r1.1 as [e|]; [by apply outcome_ret|].
      apply outcome_bind. apply batch_Write_cases; intros fs; [|by apply outcome_ret].
      apply outcome_bind, outcome_Lock. intros lk. apply outcome_bind.
      eapply outcome_mono; [apply Replay_frame| |done].
      intros [] d3 [E3 P3].
      apply outcome_bind, outcome_modify. apply outcome_bind, outcome_modify.
      apply outcome_bind, outcome_Unlock. intros lk'. apply outcome_ret. intros _.
      simpl in *. rewrite P3, Ep1, Hp. simpl. split_and!; [|done|done].
      intros h v Hv. rewrite E3. simpl.
      rewrite (node_puts_keep_preimages db) by apply (du_batch _ _ _ Hd1).
      rewrite Hk1. by apply Hd. }
  rewrite Hp. apply outcome_bind.
  destruct (decide _) as [Hsz|Hsz].
  - apply outcome_bind. apply batch_Write_cases; intros fs; apply outcome_ret; simpl.
    + apply batch_Write_cases; intros fs'; [|done].
      intros _. eexists. split; [done|]. simpl. intros h v Hv.
      by apply WritePreimages_stores.
    + by apply outcome_ret.
  - apply outcome_ret. simpl. apply batch_Write_cases; intros fs; [|done].
    intros _. eexists. split; [done|]. simpl. intros h v Hv. by apply WritePreimages_stores.
Qed.


Lemma put_nodes_preimage_keys d : forall la E h,
  foldl (put_node d) E la !! (PreimageKey, h) = E !! (PreimageKey, h).
Proof.
  induction la as [|x la IH]; intros E h; simpl; [done|].
  rewrite IH. unfold put_node. destruct (d !! x); [|done]. by rewrite lookup_insert_ne.
Qed.

(** What [Cap] does to the preimages when it answers nil. *)
Definition Cap_preimages_post (db db' : Database) : Prop :=
  match preimages db with
  | Some p =>
      if bool_decide (preimagesSize db > 4 * 1024 * 1024) then
        (forall h v, p !! h = Some v -> kv (diskdb db') !! (PreimageKey, h) = Some v) /\
        preimages db' = Some ∅ /\ preimagesSize db' = 0
      else preimages db' = Some p /\ preimagesSize db' = preimagesSize db
  | None => preimages db' = None /\ preimagesSize db' = preimagesSize db
  end.

Lemma Cap_preimages (limit : Z) (db : Database) (l : list N) :
  FL l ∅ db -> lock db = unlocked ->
  outcome (fun _ => True) (Cap limit) db (fun r db' => r = None -> Cap_preimages_post db db').
Proof.
  intros HFL Hlock.
  unfold Cap. apply outcome_bind, outcome_get.
  apply outcome_bind. unfold outcome at 1, deref.
  destruct (dirties db !! zeroHash) as [meta|] eqn:Hmeta; [|done].
  apply outcome_bind.
  set (flush := bool_decide (preimagesSize db > 4 * 1024 * 1024)).
  eapply outcome_mono with (F := fun _ => True) (Q := fun pre d1 =>
    exists d, d1 = set_diskdb d db /\
      match pre with
      | inl _ => True
      | inr batch =>
          puts batch /\
          forall p, flush = true -> preimages db = Some p -> forall h v, p !! h = Some v ->
                    apply_batch batch (kv d) !! (PreimageKey, h) = Some v
      end); [| |done].
  { assert (Hnil : flush = false \/ preimages db = None ->
              outcome (fun _ => True) (ret (inr [])) db
              (fun (pre : error + list batchop) d1 =>
                 exists d, d1 = set_diskdb d db /\
                   match pre with
                   | inl _ => True
                   | inr batch =>
                       puts batch /\
                       forall p, flush = true -> preimages db = Some p ->
                         forall h v, p !! h = Some v ->
                                     apply_batch batch (kv d) !! (PreimageKey, h) = Some v
                   end)).
    { intros Hno. apply outcome_ret. exists (diskdb db).
      split_and!; [by destruct db|by apply Forall_nil|].
      intros p Hf Hp. destruct Hno; congruence. }
    destruct flush eqn:Ef.
    2:{ apply Hnil. by left. }
    destruct (preimages db) as [p|] eqn:Ep.
    2:{ apply Hnil. by right. }
    assert (Hp : puts (WritePreimages [] p)) by (by apply puts_WritePreimages, Forall_nil).
    destruct (decide _).
    - apply outcome_bind. apply batch_Write_cases; intros fs; apply outcome_ret; simpl.
      + eexists. split_and!; [done|by apply Forall_nil|]. simpl.
        intros p0 _ [= <-] h v Hv. by apply WritePreimages_stores.
      + by eexists.
    - apply outcome_ret. exists (diskdb db). split_and!; [by destruct db|done|].
      intros p0 _ [= <-] h v Hv. by apply WritePreimages_stores. }
  intros [e|batch] d1 (d & -> & Hpre); [by apply outcome_ret|].
  destruct Hpre as [Hpb Hkb].
  apply outcome_bind. rewrite (fl_oldest _ _ _ HFL).
  eapply outcome_mono;
    [apply (Cap_scan_store limit l (S (size (dirties db))) _ batch (set_diskdb d db) None);
     [apply (fl_seg _ _ _ HFL)|apply (fl_zero _ _ _ HFL)|rewrite (FL_size _ _ HFL); simpl; lia
     |simpl; by rewrite Hlock|done]| |done].
  intros [e|[stop b2]] d2 H; [done|].
  destruct H as (d3 & la & lb & -> & -> & -> & Hp2 & Hk2 & E2). simpl in Hk2, E2.
  set (E := foldl (put_node (dirties db)) (apply_batch batch (kv d)) la) in *.
  apply outcome_bind. apply batch_Write_cases; intros fs; [|by apply outcome_ret].
  simpl. rewrite E2.
  apply outcome_bind, outcome_Lock. intros lk.
  apply outcome_bind.
  set (d4 := set_lock lk (set_diskdb (mkDisk E fs) (set_diskdb d3 (set_diskdb d db)))).
  set (pre' := match preimages db with
               | Some p => if flush then (Some ∅, 0) else (Some p, preimagesSize db)
               | None => (None, preimagesSize db)
               end).
  apply outcome_mono with (F := fun _ => True) (Q := fun _ d5 =>
    dirties d5 = dirties db /\ oldest d5 = oldest db /\ newest d5 = newest db /\
    kv (diskdb d5) = E /\ preimages d5 = pre'.1 /\ preimagesSize d5 = pre'.2); [| |done].
  { unfold pre'. fold flush. destruct flush.
    - apply outcome_modify. unfold d4. simpl.
      destruct (preimages db) eqn:Ep; simpl; rewrite ?Ep; by split_and!.
    - apply outcome_ret. unfold d4. simpl.
      destruct (preimages db) eqn:Ep; simpl; rewrite ?Ep; by split_and!. }
  intros [] d5 (Ed5 & Eo5 & En5 & Ek5 & Ep5 & Es5).
  apply outcome_bind, outcome_get. apply outcome_bind.
  assert (HFL5 : FL (la ++ lb) ∅ d5) by (by eapply FL_same; [| | |exact HFL]).
  eapply outcome_mono;
    [apply (outcome_post (fun _ => True)), (Cap_evict_spec la (S (size (dirties d5))) lb d5 HFL5)
    | |done].
  { rewrite (FL_size _ _ HFL5), length_app. lia. }
  intros [] d6 (HFL6 & _ & Hfr6 & Ec6).
  destruct Hfr6 as (Ek6 & _ & _ & _ & Ep6 & Es6 & _).
  apply outcome_bind, outcome_get. apply outcome_bind.
  assert (Hend : forall d7, diskdb d7 = diskdb d6 -> preimages d7 = preimages d6 ->
            preimagesSize d7 = preimagesSize d6 ->
            outcome (fun _ => True) (Unlock >> ret None) d7 (fun (r : option error) db' =>
              r = None -> Cap_preimages_post db db')).
  { intros d7 Hk7 Hp7 Hs7. apply outcome_bind, outcome_Unlock. intros lk'. apply outcome_ret.
    intros _. unfold Cap_preimages_post. simpl.
    rewrite Hk7, Hp7, Hs7, Ek6, Ep6, Es6, Ek5, Ep5, Es5. unfold pre'. fold flush.
    destruct (preimages db) as [p|] eqn:Ep; [|done].
    destruct flush eqn:Ef; [|done]. split_and!; [|done|done].
    intros h v Hv. unfold E. rewrite put_nodes_preimage_keys. by eapply Hkb. }
  destruct (decide _).
  - apply outcome_update_node_any; [|done]. intros c Hc. by apply Hend.
  - apply outcome_ret. by apply Hend.
Qed.

(** X5: On a well-formed database with the lock free and preimages recorded,
    when [Cap] answers nil: over the four-mebibyte threshold every preimage
    held is on disk under its preimage key and none is held any more, with
    [preimagesSize] at zero; at or under the threshold the preimages stay as
    they are. *)
Theorem Cap_flushes_preimages (limit : Z) (db db' : Database) (l : list N)
    (p : gmap N (list Byte.byte)) :
  FL l ∅ db -> lock db = unlocked -> preimages db = Some p ->
  Cap limit db = Ok None db' ->
  (preimagesSize db > 4 * 1024 * 1024 ->
     (forall h v, p !! h = Some v -> kv (diskdb db') !! (PreimageKey, h) = Some v) /\
     preimages db' = Some ∅ /\ preimagesSize db' = 0) /\
  (preimagesSize db <= 4 * 1024 * 1024 ->
     preimages db' = Some p /\ preimagesSize db' = preimagesSize db).
Proof.
  intros HFL Hlock Hp E.
  pose proof (outcome_ok _ _ _ _ _ _ (Cap_preimages limit db l HFL Hlock) E eq_refl) as H.
  unfold Cap_preimages_post in H. rewrite Hp in H.
  case_bool_decide as Hsz; split; intros ?; try done; lia.
Qed.


(** ** Expanding a collapsed node *)

Section Expansion.

(** [compactToHex] of the trie's key encoding, and the decoder of an
    encoded node; [None] is the panic of [mustDecodeNode]. *)
Variable compactToHex : list Byte.byte -> list Byte.byte.
Variable mustDecodeNode : N -> list Byte.byte -> option node.

(** [expandNode]; [None] is the panic on an unknown node type.  The hash
    argument only goes into the flags of the node built, which the
    embedding leaves out. *)
Fixpoint expandNode (n : node) : option node :=
  match n with
  | rawShortNode k v =>
      match expandNode v with
      | Some v' => Some (shortNode (compactToHex k) v')
      | None => None
      end
  | rawFullNode cs =>
      let fix go (l : list node) : option (list node) :=
        match l with
        | [] => Some []
        | c :: r =>
            match (match c with nilNode => Some nilNode | _ => expandNode c end), go r with
            | Some c', Some r' => Some (c' :: r')
            | _, _ => None
            end
        end in
      match go cs with
      | Some cs' => Some (fullNode cs')
      | None => None
      end
  | valueNode _ | hashNode _ => Some n
  | nilNode | rawNode _ | fullNode _ | shortNode _ _ => None
  end.

(** A raw blob somewhere in the node. *)
Fixpoint has_raw (n : node) : bool :=
  match n with
  | rawNode _ => true
  | shortNode _ v | rawShortNode _ v => has_raw v
  | fullNode cs | rawFullNode cs => existsb has_raw cs
  | nilNode | hashNode _ | valueNode _ => false
  end.

(** The node with the keys of its short nodes in hex form. *)
Fixpoint hexKeys (n : node) : node :=
  match n with
  | shortNode k v => shortNode (compactToHex k) (hexKeys v)
  | fullNode cs => fullNode (List.map hexKeys cs)
  | _ => n
  end.

Lemma expandNode_simplified (n : node) : forall sn,
  simplifyNode n = Some sn ->
  expandNode sn = if has_raw n then None else Some (hexKeys n).
Proof.
  induction n as [|cs IH|k v IH|h|v|b|cs IH|k v IH] using node_nested_ind;
    intros sn; simpl; try done.
  - match goal with |- context [match ?g cs with _ => _ end] => set (go := g) end.
    destruct (go cs) as [cs'|] eqn:E; [|done].
    intros [= <-]. simpl.
    match goal with |- context [match ?g cs' with _ => _ end] => set (go' := g) end.
    enough (H : go' cs' = if existsb has_raw cs then None else Some (List.map hexKeys cs)).
    { rewrite H. by destruct (existsb has_raw cs). }
    revert cs' E.
    induction IH as [|c r Hc Hr IHr]; intros cs' E; simpl in E.
    + by injection E as <-.
    + destruct (match c with nilNode => Some nilNode | _ => simplifyNode c end) as [c'|] eqn:Ec;
        [|done].
      destruct (go r) as [r'|] eqn:Er; [|done].
      injection E as <-. simpl. rewrite (IHr r' eq_refl).
      assert (Hc' : match c' with nilNode => Some nilNode | _ => expandNode c' end
                    = if has_raw c then None else Some (hexKeys c)).
      { destruct c; try (rewrite <- (Hc c' Ec); destruct c'; try done;
                         apply simplifyNode_collapsed in Ec; done).
        by injection Ec as <-. }
      rewrite Hc'. destruct (has_raw c); [done|]. simpl. by destruct (existsb has_raw r).
  - destruct (simplifyNode v) as [v'|] eqn:E; [|done].
    intros [= <-]. simpl. rewrite (IH v' eq_refl). by destruct (has_raw v).
  - by intros [= <-].
  - by intros [= <-].
  - by intros [= <-].
Qed.

(** X16: Expanding what [simplifyNode] made of a node panics when the node holds
    a raw blob anywhere, and otherwise gives the node back with the keys of
    its short nodes passed through [compactToHex]. *)
Theorem expandNode_simplifyNode (n sn : node) :
  simplifyNode n = Some sn ->
  expandNode sn = if has_raw n then None else Some (hexKeys n).
Proof. apply expandNode_simplified. Qed.

(** [cachedNode.obj]: the decoded blob, or the expanded collapsed node. *)
Definition obj (n : cachedNode) (hash : N) : option node :=
  match cnode n with
  | rawNode blob => mustDecodeNode hash blob
  | _ => expandNode (cnode n)
  end.

(** [Database.node]: the node in memory form, [nilNode] when there is none;
    [None] is a panic of the decoder or of [expandNode].  [diskdb.Get]
    fails on a key the store does not have. *)
Definition Database_node (hash : N) : M (option node) :=
  let* db := get in
  match cleans_Get db hash with
  | Some enc => ret (mustDecodeNode hash enc)
  | None =>
      RLock >>
      let* db := get in
      let dirty := dirties db !! hash in
      RUnlock >>
      match dirty with
      | Some d => ret (obj d hash)
      | None =>
          match kv (diskdb db) !! (TrieNodeKey, hash) with
          | None => ret (Some nilNode)
          | Some enc => cleans_Set hash enc >> ret (mustDecodeNode hash enc)
          end
      end
  end.

(** X17: A node inserted under a new hash for which the clean cache has nothing
    is read back by [node] in memory form: a raw blob decoded, any other
    node with the keys of its short nodes in hex form, and a panic when a
    raw blob sits inside it. *)
Theorem node_after_insert (l : list N) (db : Database) (hash : N) (size : Z) (n sn : node) :
  FL l ∅ db -> dirties db !! hash = None -> simplifyNode n = Some sn ->
  writer (lock db) = false -> cleans_Get db hash = None ->
  exists db1, insert hash size n db = Ok tt db1 /\
    Database_node hash db1
    = Ok (match n with
          | rawNode blob => mustDecodeNode hash blob
          | _ => if has_raw n then None else Some (hexKeys n)
          end) db1.
Proof.
  intros HFL Hnone Hsn Hw Hcl.
  destruct (post_elim _ _ _ (insert_FL l db hash size n sn HFL Hnone Hsn))
    as ([] & db1 & E & _ & _ & (e & He & Hen & _) & _).
  destruct (insert_keeps_cache _ _ _ _ _ E) as [Hc Hl].
  exists db1. split; [done|].
  assert (Hcg : cleans_Get db1 hash = None) by (unfold cleans_Get in *; by rewrite Hc).
  unfold Database_node. munfold. rewrite Hcg.
  unfold RLock, RUnlock. rewrite Hl, Hw. simpl. rewrite He. simpl.
  assert (Hobj : obj e hash = match n with
                              | rawNode blob => mustDecodeNode hash blob
                              | _ => if has_raw n then None else Some (hexKeys n)
                              end).
  { unfold obj. rewrite Hen. pose proof (expandNode_simplified n sn Hsn) as Hex.
    destruct n; simpl in Hsn; try done; try (by injection Hsn as <-).
    - destruct sn; try done; simpl in Hsn;
        match type of Hsn with context [match ?g with _ => _ end] => destruct g end; done.
    - destruct sn; try done; simpl in Hsn; destruct (simplifyNode n); done. }
  rewrite Hobj. f_equal. clear -Hl Hw. destruct db1 as [? ? ? ? ? ? ? ? ? ? ? ? [w r]].
  simpl in *. rewrite Hl in *. destruct (lock db). simpl in *. by subst.
Qed.

(** X18: [node] answers as [Node] does, and leaves the database as [Node] leaves
    it: it decodes the blob [Node] returns, and gives nil when [Node]
    reports that the node is not found.  This holds for a hash other than
    the zero hash whose entry in the Node Store, when it has one that the
    clean cache does not shadow, is a raw blob, and when the disk has no
    empty blob under the hash. *)
Theorem node_agrees_with_Node (hash : N) (db db1 : Database) (r : list Byte.byte * option error) :
  hash <> zeroHash -> Node hash db = Ok r db1 ->
  (cleans_Get db hash = None ->
   forall d, dirties db !! hash = Some d -> is_rawNode (cnode d) = true) ->
  kv (diskdb db) !! (TrieNodeKey, hash) <> Some [] ->
  Database_node hash db
  = Ok (match r.2 with None => mustDecodeNode hash r.1 | Some _ => Some nilNode end) db1.
Proof.
  intros Hh E Hraw Hdisk. revert E.
  unfold Node, Database_node. rewrite decide_False by done. munfold.
  destruct (cleans_Get db hash) as [enc|] eqn:Hcl; [by intros [= <- <-]|].
  unfold RLock, RUnlock. destruct (writer (lock db)); [done|]. simpl.
  destruct (dirties db !! hash) as [d|] eqn:Hd; simpl.
  - intros [= <- <-]. simpl. unfold obj, rlp.
    specialize (Hraw eq_refl d eq_refl). by destruct (cnode d).
  - unfold ReadTrieNode. simpl.
    destruct (kv (diskdb db) !! (TrieNodeKey, hash)) as [[|x enc]|] eqn:Hk; simpl.
    + done.
    + by intros [= <- <-].
    + by intros [= <- <-].
Qed.

End Expansion.


(** ** The size of the Node Store *)

(** How far [dirtiesSize] is from the sum over the Node Store. *)
Definition drift (db : Database) : Z := dirtiesSize db - dirties_sum db.

(** No node other than the meta-root has a children map. *)
Definition nochild (db : Database) : Prop :=
  forall h c, h <> zeroHash -> dirties db !! h = Some c -> children c = None.

Definition dsum (m : gmap N cachedNode) : Z :=
  map_fold (fun k c acc => if decide (k = zeroHash) then acc else acc + (HashLength + csize c))
           0 m.

Lemma dirties_sum_dsum db : dirties_sum db = dsum (dirties db).
Proof. done. Qed.

Lemma dsum_insert m k c :
  m !! k = None -> k <> zeroHash -> dsum (<[k := c]> m) = dsum m + (HashLength + csize c).
Proof.
  intros Hk Hk0. unfold dsum. rewrite map_fold_insert_L; [by rewrite decide_False| |done].
  intros. repeat case_decide; lia.
Qed.

Lemma dsum_delete m k c :
  m !! k = Some c -> k <> zeroHash -> dsum (delete k m) = dsum m - (HashLength + csize c).
Proof.
  intros Hk Hk0. unfold dsum.
  rewrite (map_fold_delete_L _ _ k c m); [rewrite decide_False by done; lia| |done].
  intros. repeat case_decide; lia.
Qed.

Lemma dsum_payload m m' : payload <$> m' = payload <$> m -> dsum m' = dsum m.
Proof.
  intros E.
  assert (H : forall m0 : gmap N cachedNode, dsum m0
            = map_fold (fun k (p : node * Z * Z * option (gmap N Z) * Z) acc =>
                          if decide (k = zeroHash) then acc
                          else acc + (HashLength + p.1.1.1.2)) 0 (payload <$> m0)).
  { intros m0. by rewrite map_fold_fmap. }
  by rewrite !H, E.
Qed.

Lemma links_only_drift db db' : links_only db db' -> drift db' = drift db.
Proof.
  intros [Hp Hr]. unfold drift, rest in *. rewrite !dirties_sum_dsum, (dsum_payload _ _ Hp).
  by replace (dirtiesSize db') with (dirtiesSize db) by congruence.
Qed.

Lemma links_only_csize db db' k c c' :
  links_only db db' -> dirties db !! k = Some c -> dirties db' !! k = Some c' ->
  csize c' = csize c.
Proof.
  intros Hl Hc Hc'. destruct (links_only_shape_sub _ _ Hl _ _ Hc') as (c0 & Hc0 & Hp).
  unfold payload in Hp. assert (c0 = c) by congruence. subst. congruence.
Qed.

Lemma shape_sub_nochild db db' : shape_sub db db' -> nochild db -> nochild db'.
Proof.
  intros Hs Hn h c' Hh Hc'. destruct (Hs _ _ Hc') as (c & Hc & Hp).
  unfold payload in Hp. rewrite <- (Hn h c Hh Hc). congruence.
Qed.

(** [dereference] takes off [dirtiesSize] what it takes out of the Node
    Store. *)
Lemma dereference_drift fuel : forall h clear s db l P,
  FL l P db -> G db -> h <> zeroHash ->
  (forall p, p ∈ P -> (rank h < rank p)%nat) -> (s.2 < fuel)%nat ->
  outcome (fun _ => True) (dereference fuel h clear s) db (fun _ db' => drift db' = drift db).
Proof.
  induction fuel as [|fuel IH]; intros h clear s db l P HFL HG Hh HP Hs; [lia|].
  simpl. apply outcome_bind, outcome_get.
  case_decide as Hfresh; [by apply outcome_ret|].
  destruct (dirties db !! h) as [node|] eqn:Hn; [|by apply outcome_ret].
  destruct s as [acc [|t]]; simpl; [by apply outcome_ret|].
  case_decide as Hv; [|by apply outcome_ret].
  assert (HhP : h ∉ P).
  { intros Hin. specialize (HP _ Hin). lia. }
  assert (Hin : h ∈ l) by (by eapply FL_present).
  apply list_elem_of_split in Hin as (l1 & l2 & ->).
  apply outcome_bind.
  eapply outcome_mono; [by apply (outcome_post (fun _ => True)), unlink_FL| |done].
  intros [] db1 [HFL1 Hl1].
  destruct (HG _ _ Hn Hh) as (cs & Hcs & Hranks). rewrite Hcs.
  pose proof (links_only_shape_sub _ _ Hl1) as Hsub1.
  apply outcome_bind.
  assert (Hfold : forall cs s0 d0 l0,
    FL l0 ({[h]} ∪ P) d0 -> G d0 ->
    (forall x, x ∈ cs -> x <> zeroHash /\
                         forall p, p ∈ {[h]} ∪ P -> (rank x < rank p)%nat) ->
    (s0.2 < fuel)%nat ->
    outcome (fun _ => True) (foldM (fun h a => dereference fuel h clear a) cs s0) d0
      (fun _ d' => drift d' = drift d0 /\ shape_sub d0 d' /\
                   exists l', FL l' ({[h]} ∪ P) d')).
  { clear -IH. induction cs as [|x cs IHcs]; intros s0 d0 l0 HFL0 HG0 Hcs Hs0; simpl.
    - apply outcome_ret. split_and!; [done|apply shape_sub_refl|by exists l0].
    - apply outcome_bind. destruct (Hcs x) as [Hx0 HxP]; [left|].
      eapply outcome_mono;
        [apply outcome_and;
           [by apply (IH x clear s0 d0 l0 ({[h]} ∪ P))
           |by apply (outcome_post (fun _ => True)),
                     (dereference_FL fuel x clear s0 d0 l0 ({[h]} ∪ P))]
        | |done].
      intros s1 d1 [Hd1 [(l1 & HFL1 & _ & Hsub1 & _ & Hs1) _]].
      eapply outcome_mono; [apply (IHcs s1 d1 l1); try done| |done].
      + by eapply G_sub.
      + intros y Hy. apply Hcs. by right.
      + lia.
      + intros s2 d2 (Hd2 & Hsub2 & Hl2). split_and!; [congruence| |done].
        by eapply shape_sub_trans. }
  eapply outcome_mono; [apply (Hfold cs (acc, t) db1 (l1 ++ l2)); try done| |done].
  { by eapply G_sub. }
  { intros x Hx. destruct (Hranks x Hx) as [Hx0 Hxr]. split; [done|].
    intros p [->%elem_of_singleton|Hp]%elem_of_union; [done|].
    specialize (HP _ Hp). lia. }
  { simpl in *. lia. }
  intros s2 db2 (Hd2 & Hsub2 & l' & HFL2).
  destruct (proj2 (fl_keys _ _ _ HFL2 h)) as [c2 Hc2].
  { right; right. apply elem_of_union. left. by apply elem_of_singleton. }
  assert (Hsz : csize c2 = csize node).
  { destruct (Hsub2 _ _ Hc2) as (c1 & Hc1 & Hp). unfold payload in Hp.
    rewrite <- (links_only_csize _ _ _ _ _ Hl1 Hn Hc1). congruence. }
  apply outcome_bind, outcome_modify.
  set (db3 := set_dirties (delete h (dirties db2)) db2).
  assert (Hd3 : dirties_sum db3 = dirties_sum db2 - (HashLength + csize node)).
  { rewrite !dirties_sum_dsum. unfold db3. simpl. rewrite (dsum_delete _ h c2) by done.
    by rewrite Hsz. }
  apply outcome_bind.
  apply outcome_mono with (F := fun _ => True)
    (Q := fun _ db4 => exists m, db4 = set_cleans m db3); [| |done].
  { assert (Hid : set_cleans (cleans db3) db3 = db3) by (by destruct db2).
    destruct clear as [f|]; [destruct (is_rawNode (cnode node))|].
    - apply outcome_ret. by exists (cleans db3).
    - eapply outcome_mono; [apply (outcome_post (fun _ => True)), run_clearFn_spec| |done].
      intros ? ? (m & -> & _). by exists m.
    - apply outcome_ret. by exists (cleans db3). }
  intros acc' db4 (m & ->).
  apply outcome_bind, outcome_modify. apply outcome_bind.
  assert (Hfin : forall z1 z2 : Z -> Z,
    drift (set_childrenSize (z2 (childrenSize db3))
             (set_dirtiesSize (dirtiesSize db3 - (HashLength + csize node))
                (set_cleans m db3))) = drift db).
  { intros z1 z2. rewrite <- (links_only_drift _ _ Hl1), <- Hd2. unfold drift in *.
    change (dirties_sum (set_childrenSize _ _)) with (dirties_sum db3).
    rewrite Hd3. simpl. lia. }
  destruct (children node); [apply outcome_modify|apply outcome_ret]; apply outcome_ret.
  - apply (Hfin id (fun z => z - cachedNodeChildrenSize)).
  - rewrite <- (Hfin id id). unfold drift.
    change (dirties_sum (set_childrenSize _ _)) with (dirties_sum db3).
    change (dirties_sum (set_dirtiesSize _ _)) with (dirties_sum db3). done.
Qed.

Lemma drift_frame db db' :
  dirties db' = dirties db -> dirtiesSize db' = dirtiesSize db -> drift db' = drift db.
Proof. intros Ed Es. unfold drift, dirties_sum. by rewrite Ed, Es. Qed.

Lemma Dereference_drift root budget l db :
  FL l ∅ db -> G db ->
  outcome (fun _ => True) (Dereference root budget) db (fun _ db' => drift db' = drift db).
Proof.
  intros HFL HG. unfold Dereference.
  case_decide as Hroot; [by apply outcome_ret|].
  apply outcome_bind, outcome_Lock. intros lk. apply outcome_bind.
  assert (HFL1 : FL l ∅ (set_lock lk db)) by (by eapply FL_same; [| | |exact HFL]).
  assert (Hemp : forall p, p ∈ (∅ : gset N) -> (rank root < rank p)%nat)
    by (intros p Hp; by apply not_elem_of_empty in Hp).
  assert (Hlt : (((∅ : gset N), budget).2 < S budget)%nat) by (simpl; lia).
  eapply outcome_mono;
    [exact (dereference_drift (S budget) root (Some cleanFn) (∅, budget) (set_lock lk db) l ∅
              HFL1 HG Hroot Hemp Hlt)| |done].
  intros s' db2 Hd. apply outcome_Unlock. intros lk'. exact Hd.
Qed.

Lemma DereferenceDB_drift root budget l db :
  FL l ∅ db -> G db ->
  outcome (fun _ => True) (DereferenceDB root budget) db (fun _ db' => drift db' = drift db).
Proof.
  intros HFL HG. unfold DereferenceDB.
  case_decide as Hroot; [by apply outcome_ret|].
  apply outcome_bind, outcome_Lock. intros lk. apply outcome_bind.
  assert (HFL1 : FL l ∅ (set_lock lk db)) by (by eapply FL_same; [| | |exact HFL]).
  assert (Hemp : forall p, p ∈ (∅ : gset N) -> (rank root < rank p)%nat)
    by (intros p Hp; by apply not_elem_of_empty in Hp).
  assert (Hlt : (((∅ : gset N), budget).2 < S budget)%nat) by (simpl; lia).
  eapply outcome_mono;
    [exact (dereference_drift (S budget) root (Some uselessFn) (∅, budget) (set_lock lk db) l ∅
              HFL1 HG Hroot Hemp Hlt)| |done].
  intros s' db2 Hd. apply outcome_bind, outcome_Unlock. intros lk'.
  apply outcome_modify. exact Hd.
Qed.

Lemma Cap_evict_drift : forall la fuel lb db,
  FL (la ++ lb) ∅ db -> (length la < fuel)%nat ->
  outcome (fun _ => True) (Cap_evict fuel (hd zeroHash lb)) db (fun _ db' =>
    drift db' = drift db).
Proof.
  induction la as [|x la IH]; intros fuel lb db HFL Hfuel;
    (destruct fuel as [|fuel]; [simpl in Hfuel; lia|]); simpl.
  - apply outcome_bind, outcome_get. simpl in HFL.
    destruct (decide _) as [Hne|_]; [destruct Hne; apply (fl_oldest _ _ _ HFL)|].
    by apply outcome_ret.
  - apply outcome_bind, outcome_get.
    pose proof HFL as [Hnd Hz Hpend Hkeys Hseg Hold Hnew]. simpl in *.
    apply NoDup_cons in Hnd as [Hx Hnd].
    assert (Hx0 : x <> zeroHash) by (intros ->; apply Hz; left).
    destruct (decide _) as [_|Hne]; [|by apply outcome_ret].
    destruct Hseg as (cx & Hcx & _ & Hnx & Hseg).
    apply outcome_bind. rewrite Hold. eapply outcome_deref; [done|].
    apply outcome_bind, outcome_modify. apply outcome_bind, outcome_modify.
    apply outcome_bind.
    set (db1 := set_oldest (flushNext cx) (set_dirties (delete x (dirties db)) db)).
    assert (HFL1 : FL (la ++ lb) ∅ db1).
    { constructor; simpl; try done.
      - intros ?; apply Hz; by right.
      - intros k. destruct (decide (x = k)) as [<-|Hne].
        + rewrite lookup_delete_eq. split; [by intros [? ?]|].
          intros [?|[?|?%not_elem_of_empty]]; done.
        + rewrite lookup_delete_ne by done. rewrite Hkeys, elem_of_cons. intuition congruence.
      - eapply seg_ext; [|eapply seg_prev_weaken; exact Hseg].
        intros k Hk. rewrite lookup_delete_ne; [done|]. by intros <-.
      - intros y Hy. apply Hnew. rewrite last_cons, Hy. done. }
    assert (Hstep : forall db2, dirties db2 = dirties db1 -> oldest db2 = oldest db1 ->
              newest db2 = newest db1 ->
              dirtiesSize db2 = dirtiesSize db - (HashLength + csize cx) ->
              outcome (fun _ => True) (Cap_evict fuel (hd zeroHash lb)) db2
                (fun _ db' => drift db' = drift db)).
    { intros db2 Ed Eo En Es.
      eapply outcome_mono; [apply (IH fuel lb db2)| |done].
      - by eapply FL_same; [| | |exact HFL1].
      - simpl in Hfuel. lia.
      - intros [] db' ->. unfold drift. rewrite Es, !dirties_sum_dsum, Ed. unfold db1. simpl.
        rewrite (dsum_delete _ x cx) by done. lia. }
    destruct (children cx); [apply outcome_modify|apply outcome_ret];
      apply Hstep; simpl; rewrite ?Hold; done.
Qed.

Lemma Cap_drift (limit : Z) (db : Database) (l : list N) :
  FL l ∅ db -> lock db = unlocked ->
  outcome (fun _ => True) (Cap limit) db (fun _ db' => drift db' = drift db).
Proof.
  intros HFL Hlock.
  unfold Cap. apply outcome_bind, outcome_get.
  apply outcome_bind. unfold outcome at 1, deref.
  destruct (dirties db !! zeroHash) as [meta|] eqn:Hmeta; [|done].
  apply outcome_bind.
  assert (Hid : db = set_diskdb (diskdb db) db) by (by destruct db).
  eapply outcome_mono with (F := fun _ => True)
    (Q := fun (pre : error + list batchop) d1 => exists d, d1 = set_diskdb d db); [| |done].
  { destruct (bool_decide _); [|apply outcome_ret; by eexists].
    destruct (preimages db) as [p|]; [|apply outcome_ret; by eexists].
    destruct (decide _); [|apply outcome_ret; by eexists].
    apply outcome_bind, batch_Write_spec. intros r d.
    destruct r; apply outcome_ret; by exists d. }
  intros [e|batch] d1 (d & ->); [by apply outcome_ret|].
  apply outcome_bind. rewrite (fl_oldest _ _ _ HFL).
  eapply outcome_mono;
    [apply (Cap_scan_spec limit l (S (size (dirties db))) _ batch (set_diskdb d db) None);
     [apply (fl_seg _ _ _ HFL)|apply (fl_zero _ _ _ HFL)|rewrite (FL_size _ _ HFL); simpl; lia
     |simpl; by rewrite Hlock]| |done].
  intros [e|[stop b2]] d2 [(d3 & ->) H]; [by apply outcome_ret|].
  destruct H as (la & lb & -> & ->).
  apply outcome_bind, batch_Write_spec. intros r d4.
  destruct r as [e|]; [by apply outcome_ret|].
  apply outcome_bind, outcome_Lock. intros lk.
  apply outcome_bind.
  apply outcome_mono with (F := fun _ => True) (Q := fun _ d5 =>
    dirties d5 = dirties db /\ oldest d5 = oldest db /\ newest d5 = newest db /\
    dirtiesSize d5 = dirtiesSize db); [| |done].
  { destruct (bool_decide _); [apply outcome_modify|apply outcome_ret]; simpl;
      [by destruct (preimages db)|done]. }
  intros [] d5 (Ed5 & Eo5 & En5 & Es5).
  apply outcome_bind, outcome_get. apply outcome_bind.
  assert (HFL5 : FL (la ++ lb) ∅ d5) by (by eapply FL_same; [| | |exact HFL]).
  eapply outcome_mono; [apply (Cap_evict_drift la (S (size (dirties d5))) lb d5 HFL5)| |done].
  { rewrite (FL_size _ _ HFL5), length_app. lia. }
  intros [] d6 Hd6.
  assert (Hd5 : drift d5 = drift db) by (by apply drift_frame).
  apply outcome_bind, outcome_get. apply outcome_bind.
  assert (Hend : forall d7, drift d7 = drift d6 ->
            outcome (fun _ => True) (Unlock >> ret None) d7 (fun (_ : option error) db' =>
              drift db' = drift db)).
  { intros d7 Hd7. apply outcome_bind, outcome_Unlock. intros lk'. apply outcome_ret.
    rewrite <- Hd5, <- Hd6, <- Hd7. done. }
  destruct (decide _).
  - apply outcome_update_node_any; [|done]. intros c Hc. apply Hend.
    unfold drift. rewrite !dirties_sum_dsum. simpl.
    by rewrite (dsum_payload _ _ (payload_insert_links _ _ _ (set_flushPrev zeroHash c) Hc eq_refl)).
  - apply outcome_ret. by apply Hend.
Qed.

(** What uncaching keeps. *)
Definition uncache_post (db db' : Database) : Prop :=
  drift db' = drift db /\ shape_sub db db' /\ freshNodes db' = freshNodes db.

Lemma uncache_post_refl db : uncache_post db db.
Proof. split_and!; [done|apply shape_sub_refl|done]. Qed.

Lemma uncache_post_trans db1 db2 db3 :
  uncache_post db1 db2 -> uncache_post db2 db3 -> uncache_post db1 db3.
Proof.
  intros (H1 & H2 & H3) (H1' & H2' & H3').
  split_and!; [congruence|by eapply shape_sub_trans|congruence].
Qed.

Lemma cleaner_Put_drift uncache ks k v db :
  k <> zeroHash -> nochild db ->
  outcome (fun _ => True) (cleaner_Put uncache (ks, k) v) db (fun _ db' => uncache_post db db').
Proof.
  intros Hk Hnc. set (key := (ks, k)). change k with key.2 in Hk. clearbody key. clear k.
  unfold cleaner_Put. apply outcome_bind, outcome_get.
  assert (Hset : forall d, uncache_post db d ->
            outcome (fun _ => True) (cleans_Set key.2 v >> ret (@None error)) d
              (fun _ db' => uncache_post db db')).
  { intros d Hd. unfold cleans_Set. apply outcome_bind, outcome_modify, outcome_ret.
    eapply uncache_post_trans; [exact Hd|].
    destruct (cleans d); (split_and!; [done|by intros k' c ?; exists c|done]). }
  destruct uncache; [destruct (dirties db !! key.2) as [node|] eqn:Hn|].
  - apply outcome_bind. apply outcome_bind.
    eapply outcome_mono; [by apply (unlink_links_only (fun _ => True))| |done].
    intros [] db1 Hl1.
    destruct (dirties db1 !! key.2) as [c1|] eqn:Hc1.
    2:{ apply (links_only_None _ _ _ Hl1) in Hc1. congruence. }
    pose proof (links_only_csize _ _ _ _ _ Hl1 Hn Hc1) as Hsz.
    apply outcome_bind, outcome_modify. apply outcome_bind, outcome_modify.
    apply outcome_bind. rewrite (Hnc _ _ Hk Hn).
    apply outcome_ret, outcome_ret. apply Hset.
    destruct Hl1 as [Hp Hr]. unfold rest in Hr. split_and!.
    + rewrite <- (links_only_drift db db1) by (by split). unfold drift.
      rewrite !dirties_sum_dsum. simpl. rewrite (dsum_delete _ key.2 c1) by done. lia.
    + eapply shape_sub_trans; [apply links_only_shape_sub; by split|].
      by eapply shape_sub_delete.
    + simpl. congruence.
  - apply outcome_bind, outcome_ret. apply outcome_ret, uncache_post_refl.
  - apply outcome_bind, outcome_ret. apply Hset, uncache_post_refl.
Qed.

Lemma Replay_drift uncache : forall b db,
  batch_ok b -> nochild db ->
  outcome (fun _ => True) (Replay uncache b) db (fun _ db' => uncache_post db db').
Proof.
  induction b as [|o b IH]; intros db Hb Hnc; simpl.
  - apply outcome_ret, uncache_post_refl.
  - apply Forall_cons in Hb as [(ks & k & v & -> & Hk) Hb].
    apply outcome_bind.
    eapply outcome_mono; [apply cleaner_Put_drift; [exact Hk|exact Hnc]| |done].
    intros r db1 H1.
    eapply outcome_mono; [apply IH; [done|]| |done].
    + destruct H1 as (_ & Hs & _). by eapply shape_sub_nochild.
    + intros [] db2 H2. exact (uncache_post_trans _ _ _ H1 H2).
Qed.

Lemma uncache_post_disk db d : uncache_post db (set_diskdb d db).
Proof. split_and!; [done|by intros k c Hk; exists c|done]. Qed.

Lemma commit_drift uncache : forall fuel h batch db,
  zeroHash ∉ freshNodes db -> nochild db -> batch_ok batch ->
  outcome (fun _ => True) (commit fuel uncache h batch) db (fun r db' =>
    uncache_post db db' /\ batch_ok r.2).
Proof.
  induction fuel as [|fuel IH]; intros h batch db Hfz Hnc Hb; [done|].
  simpl. apply outcome_bind, outcome_get.
  destruct (decide (h ∈ freshNodes db)) as [Hfr|Hfr];
    [|apply outcome_ret; split; [apply uncache_post_refl|done]].
  destruct (dirties db !! h) as [node|] eqn:Hn;
    [|apply outcome_ret; split; [apply uncache_post_refl|done]].
  assert (Hh : h <> zeroHash) by (by intros ->).
  destruct (forChilds node) as [cs|]; [|done].
  apply outcome_bind.
  set (f := fun child (s : option error * list batchop) =>
              match s.1 with
              | Some _ => ret s
              | None => commit fuel uncache child s.2
              end).
  assert (Hfold : forall cs s d, zeroHash ∉ freshNodes d -> nochild d -> batch_ok s.2 ->
    outcome (fun _ => True) (foldM f cs s) d (fun r d' =>
      uncache_post d d' /\ batch_ok r.2)).
  { clear -IH. induction cs as [|x cs IHcs]; intros s d Hfz Hnc Hb; simpl.
    - apply outcome_ret. split; [apply uncache_post_refl|done].
    - apply outcome_bind. unfold f at 1.
      assert (Hnext : forall s1 d1, uncache_post d d1 -> batch_ok s1.2 ->
                outcome (fun _ => True) (foldM f cs s1) d1 (fun r d' =>
                  uncache_post d d' /\ batch_ok r.2)).
      { intros s1 d1 H1 Hb1. destruct H1 as (Hd1 & Hs1 & Hf1).
        eapply outcome_mono; [apply IHcs; [by rewrite Hf1|by eapply shape_sub_nochild|done]
                             | |done].
        intros r2 d2 [H2 Hb2]. split; [|done].
        eapply uncache_post_trans; [|exact H2]. by split_and!. }
      destruct s.1 as [e|] eqn:Es.
      + apply outcome_ret. apply Hnext; [apply uncache_post_refl|done].
      + eapply outcome_mono; [by apply IH| |done].
        intros r1 d1 [H1 Hb1]. by apply Hnext. }
  eapply outcome_mono; [by apply (Hfold cs (None, batch) db)| |done].
  intros r db1 (H1 & Hb1).
  destruct r.1 as [e|]; [by apply outcome_ret|].
  set (b := WriteTrieNode r.2 h (rlp node)).
  assert (Hbn : batch_ok b).
  { apply Forall_app. split; [done|]. apply Forall_singleton. by eexists _, _, _. }
  destruct (decide _) as [Hsz|Hsz]; [|by apply outcome_ret].
  apply outcome_bind, batch_Write_spec. intros w d.
  assert (H2 : uncache_post db (set_diskdb d db1)).
  { eapply uncache_post_trans; [exact H1|apply uncache_post_disk]. }
  destruct w as [e|]; [by apply outcome_ret|].
  apply outcome_bind, outcome_Lock. intros lk. apply outcome_bind.
  assert (H3 : uncache_post db (set_lock lk (set_diskdb d db1))).
  { destruct H2 as (? & ? & ?). by split_and!. }
  eapply outcome_mono; [apply Replay_drift; [done|]| |done].
  { destruct H3 as (_ & Hs & _). by eapply shape_sub_nochild. }
  intros [] db3 H4. apply outcome_bind, outcome_Unlock. intros lk'.
  apply outcome_ret. split; [|by apply Forall_nil].
  eapply uncache_post_trans; [exact H3|].
  destruct H4 as (? & ? & ?). by split_and!.
Qed.

Lemma Commit_drift root report uncache db :
  zeroHash ∉ freshNodes db -> nochild db ->
  outcome (fun _ => True) (Commit root report uncache) db (fun _ db' => drift db' = drift db).
Proof.
  intros Hfz Hnc. unfold Commit. apply outcome_bind, outcome_get. apply outcome_bind.
  assert (Hid : db = set_diskdb (diskdb db) db) by (by destruct db).
  eapply outcome_mono with (F := fun _ => True)
    (Q := fun (pre : option error) d1 => exists d, d1 = set_diskdb d db); [| |done].
  { destruct (preimages db) as [p|]; [|apply outcome_ret; by eexists].
    apply outcome_bind.
    destruct (decide _).
    - apply outcome_bind, batch_Write_spec. intros w d.
      destruct w; apply outcome_ret; simpl.
      + apply outcome_ret. by exists d.
      + apply batch_Write_spec. intros w' d'. by exists d'.
    - apply outcome_ret. simpl. rewrite Hid at 1. apply batch_Write_spec. intros w' d'.
      by exists d'. }
  intros [e|] d1 (d & ->); [by apply outcome_ret|].
  apply outcome_bind, outcome_get. apply outcome_bind.
  eapply outcome_mono; [apply (commit_drift uncache); [done|done|by apply Forall_nil]| |done].
  intros r1 d1 [H1 Hb1].
  destruct r1.1 as [e|]; [apply outcome_ret; by destruct H1|].
  apply outcome_bind, batch_Write_spec. intros w d2.
  assert (H2 : uncache_post db (set_diskdb d2 d1)).
  { destruct H1 as (? & ? & ?). by split_and!. }
  destruct w as [e|]; [apply outcome_ret; by destruct H2|].
  apply outcome_bind, outcome_Lock. intros lk. apply outcome_bind.
  assert (H3 : uncache_post db (set_lock lk (set_diskdb d2 d1))).
  { destruct H2 as (? & ? & ?). by split_and!. }
  eapply outcome_mono; [apply Replay_drift; [done|]| |done].
  { destruct H3 as (_ & Hs & _). by eapply shape_sub_nochild. }
  intros [] d3 H4.
  apply outcome_bind, outcome_modify. apply outcome_bind, outcome_modify.
  apply outcome_bind, outcome_Unlock. intros lk'. apply outcome_ret.
  destruct H3 as (E3 & _ & _). destruct H4 as (E4 & _ & _).
  rewrite <- E3, <- E4. apply drift_frame; simpl; by destruct (preimages d3).
Qed.

Lemma insert_drift hash size n db l :
  FL l ∅ db -> nochild db -> 0 <= size < 65504 ->
  outcome (fun _ => True) (insert hash size n) db (fun _ db' =>
    drift db' = drift db /\ nochild db').
Proof.
  intros HFL Hnc Hsz. unfold insert. apply outcome_bind, outcome_get.
  destruct (dirties db !! hash) as [c0|] eqn:Hc; [by apply outcome_ret|].
  destruct (simplifyNode n) as [sn|]; [|done].
  assert (Hh : hash <> zeroHash).
  { intros ->. destruct (proj2 (fl_keys _ _ _ HFL zeroHash)) as [? ?]; [by left|congruence]. }
  set (entry := mkCachedNode sn (u16 size) 0 None (newest db) zeroHash (NodeVersion db)).
  set (m1 := <[hash := entry]> (dirties db)).
  assert (Hu : u16 (HashLength + csize entry) = HashLength + csize entry).
  { unfold entry, u16, HashLength. simpl. unfold u16.
    rewrite (Z.mod_small size) by lia. rewrite Z.mod_small by lia. done. }
  assert (Hm1 : dsum m1 = dsum (dirties db) + (HashLength + csize entry))
    by (by apply dsum_insert).
  assert (Hn1 : forall h c, h <> zeroHash -> m1 !! h = Some c -> children c = None).
  { intros h c Hh0 Hl. unfold m1 in Hl. apply lookup_insert_Some in Hl as [[_ <-]|[_ Hl]];
      [done|by eapply Hnc]. }
  assert (Hfin : forall d2, dsum (dirties d2) = dsum m1 -> dirtiesSize d2 = dirtiesSize db ->
            nochild d2 ->
            outcome (fun _ => True)
              (modify (fun db => set_dirtiesSize
                                   (dirtiesSize db + u16 (HashLength + csize entry)) db))
              d2 (fun _ db' => drift db' = drift db /\ nochild db')).
  { intros d2 Ed Es Hn2. apply outcome_modify. split; [|exact Hn2].
    rewrite Hu. unfold drift. rewrite !dirties_sum_dsum.
    change (dirties (set_dirtiesSize _ d2)) with (dirties d2).
    change (dirtiesSize (set_dirtiesSize ?z d2)) with z.
    rewrite Ed, Es, Hm1. lia. }
  apply outcome_bind, outcome_modify. apply outcome_bind.
  destruct (decide _).
  - apply outcome_modify. by apply Hfin.
  - apply outcome_bind. apply outcome_update_node_any; [|done]. simpl. fold m1.
    intros c Hc1. apply outcome_modify. apply Hfin; simpl.
    + by apply dsum_payload, (payload_insert_links _ _ c).
    + done.
    + intros h c' Hh0 Hl. simpl in Hl. apply lookup_insert_Some in Hl as [[<- <-]|[_ Hl]].
      * simpl. by eapply Hn1.
      * by eapply Hn1.
Qed.

(** The inserted sizes fit [uint16] with the hash length added. *)
Definition small_op (o : op) : Prop :=
  match o with
  | OpInsert _ size _ => 0 <= size < 65504
  | _ => True
  end.

Lemma run_op_drift o db :
  wf_op o -> small_op o -> Inv db -> nochild db ->
  outcome (fun _ => True) (run_op o) db (fun _ db' => drift db' = drift db /\ nochild db').
Proof.
  intros Hwf Hsm HI Hnc. pose proof HI as ([l HFL] & HG & Hlock & Hfresh).
  destruct o as [hash size n|hash| |limit|root report uncache|root budget|root budget]; simpl.
  - by apply (insert_drift hash size n db l).
  - by apply outcome_modify.
  - by apply outcome_modify.
  - apply outcome_bind.
    eapply outcome_mono;
      [apply outcome_and;
         [by apply (Cap_drift limit db l)
         |eapply outcome_mono; [by apply (Cap_FL l limit db)|intros ? ? H; exact H|done]]
      | |done].
    intros r db' [Hd (l' & _ & _ & Hs & _)]. apply outcome_ret.
    split; [done|by eapply shape_sub_nochild].
  - apply outcome_bind.
    eapply outcome_mono;
      [apply outcome_and;
         [by apply (Commit_drift root report uncache db)
         |by apply (outcome_post (fun _ => True)), (Commit_FL root report uncache l)]
      | |done].
    intros r db' [Hd (l' & _ & _ & Hs & _)]. apply outcome_ret.
    split; [done|by eapply shape_sub_nochild].
  - eapply outcome_mono;
      [apply outcome_and;
         [by apply (Dereference_drift root budget l)
         |by apply (outcome_post (fun _ => True)), (Dereference_FL root budget l)]
      | |done].
    intros [] db' [Hd (l' & _ & _ & Hs & _)].
    split; [done|by eapply shape_sub_nochild].
  - eapply outcome_mono;
      [apply outcome_and;
         [by apply (DereferenceDB_drift root budget l)
         |by apply (outcome_post (fun _ => True)), (DereferenceDB_FL root budget l)]
      | |done].
    intros [] db' [Hd (l' & _ & _ & Hs & _)].
    split; [done|by eapply shape_sub_nochild].
Qed.

Lemma run_ops_drift ops : forall db,
  Forall wf_op ops -> Forall small_op ops -> Inv db -> nochild db ->
  outcome (fun _ => True) (run_ops ops) db (fun _ db' => drift db' = drift db).
Proof.
  induction ops as [|o ops IH]; intros db Hwf Hsm HI Hnc; simpl.
  - by apply outcome_ret.
  - apply Forall_cons in Hwf as [Ho Hwf]. apply Forall_cons in Hsm as [Hso Hsm].
    apply outcome_bind.
    eapply outcome_mono;
      [apply outcome_and;
         [by apply run_op_drift
         |eapply outcome_mono; [by apply run_op_Inv|intros ? ? H; exact H|done]]
      | |done].
    intros [] db' [[Hd Hnc'] HI'].
    eapply outcome_mono; [by apply IH| |done].
    intros [] db'' Hd'. congruence.
Qed.

(** X19: From a new database, every run of inserts of nodes smaller than 65504
    bytes whose embedded hashes rank below their own, [insertFreshNode] of
    non-zero hashes, [IncrVersion], [Cap], [Commit], [Dereference] and
    [DereferenceDB] that returns leaves [dirtiesSize] equal to the sum of
    hash length plus size over the nodes of the Node Store. *)
Theorem dirtiesSize_is_the_sum (ops : list op) (disk : Disk) (cache pre : bool)
    (db : Database) :
  Forall wf_op ops -> Forall small_op ops ->
  run_ops ops (NewDatabaseWithConfig disk cache pre) = Ok tt db ->
  dirtiesSize db = dirties_sum db.
Proof.
  intros Hwf Hsm E.
  assert (Hnc : nochild (NewDatabaseWithConfig disk cache pre)).
  { intros h c Hh Hc. simpl in Hc. by rewrite lookup_singleton_ne in Hc. }
  pose proof (outcome_ok _ _ _ _ _ _
                (run_ops_drift ops _ Hwf Hsm (Inv_NewDatabase disk cache pre) Hnc) E) as Hd.
  unfold drift in Hd. simpl in Hd.
  assert (H0 : dirties_sum (NewDatabaseWithConfig disk cache pre) = 0).
  { unfold dirties_sum. simpl. by rewrite map_fold_singleton. }
  rewrite H0 in Hd. lia.
Qed.


(** ** How far Cap goes *)

(** What the estimate of [Cap] goes down by when the node under a hash is
    flushed, and over the hashes of a list. *)
Definition flush_cost (d : gmap N cachedNode) (h : N) : Z :=
  match d !! h with
  | Some c =>
      HashLength + csize c + cachedNodeSize
      + match children c with
        | Some _ => cachedNodeChildrenSize + children_len c * (HashLength + 2)
        | None => 0
        end
  | None => 0
  end.

Definition flush_costs (d : gmap N cachedNode) (l : list N) : Z :=
  foldr (fun h acc => flush_cost d h + acc) 0 l.

Lemma Cap_scan_estimate limit : forall l2 fuel total batch db prev,
  seg (dirties db) prev l2 zeroHash -> zeroHash ∉ l2 -> (length l2 < fuel)%nat ->
  outcome (fun _ => True) (Cap_scan fuel limit total (hd zeroHash l2) batch) db (fun r db' =>
    match r with
    | inl _ => True
    | inr (stop, _) =>
        exists la lb, l2 = la ++ lb /\ stop = hd zeroHash lb /\
          (lb <> [] -> total - flush_costs (dirties db) la <= limit) /\
          (forall k, (k < length la)%nat ->
                     total - flush_costs (dirties db) (take k la) > limit)
    end).
Proof.
  induction l2 as [|x r IH]; intros fuel total batch db prev Hseg Hz Hfuel;
    (destruct fuel as [|fuel]; [simpl in Hfuel; lia|]); simpl.
  - destruct (decide _) as [[_ ?]|_]; [done|].
    apply outcome_ret. exists [], []. split_and!; [done|done|done|]. simpl. intros k Hk. lia.
  - case_decide as Hc.
    2:{ apply outcome_ret. exists [], (x :: r). split_and!; [done|done| |].
        - intros _. simpl. apply not_and_l in Hc as [Hle|Hx]; [lia|].
          destruct Hx. intros ->. apply Hz. left.
        - simpl. intros k Hk. lia. }
    destruct Hc as [Hgt _].
    destruct Hseg as (cx & Hcx & _ & Hnx & Hseg).
    apply outcome_bind. eapply outcome_deref; [done|].
    apply outcome_bind.
    assert (Hz' : zeroHash ∉ r) by (intros ?; apply Hz; by right).
    set (t' := match children cx with
               | Some _ => total - (HashLength + csize cx + cachedNodeSize)
                           - (cachedNodeChildrenSize + children_len cx * (HashLength + 2))
               | None => total - (HashLength + csize cx + cachedNodeSize)
               end).
    assert (Ht' : t' = total - flush_cost (dirties db) x).
    { unfold t', flush_cost. rewrite Hcx. destruct (children cx); lia. }
    assert (Hcont : forall d b',
      outcome (fun _ => True) (Cap_scan fuel limit t' (flushNext cx) b') (set_diskdb d db)
        (fun r0 db' =>
          match r0 with
          | inl _ => True
          | inr (stop, _) =>
              exists la lb, x :: r = la ++ lb /\ stop = hd zeroHash lb /\
                (lb <> [] -> total - flush_costs (dirties db) la <= limit) /\
                (forall k, (k < length la)%nat ->
                           total - flush_costs (dirties db) (take k la) > limit)
          end)).
    { intros d b'. rewrite Hnx.
      eapply outcome_mono; [apply (IH fuel t' b' (set_diskdb d db) (Some x)); try done| |done].
      - simpl in Hfuel. lia.
      - intros [e|[stop b2]] db' H; [done|].
        destruct H as (la & lb & -> & -> & Hle & Hgt'). simpl in Hle, Hgt'.
        exists (x :: la), lb. split_and!; [done|done| |].
        + intros Hlb. specialize (Hle Hlb). simpl. lia.
        + intros [|k] Hk; simpl; [lia|].
          simpl in Hk. specialize (Hgt' k ltac:(lia)). lia. }
    destruct (decide _).
    + apply outcome_bind, batch_Write_spec. intros w d. destruct w as [e|].
      * apply outcome_bind. unfold outcome at 1, RUnlock.
        destruct (readers _); [done|]. apply outcome_ret. by apply outcome_ret.
      * apply outcome_ret. fold t'. apply Hcont.
    + apply outcome_ret. fold t'. rewrite <- (set_diskdb_same db) at 1. apply Hcont.
Qed.

(** X3: On a well-formed database with the lock free, when [Cap] answers nil
    it has taken a prefix of the flush-list out of the Node Store and left
    the rest as the flush-list: the shortest prefix whose flushing brings
    the size [Size] reports down to the limit, the whole list when none
    does. *)
Theorem Cap_flushes_oldest_first (limit total pre : Z) (db db' : Database) (l : list N) :
  FL l ∅ db -> lock db = unlocked ->
  Size db = Ok (total, pre) db ->
  Cap limit db = Ok None db' ->
  exists la lb, l = la ++ lb /\ FL lb ∅ db' /\
    (forall h, h ∈ la -> dirties db' !! h = None) /\
    (lb <> [] -> total - flush_costs (dirties db) la <= limit) /\
    (forall k, (k < length la)%nat -> total - flush_costs (dirties db) (take k la) > limit).
Proof.
  intros HFL Hlock HS. revert db'.
  enough (H : outcome (fun _ => True) (Cap limit) db (fun r db' =>
    r = None ->
    exists la lb, l = la ++ lb /\ FL lb ∅ db' /\
      (forall h, h ∈ la -> dirties db' !! h = None) /\
      (lb <> [] -> total - flush_costs (dirties db) la <= limit) /\
      (forall k, (k < length la)%nat ->
                 total - flush_costs (dirties db) (take k la) > limit)))
    by (intros db' E; exact (outcome_ok _ _ _ _ _ _ H E eq_refl)).
  unfold Size, RLock, RUnlock in HS. revert HS. munfold. rewrite Hlock. simpl.
  destruct (dirties db !! zeroHash) as [meta|] eqn:Hmeta; [|done]. simpl.
  intros [= Htot _ _].
  unfold Cap. apply outcome_bind, outcome_get.
  apply outcome_bind. eapply outcome_deref; [done|].
  apply outcome_bind.
  assert (Hid : db = set_diskdb (diskdb db) db) by (by destruct db).
  eapply outcome_mono with (F := fun _ => True)
    (Q := fun (p : error + list batchop) d1 => exists d, d1 = set_diskdb d db); [| |done].
  { destruct (bool_decide _); [|apply outcome_ret; by eexists].
    destruct (preimages db) as [p|]; [|apply outcome_ret; by eexists].
    destruct (decide _); [|apply outcome_ret; by eexists].
    apply outcome_bind, batch_Write_spec. intros r d.
    destruct r; apply outcome_ret; by exists d. }
  intros [e|batch] d1 (d & ->); [by apply outcome_ret|].
  apply outcome_bind. rewrite (fl_oldest _ _ _ HFL).
  match goal with |- context [Cap_scan _ _ ?t _ _] => replace t with total by lia end.
  eapply outcome_mono;
    [apply outcome_and;
       [apply (Cap_scan_estimate limit l (S (size (dirties db))) total batch
                 (set_diskdb d db) None);
        [apply (fl_seg _ _ _ HFL)|apply (fl_zero _ _ _ HFL)
        |rewrite (FL_size _ _ HFL); simpl; lia]
       |eapply outcome_mono;
          [apply (Cap_scan_spec limit l (S (size (dirties db))) total batch
                    (set_diskdb d db) None);
           [apply (fl_seg _ _ _ HFL)|apply (fl_zero _ _ _ HFL)
           |rewrite (FL_size _ _ HFL); simpl; lia|simpl; by rewrite Hlock]
          |intros ? ? H; exact H|done]]
    | |done].
  intros [e|[stop b2]] d2 [H [(d3 & ->) _]]; [by apply outcome_ret|].
  destruct H as (la & lb & -> & -> & Hle & Hgt). simpl in Hle, Hgt.
  apply outcome_bind, batch_Write_spec. intros r d4.
  destruct r as [e|]; [by apply outcome_ret|].
  apply outcome_bind, outcome_Lock. intros lk.
  apply outcome_bind.
  apply outcome_mono with (F := fun _ => True) (Q := fun _ d5 =>
    dirties d5 = dirties db /\ oldest d5 = oldest db /\ newest d5 = newest db);
    [| |done].
  { destruct (bool_decide _); [apply outcome_modify|apply outcome_ret]; simpl;
      [by destruct (preimages db)|done]. }
  intros [] d5 (Ed5 & Eo5 & En5).
  apply outcome_bind, outcome_get. apply outcome_bind.
  assert (HFL5 : FL (la ++ lb) ∅ d5) by (by eapply FL_same; [| | |exact HFL]).
  eapply outcome_mono;
    [apply (outcome_post (fun _ => True)), (Cap_evict_spec la (S (size (dirties d5))) lb d5 HFL5)
    | |done].
  { rewrite (FL_size _ _ HFL5), length_app. lia. }
  intros [] d6 (HFL6 & _ & _ & _).
  apply outcome_bind, outcome_get. apply outcome_bind.
  assert (Hend : forall d7, FL lb ∅ d7 ->
            outcome (fun _ => True) (Unlock >> ret None) d7 (fun (r : option error) db' =>
              r = None ->
              exists la0 lb0, la ++ lb = la0 ++ lb0 /\ FL lb0 ∅ db' /\
                (forall h, h ∈ la0 -> dirties db' !! h = None) /\
                (lb0 <> [] -> total - flush_costs (dirties db) la0 <= limit) /\
                (forall k, (k < length la0)%nat ->
                           total - flush_costs (dirties db) (take k la0) > limit))).
  { intros d7 HFL7. apply outcome_bind, outcome_Unlock. intros lk'. apply outcome_ret.
    intros _. exists la, lb. split_and!; [done| | |done|done].
    - by eapply FL_same; [| | |exact HFL7].
    - intros h Hh. simpl.
      destruct (dirties d7 !! h) as [c|] eqn:Hc; [|done]. exfalso.
      pose proof (fl_nodup _ _ _ HFL) as Hnd. apply NoDup_app in Hnd as (_ & Hdis & _).
      destruct (proj1 (fl_keys _ _ _ HFL7 h)) as [->|[Hin|Hin]]; [by eexists| | |].
      + apply (fl_zero _ _ _ HFL). apply elem_of_app. by left.
      + by apply (Hdis h).
      + by apply not_elem_of_empty in Hin. }
  destruct (decide (oldest d6 <> zeroHash)) as [Ho|Ho].
  - rewrite (fl_oldest _ _ _ HFL6) in *.
    destruct lb as [|y lb']; [done|]. simpl.
    pose proof (fl_seg _ _ _ HFL6) as Hs. pose proof Hs as (cy & Hcy & _).
    eapply outcome_update_node; [exact Hcy|].
    apply Hend.
    destruct HFL6 as [Hnd Hz Hpend Hkeys Hseg Hold Hnew].
    constructor; simpl; try done.
    + intros k. rewrite (is_Some_insert_present _ y cy) by done. apply Hkeys.
    + apply NoDup_cons in Hnd as [Hy _].
      by eapply (seg_set_prev_head _ None None).
  - apply outcome_ret. by apply Hend.
Qed.


(** X20: On a well-formed database with the lock free, [Cap], [Dereference] and
    [DereferenceDB] take off [dirtiesSize] exactly what the nodes they
    remove counted in the sum over the Node Store, children maps or not. *)
Theorem pruning_keeps_the_count (l : list N) (db : Database) :
  FL l ∅ db -> G db -> lock db = unlocked ->
  (forall limit r db', Cap limit db = Ok r db' ->
     dirtiesSize db - dirtiesSize db' = dirties_sum db - dirties_sum db') /\
  (forall root budget db', Dereference root budget db = Ok tt db' ->
     dirtiesSize db - dirtiesSize db' = dirties_sum db - dirties_sum db') /\
  (forall root budget db', DereferenceDB root budget db = Ok tt db' ->
     dirtiesSize db - dirtiesSize db' = dirties_sum db - dirties_sum db').
Proof.
  intros HFL HG Hlock. split_and!.
  - intros limit r db' E.
    pose proof (outcome_ok _ _ _ _ _ _ (Cap_drift limit db l HFL Hlock) E) as H.
    unfold drift in H. lia.
  - intros root budget db' E.
    pose proof (outcome_ok _ _ _ _ _ _ (Dereference_drift root budget l db HFL HG) E) as H.
    unfold drift in H. lia.
  - intros root budget db' E.
    pose proof (outcome_ok _ _ _ _ _ _ (DereferenceDB_drift root budget l db HFL HG) E) as H.
    unfold drift in H. lia.
Qed.

End Ranked.

End Collaborators.

(** * Runs on concrete databases *)

(** The collaborators on a 64-bit platform: the struct [cachedNode] takes
    104 bytes and [ethdb.IdealBatchSize] is 100 KiB.  The encoder is a
    stand-in that keeps the bytes of a leaf; the runs below store raw
    blobs, which [rlp] returns as they are. *)
Definition leafBytes (n : node) : list Byte.byte :=
  match n with
  | hashNode b | valueNode b | rawNode b => b
  | _ => []
  end.
Definition cachedNodeSize : Z := 104.
Definition IdealBatchSize : Z := 100 * 1024.

Definition emptyDisk : Disk := mkDisk ∅ [].

(** The database a computation leaves behind (the one it started from when
    it stops in a fault). *)
Definition exec {A} (m : M A) (db : Database) : Database :=
  match m db with
  | Ok _ db' => db'
  | Abort _ => db
  end.

(** The meta-root as [NewDatabaseWithConfig] makes it. *)
Definition metaRoot : cachedNode :=
  mkCachedNode nilNode 0 0 (Some ∅) zeroHash zeroHash 0.

(** Hashes embedded in a node rank below the hash of the node when they are
    smaller as numbers. *)
Definition byValue : N -> nat := N.to_nat.

Ltac evaluated := vm_compute; first [reflexivity | done].

Ltac wf_insert :=
  let sn := fresh "sn" in let cs := fresh "cs" in
  let Hs := fresh "Hs" in let Hc := fresh "Hc" in
  let x := fresh "x" in let Hx := fresh "Hx" in
  simpl; intros sn cs Hs Hc x Hx; injection Hs as <-; simpl in Hc; injection Hc as <-;
  first [ by apply elem_of_nil in Hx
        | apply list_elem_of_singleton in Hx; subst x; split; [evaluated | vm_compute; lia] ].

Ltac wf_ops :=
  repeat (apply List.Forall_cons; [first [exact I | wf_insert | evaluated] |]);
  apply List.Forall_nil.

(** ** Size accounting *)

Definition twoNodes : M unit :=
  insert 1%N 10 (rawNode [Byte.x01]) >> insertFreshNode 1%N >>
  insert 2%N 20 (rawNode [Byte.x02]) >> Reference 2%N 1%N.

(** C1, what the code does: two inserts and a [Reference] leave dirtiesSize
    equal to the sum over the Node Store, and the [Commit] with uncache set
    that follows removes the node with a children map and takes the size of
    that map off dirtiesSize too: the counter is 30 below zero while the
    entry that remains counts 52. *)
Theorem Commit_uncache_breaks_dirtiesSize :
  exists db0 db,
    twoNodes (NewDatabase emptyDisk) = Ok tt db0 /\
    dirtiesSize db0 = 94 /\ dirties_sum db0 = 94 /\
    Commit leafBytes IdealBatchSize 1%N false true db0 = Ok None db /\
    dirties db !! 1%N = None /\
    dirtiesSize db = -30 /\ dirties_sum db = 52.
Proof.
  exists (exec twoNodes (NewDatabase emptyDisk)).
  exists (exec (twoNodes >> Commit leafBytes IdealBatchSize 1%N false true) (NewDatabase emptyDisk)).
  split_and!; evaluated.
Qed.

(** ** The meta-root *)

(** C7, what the code does: once the zero hash has been referenced as a
    child of a node, dereferencing that node descends into the zero hash
    and deletes the meta-root from the Node Store. *)
Theorem Dereference_deletes_meta_root :
  exists db,
    (insert 1%N 10 (rawNode [Byte.x01]) >> Reference zeroHash 1%N >> IncrVersion >>
     Dereference 1%N 10) (NewDatabase emptyDisk) = Ok tt db /\
    dirties db !! zeroHash = None.
Proof.
  exists (exec (insert 1%N 10 (rawNode [Byte.x01]) >> Reference zeroHash 1%N >> IncrVersion >>
                Dereference 1%N 10) (NewDatabase emptyDisk)).
  split; evaluated.
Qed.

(** ** A failed write in Cap *)

Definition bigBlob : list Byte.byte := repeat Byte.x00 (Z.to_nat IdealBatchSize).

Definition bigNode : cachedNode :=
  mkCachedNode (rawNode bigBlob) 5 0 None zeroHash zeroHash 0.

Definition failingDisk : Disk := mkDisk ∅ [true].

Definition bigDb : Database :=
  exec (insert 1%N 5 (rawNode bigBlob)) (NewDatabase failingDisk).

(** One node of 100 KiB in the Node Store, a disk that refuses the next
    write: [Cap 0] stops in the fatal error. *)
Lemma Cap_failed_write_is_fatal_witness :
  insert 1%N 5 (rawNode bigBlob) (NewDatabase failingDisk) = Ok tt bigDb /\
  Cap leafBytes cachedNodeSize IdealBatchSize 0 bigDb = Abort RUnlockOfUnlocked.
Proof.
  split; [reflexivity|].
  apply (Cap_failed_write_is_fatal leafBytes cachedNodeSize IdealBatchSize 0 bigDb
           metaRoot bigNode []);
    [reflexivity|reflexivity|done|evaluated|evaluated|evaluated|reflexivity|reflexivity].
Defined.

(** ** Three nodes in the Node Store *)

Definition threeOps : list op :=
  [OpInsert 1%N 10 (valueNode [Byte.x01]); OpInsertFresh 1%N;
   OpInsert 2%N 20 (hashNode [Byte.x01]); OpInsert 3%N 30 (rawNode [Byte.x03])].

Definition cachedDb : Database := NewDatabaseWithConfig emptyDisk true true.

Definition threeDb : Database :=
  exec (run_ops leafBytes cachedNodeSize IdealBatchSize threeOps) cachedDb.

Lemma threeDb_reach :
  FL [1%N; 2%N; 3%N] ∅ threeDb /\ G byValue threeDb /\ lock threeDb = unlocked.
Proof.
  apply (run_ops_reach leafBytes cachedNodeSize IdealBatchSize byValue threeOps
           emptyDisk true true); [wf_ops|evaluated|evaluated].
Qed.

(** Inserting hash 1 again changes nothing. *)
Lemma insert_present_is_noop_witness :
  insert 1%N 7 (valueNode []) threeDb = Ok tt threeDb.
Proof.
  eapply insert_present_is_noop. evaluated.
Defined.

Definition refDb : Database := exec (Reference 2%N 1%N) threeDb.

Definition rootedDb : Database := exec (Reference 1%N zeroHash) threeDb.

(** Hash 9 is not in the Node Store; node 1 already lists child 2 in
    [refDb]; and the meta-root, which lists node 1 once in [rootedDb],
    takes it a second time. *)
Lemma reference_cases_witness :
  reference 9%N 1%N threeDb = Ok tt threeDb /\
  reference 2%N 1%N refDb = Ok tt refDb /\
  Reference 1%N zeroHash threeDb = Ok tt rootedDb /\
  (exists r c, dirties rootedDb !! zeroHash = Some r /\ edge_count r 1%N = 1 /\
               dirties rootedDb !! 1%N = Some c /\ parents c = 1) /\
  exists db', reference 1%N zeroHash rootedDb = Ok tt db' /\
    (exists r', dirties db' !! zeroHash = Some r' /\ edge_count r' 1%N = 2) /\
    (exists c', dirties db' !! 1%N = Some c' /\ parents c' = 2).
Proof.
  split_and!.
  - apply (reference_cases 9%N 1%N threeDb). evaluated.
  - destruct (reference_cases 2%N 1%N refDb) as (_ & H & _).
    eapply H; [done|evaluated|evaluated|by vm_compute; eexists].
  - evaluated.
  - do 2 eexists. split_and!; evaluated.
  - destruct (reference_cases 1%N zeroHash rootedDb) as (_ & _ & H).
    edestruct H as (db' & E & Hr & Hc); [evaluated|evaluated|].
    exists db'. split_and!; [exact E|exact Hr|exact Hc].
Defined.

(** One node referenced 65535 times as a root. *)
Definition manyRoots : Database :=
  N.iter 65535 (exec (Reference 1%N zeroHash))
         (exec (insert 1%N 10 (rawNode [Byte.x01])) (NewDatabase emptyDisk)).

(** After 65535 references of node 1 under the meta-root both counters
    stand at 65535; the next reference takes [children[child]] to 0 while
    [parents] goes on to 65536. *)
Lemma reference_counter_wraps :
  exists r c db' r' c',
    dirties manyRoots !! zeroHash = Some r /\ edge_count r 1%N = 65535 /\
    dirties manyRoots !! 1%N = Some c /\ parents c = 65535 /\
    reference 1%N zeroHash manyRoots = Ok tt db' /\
    dirties db' !! zeroHash = Some r' /\ edge_count r' 1%N = 0 /\
    dirties db' !! 1%N = Some c' /\ parents c' = 65536.
Proof.
  do 2 eexists. exists (exec (reference 1%N zeroHash) manyRoots). do 2 eexists.
  split_and!; evaluated.
Qed.

(** A new database has no node under hash 1. *)
Lemma Node_not_found_witness :
  Node leafBytes zeroHash cachedDb = Ok ([], Some ErrNotFound) cachedDb /\
  ((exists enc db', Node leafBytes 1%N cachedDb = Ok (enc, Some ErrNotFound) db') <->
   cleans_Get cachedDb 1%N = None /\ dirties cachedDb !! 1%N = None /\
   ReadTrieNode (diskdb cachedDb) 1%N = []).
Proof.
  destruct (Node_not_found leafBytes 1%N cachedDb) as [H0 H1].
  split; [exact H0|]. apply H1; [done|reflexivity].
Defined.

Definition flushedDb : Database :=
  exec (insert 1%N 0 (rawNode []) >> Cap leafBytes cachedNodeSize IdealBatchSize 0)
       (NewDatabase emptyDisk).

(** An empty blob flushed to disk under hash 1 is on disk, and [Node]
    reports hash 1 as not found. *)
Lemma Node_empty_blob_not_found :
  (insert 1%N 0 (rawNode []) >> Cap leafBytes cachedNodeSize IdealBatchSize 0)
    (NewDatabase emptyDisk) = Ok None flushedDb /\
  kv (diskdb flushedDb) !! (TrieNodeKey, 1%N) = Some [] /\
  1%N <> zeroHash /\
  Node leafBytes 1%N flushedDb = Ok ([], Some ErrNotFound) flushedDb.
Proof. split_and!; evaluated. Qed.

(** ** Dereferencing *)

Definition staleOps : list op :=
  [OpInsert 1%N 5 (valueNode [Byte.x01]); OpIncrVersion].

Definition staleDb : Database :=
  exec (run_ops leafBytes cachedNodeSize IdealBatchSize staleOps) cachedDb.

Lemma staleDb_reach :
  FL [1%N] ∅ staleDb /\ G byValue staleDb /\ lock staleDb = unlocked.
Proof.
  apply (run_ops_reach leafBytes cachedNodeSize IdealBatchSize byValue staleOps
           emptyDisk true true); [wf_ops|evaluated|evaluated].
Qed.

(** The 300ms are over before the first node is looked at: a stale node
    that is not fresh stays in the Node Store. *)
Lemma dereference_overtime_keeps_stale_node :
  (1%N ∉ freshNodes staleDb) /\
  (exists c, dirties staleDb !! 1%N = Some c /\ version c < nodeVersion staleDb) /\
  dereference 1 1%N (Some cleanFn) (∅, 0%nat) staleDb = Ok (∅, 0%nat) staleDb.
Proof.
  split_and!.
  - apply (bool_decide_unpack _). evaluated.
  - eexists. split; evaluated.
  - evaluated.
Qed.

(** With time left the stale node of [staleDb] is removed. *)
Lemma dereference_removes_iff_witness :
  FL [1%N] ∅ staleDb /\ G byValue staleDb /\
  exists s' db', dereference 6 1%N (Some cleanFn) (∅, 5%nat) staleDb = Ok s' db' /\
                 is_Some (dirties staleDb !! 1%N) /\ dirties db' !! 1%N = None.
Proof.
  destruct staleDb_reach as (HFL & HG & _). split_and!; [done|done|].
  destruct (dereference_removes_iff byValue 6 1%N (Some cleanFn) (∅, 5%nat) staleDb [1%N]
              HFL HG) as (s' & db' & E & Hiff & _); [done|simpl; lia|].
  exists s', db'. split; [exact E|]. apply Hiff. split_and!.
  - apply (bool_decide_unpack _). evaluated.
  - done.
  - eexists. split; evaluated.
Defined.

Definition sweptDb : Database := exec (DereferenceDB 1%N 5) staleDb.

(** The stale value node of [staleDb] is recorded as useless. *)
Lemma DereferenceDB_records_removed_witness :
  FL [1%N] ∅ staleDb /\ G byValue staleDb /\ lock staleDb = unlocked /\
  DereferenceDB 1%N 5 staleDb = Ok tt sweptDb /\
  dirties sweptDb !! 1%N = None /\
  (exists u, useless sweptDb = useless staleDb ++ [u] /\ 1%N ∈ u) /\
  cleans_lookup sweptDb 1%N = None.
Proof.
  destruct staleDb_reach as (HFL & HG & Hlock). split_and!; [done|done|done|evaluated|evaluated|..].
  all: destruct (DereferenceDB_records_removed byValue 1%N 5 staleDb [1%N] HFL HG Hlock)
         as (db' & E & H);
       assert (E' : DereferenceDB 1%N 5 staleDb = Ok tt sweptDb) by evaluated;
       rewrite E' in E; injection E as <-;
       edestruct (H 1%N) as [Hu Hc]; [evaluated|evaluated|evaluated|done].
Defined.

Definition committedDb : Database :=
  exec (insert 1%N 10 (rawNode [Byte.x01]) >> insertFreshNode 1%N >>
        Commit leafBytes IdealBatchSize 1%N false false >> IncrVersion) cachedDb.

(** A committed raw blob that went stale: [DereferenceDB] removes it from
    the Node Store, leaves it in the Clean Cache and records nothing. *)
Lemma DereferenceDB_skips_raw_blob :
  (exists c, dirties committedDb !! 1%N = Some c /\ version c < nodeVersion committedDb) /\
  cleans_lookup committedDb 1%N = Some [Byte.x01] /\
  exists db', DereferenceDB 1%N 5 committedDb = Ok tt db' /\
    dirties db' !! 1%N = None /\
    cleans_lookup db' 1%N = Some [Byte.x01] /\
    useless db' = [∅].
Proof.
  split_and!; [eexists; split; evaluated|evaluated|].
  exists (exec (DereferenceDB 1%N 5) committedDb). split_and!; evaluated.
Qed.

(** ** The flush-list *)

Definition threeItems : list (N * Z * node) :=
  [(1%N, 10, valueNode [Byte.x01]); (2%N, 20, hashNode [Byte.x01]);
   (3%N, 30, rawNode [Byte.x03])].

Definition mixedOps : list op :=
  [OpInsert 1%N 10 (valueNode [Byte.x01]); OpInsert 2%N 20 (hashNode [Byte.x01]);
   OpInsertFresh 2%N; OpInsert 3%N 30 (rawNode [Byte.x03]); OpIncrVersion;
   OpDereference 3%N 5; OpCommit 2%N false true; OpCap 0;
   OpInsert 4%N 40 (valueNode [Byte.x04]); OpInsert 5%N 50 (hashNode [Byte.x04]);
   OpIncrVersion; OpDereferenceDB 4%N 5; OpInsert 6%N 60 (rawNode [Byte.x06])].

(** Three inserts are walked in order and in reverse, and a run of all the
    operations, which leaves nodes 5 and 6, keeps the walk in step with
    the Node Store. *)
Lemma flush_list_total_order_witness :
  (exists db, run_ops leafBytes cachedNodeSize IdealBatchSize mixedOps cachedDb = Ok tt db /\
     walk_next (size (dirties db)) (dirties db) (oldest db) = [5%N; 6%N]) /\
  (exists db, insert_all threeItems cachedDb = Ok tt db /\
     walk_next (size (dirties db)) (dirties db) (oldest db) = [1%N; 2%N; 3%N] /\
     walk_prev (size (dirties db)) (dirties db) (newest db) = [3%N; 2%N; 1%N]) /\
  outcome expected_fault (run_ops leafBytes cachedNodeSize IdealBatchSize mixedOps) cachedDb
    (fun _ db =>
       NoDup (walk_next (size (dirties db)) (dirties db) (oldest db)) /\
       (forall h, h ∈ walk_next (size (dirties db)) (dirties db) (oldest db) <->
                  h <> zeroHash /\ is_Some (dirties db !! h)) /\
       (forall x, last (walk_next (size (dirties db)) (dirties db) (oldest db)) = Some x ->
                  newest db = x)).
Proof.
  split; [|split].
  - exists (exec (run_ops leafBytes cachedNodeSize IdealBatchSize mixedOps) cachedDb).
    split; evaluated.
  - apply (proj1 (flush_list_total_order leafBytes cachedNodeSize IdealBatchSize byValue
                    emptyDisk true true threeItems mixedOps)).
    + apply (bool_decide_unpack _). evaluated.
    + apply (bool_decide_unpack _). evaluated.
    + repeat (apply List.Forall_cons; [by eexists|]). apply List.Forall_nil.
  - apply (proj2 (flush_list_total_order leafBytes cachedNodeSize IdealBatchSize byValue
                    emptyDisk true true threeItems mixedOps)).
    wf_ops.
Defined.

Definition cyclicRun : M unit :=
  insert 7%N 5 (valueNode [Byte.x07]) >> insert 1%N 5 (hashNode [Byte.x02]) >>
  insert 2%N 5 (hashNode [Byte.x01]) >> IncrVersion >> Dereference 1%N 3.

(** Two distinct inserts, one of them under the zero hash, leave one hash
    to walk; and when nodes 1 and 2 embed each other's hash, dereferencing
    node 1 leaves node 7 linked to hash 2, which is no longer in the Node
    Store. *)
Lemma flush_list_walk_broken :
  (exists db,
     NoDup [zeroHash; 1%N] /\
     insert_all [(zeroHash, 5, valueNode [Byte.x07]); (1%N, 5, valueNode [Byte.x02])]
       (NewDatabase emptyDisk) = Ok tt db /\
     walk_next (size (dirties db)) (dirties db) (oldest db) = [1%N]) /\
  (exists db,
     cyclicRun (NewDatabase emptyDisk) = Ok tt db /\
     walk_next (size (dirties db)) (dirties db) (oldest db) = [7%N; 2%N] /\
     dirties db !! 2%N = None).
Proof.
  split.
  - eexists. split_and!; [apply (bool_decide_unpack _); evaluated|evaluated|evaluated].
  - exists (exec cyclicRun (NewDatabase emptyDisk)). split_and!; evaluated.
Qed.

(** ** Uncaching *)

(** Node 2 of [threeDb] is spliced out from between 1 and 3 and lands in the
    clean cache; a [Commit] of root 1 empties the freshNodes set. *)
Lemma cleaner_Put_uncaches_witness :
  FL ([1%N] ++ 2%N :: [3%N]) ∅ threeDb /\
  (exists db', cleaner_Put true (TrieNodeKey, 2%N) [Byte.x01] threeDb = Ok None db' /\
     FL ([1%N] ++ [3%N]) ∅ db' /\ dirties db' !! 2%N = None /\
     dirtiesSize db' = dirtiesSize threeDb - (HashLength + 20) /\
     cleans db' = Some {[ 2%N := [Byte.x01] ]}) /\
  (1%N ∈ freshNodes threeDb) /\
  freshNodes (exec (Commit leafBytes IdealBatchSize 1%N false true) threeDb) = ∅.
Proof.
  destruct threeDb_reach as (HFL & _ & _).
  destruct (cleaner_Put_uncaches leafBytes IdealBatchSize [1%N] [3%N] 2%N TrieNodeKey
              [Byte.x01] threeDb
              (mkCachedNode (hashNode [Byte.x01]) 20 0 None 1%N 3%N 0)) as [H1 H2].
  split_and!.
  - exact HFL.
  - destruct (H1 HFL) as (db' & E & HFL' & Hnone & Hsz & Hcl); [evaluated|].
    exists db'. split_and!; [exact E|exact HFL'|exact Hnone|by apply Hsz|by apply Hcl].
  - apply (bool_decide_unpack _). evaluated.
  - apply (H2 1%N false true). evaluated.
Defined.

(** Without a clean cache (the default configuration) the committed node
    goes to disk and out of the Node Store, and no cache holds it. *)
Lemma Commit_uncache_without_clean_cache :
  exists c db,
    dirties (exec (insert 1%N 10 (rawNode [Byte.x01]) >> insertFreshNode 1%N)
                  (NewDatabase emptyDisk)) !! 1%N = Some c /\
    (insert 1%N 10 (rawNode [Byte.x01]) >> insertFreshNode 1%N >>
     Commit leafBytes IdealBatchSize 1%N false true) (NewDatabase emptyDisk) = Ok None db /\
    kv (diskdb db) !! (TrieNodeKey, 1%N) = Some [Byte.x01] /\
    dirties db !! 1%N = None /\
    cleans_lookup db 1%N = None.
Proof.
  eexists. 
  exists (exec (insert 1%N 10 (rawNode [Byte.x01]) >> insertFreshNode 1%N >>
                Commit leafBytes IdealBatchSize 1%N false true) (NewDatabase emptyDisk)).
  split_and!; evaluated.
Qed.

(** ** Listing, sizing and capping *)

(** [Nodes] on [threeDb] lists the three hashes of the flush-list. *)
Lemma Nodes_are_the_dirty_hashes_witness :
  exists hs, Nodes threeDb = Ok hs threeDb /\ NoDup hs /\ hs ≡ₚ [1%N; 2%N; 3%N].
Proof.
  destruct (Nodes_are_the_dirty_hashes threeDb [1%N; 2%N; 3%N]) as (hs & E & Hnd & _ & Hp);
    [evaluated|].
  exists hs. exact (conj E (conj Hnd (Hp (proj1 threeDb_reach)))).
Defined.

(** [threeDb] takes 468 bytes by [Size]: a [Cap] at 1000 writes nothing. *)
Lemma Cap_at_Size_keeps_nodes_witness :
  Size cachedNodeSize threeDb = Ok (468, 0) threeDb /\
  exists r db', Cap leafBytes cachedNodeSize IdealBatchSize 1000 threeDb = Ok r db' /\
    kv (diskdb db') = kv (diskdb threeDb).
Proof.
  split; [evaluated|].
  destruct (Cap_at_Size_keeps_nodes leafBytes cachedNodeSize IdealBatchSize 1000 468 0 threeDb)
    as (r & db' & E & _ & Hk & _);
    [evaluated|evaluated|lia|lia|right; vm_compute; by eexists|].
  exists r, db'. exact (conj E Hk).
Defined.

(** [CapNode] at zero on [threeDb] splits the flush-list and leaves a
    well-formed one. *)
Lemma CapNode_drops_a_prefix_witness :
  exists la lb db', [1%N; 2%N; 3%N] = la ++ lb /\ CapNode 0 threeDb = Ok tt db' /\
    FL lb ∅ db' /\ diskdb db' = diskdb threeDb.
Proof.
  destruct (CapNode_drops_a_prefix byValue 0 threeDb [1%N; 2%N; 3%N])
    as (la & lb & db' & H1 & H2 & H3 & _ & _ & H4 & _);
    [exact (proj1 threeDb_reach)|exact (proj2 (proj2 threeDb_reach))|].
  exists la, lb, db'. exact (conj H1 (conj H2 (conj H3 H4))).
Defined.

(** ** Sweeping *)

(** The set [DereferenceDB] recorded in [sweptDb] is taken off the list. *)
Lemma UselessGC_sweeps_witness :
  exists db', UselessGC IdealBatchSize 1 sweptDb = Ok tt db' /\
    useless db' = drop 1 (useless sweptDb).
Proof.
  destruct (UselessGC_sweeps IdealBatchSize 1 sweptDb) as (db' & E & Hu & _); [evaluated|].
  exists db'. exact (conj E Hu).
Defined.

(** The stale value node of [staleDb] is what [DereferenceDB] records. *)
Lemma DereferenceDB_records_exactly_witness :
  exists db' u, DereferenceDB 1%N 5 staleDb = Ok tt db' /\
    useless db' = useless staleDb ++ [u] /\ 1%N ∈ u.
Proof.
  destruct staleDb_reach as (HFL & HG & Hlock).
  destruct (DereferenceDB_records_exactly byValue 1%N 5 staleDb [1%N] HFL HG Hlock)
    as (db' & u & E & Hu & Hk); [done|].
  exists db', u. split; [exact E|]. split; [exact Hu|].
  apply Hk.
  assert (E' : DereferenceDB 1%N 5 staleDb = Ok tt sweptDb) by evaluated.
  rewrite E' in E. injection E as <-.
  eexists. split_and!; evaluated.
Defined.

(** ** Restamping *)

Definition agedOps : list op :=
  [OpInsert 1%N 10 (valueNode [Byte.x01]); OpInsert 2%N 20 (hashNode [Byte.x01]);
   OpIncrVersion].

Definition agedDb : Database :=
  exec (run_ops leafBytes cachedNodeSize IdealBatchSize agedOps) cachedDb.

Lemma agedDb_reach :
  FL [1%N; 2%N] ∅ agedDb /\ G byValue agedDb /\ lock agedDb = unlocked.
Proof.
  apply (run_ops_reach leafBytes cachedNodeSize IdealBatchSize byValue agedOps
           emptyDisk true true); [wf_ops|evaluated|evaluated].
Qed.

(** Node 2 embeds the hash of node 1: after [ReferenceVersion] of node 2,
    dereferencing node 1 does nothing. *)
Lemma ReferenceVersion_protects_witness :
  exists db', ReferenceVersion 2%N agedDb = Ok tt db' /\
    stamped (nodeVersion agedDb) db' 1%N /\
    forall budget, Dereference 1%N budget db' = Ok tt db'.
Proof.
  destruct agedDb_reach as (_ & HG & Hlock).
  destruct (ReferenceVersion_protects byValue 2%N agedDb HG Hlock) as (db' & E & _ & H);
    [done|].
  exists db'. split; [exact E|]. apply (H 1%N).
  eapply reach_child; [evaluated|evaluated|left|eapply reach_here; evaluated].
Defined.

(** ** Writing before removing *)

Definition node1 : cachedNode := default metaRoot (dirties threeDb !! 1%N).

Definition cappedDb : Database :=
  exec (Cap leafBytes cachedNodeSize IdealBatchSize 0) threeDb.

Definition uncachedDb : Database :=
  exec (Commit leafBytes IdealBatchSize 1%N false true) threeDb.

(** A [Commit] of node 1 of [threeDb] with uncache set puts it on disk. *)
Lemma Commit_writes_before_uncaching_witness :
  exists db', Commit leafBytes IdealBatchSize 1%N false true threeDb = Ok None db' /\
    dirties db' !! 1%N = None /\
    kv (diskdb db') !! (TrieNodeKey, 1%N) = Some (rlp leafBytes node1).
Proof.
  exists uncachedDb.
  assert (E : Commit leafBytes IdealBatchSize 1%N false true threeDb = Ok None uncachedDb)
    by evaluated.
  split; [exact E|]. split; [evaluated|].
  apply (proj1 (Commit_writes_before_uncaching leafBytes IdealBatchSize 1%N false true
                  threeDb None uncachedDb E) 1%N node1); evaluated.
Defined.

(** A [Cap] at zero of [threeDb] puts node 1 on disk. *)
Lemma Cap_writes_before_evicting_witness :
  exists db', Cap leafBytes cachedNodeSize IdealBatchSize 0 threeDb = Ok None db' /\
    dirties db' !! 1%N = None /\
    kv (diskdb db') !! (TrieNodeKey, 1%N) = Some (rlp leafBytes node1).
Proof.
  exists cappedDb.
  assert (E : Cap leafBytes cachedNodeSize IdealBatchSize 0 threeDb = Ok None cappedDb)
    by evaluated.
  split; [exact E|]. split; [evaluated|].
  apply (proj1 (Cap_writes_before_evicting leafBytes cachedNodeSize IdealBatchSize byValue 0
                  threeDb [1%N; 2%N; 3%N] None cappedDb (proj1 threeDb_reach)
                  (proj2 (proj2 threeDb_reach)) E) 1%N node1); evaluated.
Defined.

(** ** Reading back *)

(** A fourth node inserted into [threeDb] is read back. *)
Lemma Node_after_insert_witness :
  exists db1 e, insert 4%N 40 (valueNode [Byte.x04]) threeDb = Ok tt db1 /\
    dirties db1 !! 4%N = Some e /\ cnode e = valueNode [Byte.x04] /\
    Node leafBytes 4%N db1
    = Ok (default (rlp leafBytes e) (cleans_Get threeDb 4%N), None) db1.
Proof.
  apply (Node_after_insert leafBytes byValue [1%N; 2%N; 3%N] threeDb 4%N 40
           (valueNode [Byte.x04]) (valueNode [Byte.x04]));
    [exact (proj1 threeDb_reach)|evaluated|reflexivity|evaluated].
Defined.

(** Node 1 of [threeDb] is read back after a [Cap] at zero. *)
Lemma Node_after_Cap_witness :
  exists db' db'', Cap leafBytes cachedNodeSize IdealBatchSize 0 threeDb = Ok None db' /\
    Node leafBytes 1%N db' = Ok (rlp leafBytes node1, None) db''.
Proof.
  exists cappedDb.
  assert (E : Cap leafBytes cachedNodeSize IdealBatchSize 0 threeDb = Ok None cappedDb)
    by evaluated.
  destruct (Node_after_Cap leafBytes cachedNodeSize IdealBatchSize byValue 0 [1%N; 2%N; 3%N]
              threeDb 1%N node1 None cappedDb (proj1 threeDb_reach)
              (proj2 (proj2 threeDb_reach)))
    as [db'' H]; [evaluated|done|evaluated|left; evaluated|exact E|].
  exists db''. exact (conj E H).
Defined.

(** Node 1 of [threeDb] is read back after it is committed and uncached. *)
Lemma Node_after_Commit_witness :
  exists db' db'', Commit leafBytes IdealBatchSize 1%N false true threeDb = Ok None db' /\
    Node leafBytes 1%N db' = Ok (rlp leafBytes node1, None) db''.
Proof.
  exists uncachedDb.
  assert (E : Commit leafBytes IdealBatchSize 1%N false true threeDb = Ok None uncachedDb)
    by evaluated.
  destruct (Node_after_Commit leafBytes IdealBatchSize byValue 1%N false true [1%N; 2%N; 3%N]
              threeDb 1%N node1 None uncachedDb (proj1 threeDb_reach)
              (proj1 (proj2 threeDb_reach))
              (proj2 (proj2 threeDb_reach)))
    as [db'' H];
    [apply (bool_decide_unpack _); evaluated|evaluated|done|evaluated|left; evaluated|exact E|].
  exists db''. exact (conj E H).
Defined.

(** ** Preimages *)

Definition preDb : Database := exec (insertPreimage 5%N [Byte.x05]) threeDb.

Definition preimagesOf (db : Database) : gmap N (list Byte.byte) :=
  default ∅ (preimages db).

(** A second preimage is counted with the first. *)
Lemma insertPreimage_accounts_witness :
  exists db', insertPreimage 6%N [Byte.x06; Byte.x06] preDb = Ok tt db' /\
    preimagesSize db' = preimages_sum db' /\ preimagesSize db' = 67.
Proof.
  destruct (insertPreimage_accounts 6%N [Byte.x06; Byte.x06] preDb) as (db' & E & Hs & _);
    [evaluated|].
  exists db'. split; [exact E|]. split; [exact Hs|].
  assert (E' : insertPreimage 6%N [Byte.x06; Byte.x06] preDb
               = Ok tt (exec (insertPreimage 6%N [Byte.x06; Byte.x06]) preDb)) by evaluated.
  rewrite E' in E. injection E as <-. evaluated.
Defined.

(** The preimage of [preDb] is on disk after a [Commit]. *)
Lemma Commit_flushes_preimages_witness :
  exists db', Commit leafBytes IdealBatchSize 1%N false true preDb = Ok None db' /\
    kv (diskdb db') !! (PreimageKey, 5%N) = Some [Byte.x05] /\
    preimages db' = Some ∅ /\ preimagesSize db' = 0.
Proof.
  set (db' := exec (Commit leafBytes IdealBatchSize 1%N false true) preDb).
  exists db'.
  assert (E : Commit leafBytes IdealBatchSize 1%N false true preDb = Ok None db')
    by evaluated.
  assert (Hp : preimages preDb = Some (preimagesOf preDb)) by evaluated.
  split; [exact E|].
  destruct (Commit_flushes_preimages leafBytes IdealBatchSize 1%N false true preDb db'
              (preimagesOf preDb) Hp E) as (H1 & H2 & H3).
  split; [apply H1; evaluated|exact (conj H2 H3)].
Defined.

(** Under the threshold a [Cap] leaves the preimage of [preDb] where it
    is. *)
Lemma Cap_flushes_preimages_witness :
  exists db', Cap leafBytes cachedNodeSize IdealBatchSize 0 preDb = Ok None db' /\
    preimages db' = Some (preimagesOf preDb) /\ preimagesSize db' = preimagesSize preDb.
Proof.
  set (db' := exec (Cap leafBytes cachedNodeSize IdealBatchSize 0) preDb).
  exists db'.
  assert (E : Cap leafBytes cachedNodeSize IdealBatchSize 0 preDb = Ok None db')
    by evaluated.
  assert (Hp : preimages preDb = Some (preimagesOf preDb)) by evaluated.
  assert (HFL : FL [1%N; 2%N; 3%N] ∅ preDb).
  { eapply FL_same; [| | |exact (proj1 threeDb_reach)]; reflexivity. }
  split; [exact E|].
  apply (proj2 (Cap_flushes_preimages leafBytes cachedNodeSize IdealBatchSize byValue 0 preDb db'
                  [1%N; 2%N; 3%N] (preimagesOf preDb) HFL eq_refl Hp E)).
  evaluated.
Defined.

(** ** Expanding *)

(** Stand-ins for the key encoding and the decoder: a key gets the
    terminator nibble, a blob decodes to a value node. *)
Definition hexOf (k : list Byte.byte) : list Byte.byte := k ++ [Byte.x10].
Definition decodeLeaf (hash : N) (blob : list Byte.byte) : option node :=
  Some (valueNode blob).

(** A short node over a full node with one hash in it comes back with its
    key in hex form. *)
Lemma expandNode_simplifyNode_witness :
  expandNode hexOf (rawShortNode [Byte.x01] (rawFullNode [nilNode; hashNode [Byte.x02]]))
  = Some (shortNode [Byte.x01; Byte.x10] (fullNode [nilNode; hashNode [Byte.x02]])).
Proof.
  exact (expandNode_simplifyNode hexOf
           (shortNode [Byte.x01] (fullNode [nilNode; hashNode [Byte.x02]]))
           (rawShortNode [Byte.x01] (rawFullNode [nilNode; hashNode [Byte.x02]])) eq_refl).
Defined.

(** A short node inserted into [threeDb] is read back in memory form. *)
Lemma node_after_insert_witness :
  exists db1, insert 4%N 40 (shortNode [Byte.x01] (valueNode [Byte.x04])) threeDb = Ok tt db1 /\
    Database_node hexOf decodeLeaf 4%N db1
    = Ok (Some (shortNode [Byte.x01; Byte.x10] (valueNode [Byte.x04]))) db1.
Proof.
  apply (node_after_insert leafBytes byValue hexOf decodeLeaf [1%N; 2%N; 3%N] threeDb 4%N 40
           (shortNode [Byte.x01] (valueNode [Byte.x04]))
           (rawShortNode [Byte.x01] (valueNode [Byte.x04])) (proj1 threeDb_reach));
    [evaluated|reflexivity|evaluated|evaluated].
Defined.

(** The raw blob under hash 3 of [threeDb] is decoded by [node]. *)
Lemma node_agrees_with_Node_witness :
  exists db1, Node leafBytes 3%N threeDb = Ok ([Byte.x03], None) db1 /\
    Database_node hexOf decodeLeaf 3%N threeDb = Ok (Some (valueNode [Byte.x03])) db1.
Proof.
  set (db1 := exec (Node leafBytes 3%N) threeDb).
  exists db1.
  assert (E : Node leafBytes 3%N threeDb = Ok ([Byte.x03], None) db1) by evaluated.
  split; [exact E|].
  apply (node_agrees_with_Node leafBytes hexOf decodeLeaf 3%N threeDb db1
           ([Byte.x03], None) ltac:(done) E).
  - intros _ d Hd. assert (d = default metaRoot (dirties threeDb !! 3%N)) as ->.
    { apply (inj Some). rewrite <- Hd. evaluated. }
    evaluated.
  - evaluated.
Defined.

(** ** Counting *)

(** The run of [mixedOps] leaves [dirtiesSize] equal to the sum over the
    Node Store. *)
Lemma dirtiesSize_is_the_sum_witness :
  exists db, run_ops leafBytes cachedNodeSize IdealBatchSize mixedOps cachedDb = Ok tt db /\
    dirtiesSize db = dirties_sum db.
Proof.
  assert (Hwf : Forall (wf_op byValue) mixedOps) by wf_ops.
  assert (Hsm : Forall small_op mixedOps).
  { repeat (apply List.Forall_cons; [first [exact I|cbn; lia]|]). apply List.Forall_nil. }
  exists (exec (run_ops leafBytes cachedNodeSize IdealBatchSize mixedOps) cachedDb).
  assert (E : run_ops leafBytes cachedNodeSize IdealBatchSize mixedOps cachedDb
              = Ok tt (exec (run_ops leafBytes cachedNodeSize IdealBatchSize mixedOps) cachedDb))
    by (vm_compute; reflexivity).
  exact (conj E (dirtiesSize_is_the_sum leafBytes cachedNodeSize IdealBatchSize byValue mixedOps
                   emptyDisk true true _ Hwf Hsm E)).
Defined.

Definition trimmedDb : Database :=
  exec (Cap leafBytes cachedNodeSize IdealBatchSize 300) threeDb.

(** Of the 468 bytes of [threeDb] a [Cap] at 300 flushes nodes 1 and 2,
    146 and 156 bytes, and keeps node 3. *)
Lemma Cap_flushes_oldest_first_witness :
  Cap leafBytes cachedNodeSize IdealBatchSize 300 threeDb = Ok None trimmedDb /\
  dirties trimmedDb !! 2%N = None /\ dirties trimmedDb !! 3%N <> None /\
  exists la lb, [1%N; 2%N; 3%N] = la ++ lb /\ FL lb ∅ trimmedDb /\
    (forall h, h ∈ la -> dirties trimmedDb !! h = None) /\
    (lb <> [] -> 468 - flush_costs cachedNodeSize (dirties threeDb) la <= 300).
Proof.
  assert (E : Cap leafBytes cachedNodeSize IdealBatchSize 300 threeDb = Ok None trimmedDb)
    by (vm_compute; reflexivity).
  assert (HS : Size cachedNodeSize threeDb = Ok (468, 0) threeDb) by (vm_compute; reflexivity).
  assert (H2 : dirties trimmedDb !! 2%N = None) by (vm_compute; reflexivity).
  assert (H3 : dirties trimmedDb !! 3%N <> None) by (vm_compute; discriminate).
  refine (conj E (conj H2 (conj H3 _))).
  destruct (Cap_flushes_oldest_first leafBytes cachedNodeSize IdealBatchSize byValue 300 468 0
              threeDb trimmedDb [1%N; 2%N; 3%N] (proj1 threeDb_reach)
              (proj2 (proj2 threeDb_reach)) HS E) as (la & lb & Hl & HFL & Hla & Hle & _).
  exists la, lb. exact (conj Hl (conj HFL (conj Hla Hle))).
Defined.

(** A [Cap] at zero of [threeDb] takes 156 off [dirtiesSize], the three
    nodes it removes. *)
Lemma pruning_keeps_the_count_witness :
  Cap leafBytes cachedNodeSize IdealBatchSize 0 threeDb = Ok None cappedDb /\
  dirtiesSize threeDb - dirtiesSize cappedDb = 156 /\
  dirtiesSize threeDb - dirtiesSize cappedDb = dirties_sum threeDb - dirties_sum cappedDb.
Proof.
  assert (E : Cap leafBytes cachedNodeSize IdealBatchSize 0 threeDb = Ok None cappedDb)
    by (vm_compute; reflexivity).
  assert (H : dirtiesSize threeDb - dirtiesSize cappedDb = 156) by (vm_compute; reflexivity).
  exact (conj E (conj H
    (proj1 (pruning_keeps_the_count leafBytes cachedNodeSize IdealBatchSize byValue
              [1%N; 2%N; 3%N] threeDb (proj1 threeDb_reach) (proj1 (proj2 threeDb_reach))
              (proj2 (proj2 threeDb_reach))) 0 None cappedDb E))).
Defined.
